(** * Devil's checkerboard: bit utilities, colourings, validator, reporter

    A shallow embedding of [devils_checkerboard.cc] (both variants of the
    program).  The C++ code is generic in an unsigned integer type
    [NumberType]; it is instantiated at [uint32_t] and [uint64_t].  Values of
    these types are modelled as [Z] with the wrap-around written out.
    [assert] failures and operations without defined behaviour (a shift by
    the width or more, a vector read out of range, a remainder by zero) are
    results of the error monad [result]. *)

From Stdlib Require Import ZArith Lia Ascii String DecimalString.
From stdpp Require Import base tactics option list numbers sorting.

Local Open Scope Z_scope.

(** ** Machine integers *)

Inductive NumberType := uint32_t | uint64_t.

(** [sizeof(NumberType) * 8] *)
Definition bits (T : NumberType) : Z :=
  match T with uint32_t => 32 | uint64_t => 64 end.

Definition modulus (T : NumberType) : Z := 2 ^ bits T.

(** Conversion of a mathematical integer to [NumberType]. *)
Definition wrap (T : NumberType) (z : Z) : Z := z mod modulus T.

Definition in_range (T : NumberType) (z : Z) : Prop := 0 <= z < modulus T.

(** ** Failures *)

(** [OutOfFuel] belongs to the model only: a [while] loop is run with a
    bound on its number of iterations, and reports when the bound is hit. *)
Inductive failure :=
  AssertionFailed | UndefinedBehaviour | FormatError | OutOfFuel.

Inductive result (A : Type) : Type :=
  | Ok (a : A)
  | Fail (f : failure).
Arguments Ok {A} a.
Arguments Fail {A} f.

#[global] Instance result_ret : MRet result := fun A a => Ok a.
#[global] Instance result_bind : MBind result := fun A B f m =>
  match m with Ok a => f a | Fail e => Fail e end.

(** [assert(b)] *)
Definition assert (b : bool) : result unit :=
  if b then Ok tt else Fail AssertionFailed.

(** [x << n] and [x >> n] on [NumberType]; the behaviour is undefined when
    the shift count is not less than the width. *)
Definition shl (T : NumberType) (x n : Z) : result Z :=
  if n <? bits T then Ok (wrap T (Z.shiftl x n)) else Fail UndefinedBehaviour.

Definition shr (T : NumberType) (x n : Z) : result Z :=
  if n <? bits T then Ok (Z.shiftr x n) else Fail UndefinedBehaviour.

(** [~x] on [NumberType] *)
Definition bitnot (T : NumberType) (x : Z) : Z := modulus T - 1 - x.

(** [a + b], [a - b], [a * b] and [a % b] on [NumberType] *)
Definition uadd (T : NumberType) (a b : Z) : Z := wrap T (a + b).
Definition usub (T : NumberType) (a b : Z) : Z := wrap T (a - b).
Definition umul (T : NumberType) (a b : Z) : Z := wrap T (a * b).
Definition urem (a b : Z) : result Z :=
  if b =? 0 then Fail UndefinedBehaviour else Ok (a mod b).

(** [for (NumberType i = lo; i < hi; ++i) body], threading the variables
    the body updates. *)
Fixpoint for_each {S : Type} (l : list Z) (body : Z → S → result S) (s : S)
  : result S :=
  match l with
  | [] => Ok s
  | i :: l' => s' ← body i s; for_each l' body s'
  end.

Definition for_range {S : Type} (lo hi : Z) (body : Z → S → result S) (s : S)
  : result S :=
  for_each (seqZ lo (hi - lo)) body s.

(** [std::vector]: [v[i]] and [v[i] = x]; out of range is undefined. *)
Definition vec_get {A : Type} (v : list A) (i : Z) : result A :=
  match v !! Z.to_nat i with
  | Some x => Ok x
  | None => Fail UndefinedBehaviour
  end.

Definition vec_set {A : Type} (v : list A) (i : Z) (x : A) : result (list A) :=
  if bool_decide (Z.to_nat i < length v)%nat
  then Ok (<[Z.to_nat i := x]> v)
  else Fail UndefinedBehaviour.

(** ** Bit access *)

(** [Get(value, idx)]: the value at bit position [idx]. *)
Definition Get (T : NumberType) (value idx : Z) : result Z :=
  _ ← assert (idx <? bits T);
  s ← shr T value idx;
  Ok (Z.land s 1).

(** [struct Setter]: [target] is the current value of the pointee. *)
Record Setter := { target : Z; index : Z }.

(** [Setter::operator=(value)]; returns the new value of [*target]. *)
Definition Setter_assign (T : NumberType) (s : Setter) (value : Z) : result Z :=
  (* clear the bit position *)
  m ← shl T 1 (index s);
  let t1 := Z.land (target s) (bitnot T m) in
  (* set the bit position *)
  b ← shl T (Z.land value 1) (index s);
  Ok (Z.lor t1 b).

(** [Set(value, idx)]; [Set] is a sort of Rocq, hence the underscore. *)
Definition Set_ (T : NumberType) (value idx : Z) : result Setter :=
  _ ← assert (idx <? bits T);
  Ok {| target := value; index := idx |}.

(** The statement [Set(&x, idx) = b;], returning the new value of [x]. *)
Definition SetBit (T : NumberType) (x idx b : Z) : result Z :=
  s ← Set_ T x idx;
  Setter_assign T s b.

(** ** Binary strings *)

(** [ParseString(value_str, value)]: set the value from a string; returns
    the new value of [*value]. *)
Definition ParseString (T : NumberType) (value_str : string) (value : Z)
  : result Z :=
  let size := Z.of_nat (String.length value_str) in
  _ ← assert (size <=? bits T);
  for_range 0 size (fun i value =>
    c ← vec_get (list_ascii_of_string value_str) i;
    _ ← assert (Ascii.eqb c "0" || Ascii.eqb c "1");
    SetBit T value i (wrap T (Z.of_N (N_of_ascii c) - Z.of_N (N_of_ascii "0"))))
    value.

(** [ToString(value, ndim)] *)
Definition ToString (T : NumberType) (value ndim : Z) : result string :=
  _ ← assert (ndim <=? bits T);
  let result := replicate (Z.to_nat (uadd T ndim 1)) Ascii.zero in
  result ← vec_set result 0 "b"%char;
  result ← for_range 0 ndim (fun i result =>
    g ← Get T value i;
    vec_set result (uadd T i 1)
      (ascii_of_N (Z.to_N ((Z.of_N (N_of_ascii "0") + g) mod 256))))
    result;
  Ok (string_of_list_ascii result).

(** ** Counting *)

(** There are 2^n states. *)
Definition GetNumberOfStates (T : NumberType) (ndim : Z) : result Z :=
  shl T 1 ndim.

Definition GetNumberOfColors (ndim : Z) : Z :=
  (* return 2 * ((ndim + 1) / 2); *)
  ndim.

(** The instructions behind [_mm_popcnt_u32] and [_mm_popcnt_u64]: the
    number of bits set among the low [w] bits of the operand. *)
Definition popcnt (w : nat) (value : Z) : Z :=
  foldr Z.add 0 ((λ i : nat, Z.b2z (Z.testbit value (Z.of_nat i))) <$> seq 0 w).

(** [PopCount(uint32_t)] without SSE4.1 *)
Definition PopCount32_portable (value : Z) : Z :=
  let value := usub uint32_t value (Z.land (Z.shiftr value 1) 0x55555555) in
  let value := uadd uint32_t (Z.land value 0x33333333)
                             (Z.land (Z.shiftr value 2) 0x33333333) in
  Z.shiftr
    (umul uint32_t
       (Z.land (uadd uint32_t value (Z.shiftr value 4)) 0x0F0F0F0F)
       0x01010101)
    24.

(** [PopCount(uint64_t)] without SSE4.1 *)
Definition PopCount64_portable (value : Z) : Z :=
  let value := uadd uint64_t (Z.land value 0x5555555555555555)
                             (Z.land (Z.shiftr value 1) 0x5555555555555555) in
  let value := uadd uint64_t (Z.land value 0x3333333333333333)
                             (Z.land (Z.shiftr value 2) 0x3333333333333333) in
  let value := Z.land (uadd uint64_t value (Z.shiftr value 4))
                      0x0F0F0F0F0F0F0F0F in
  let value := uadd uint64_t value (Z.shiftr value 8) in
  let value := uadd uint64_t value (Z.shiftr value 16) in
  let value := Z.land (uadd uint64_t value (Z.shiftr value 32)) 0x0000007F in
  value.

(** [PopCount]; [sse4_1] tells whether [__SSE4_1__] is defined in the build. *)
Definition PopCount (sse4_1 : bool) (T : NumberType) (value : Z) : Z :=
  match T, sse4_1 with
  | uint32_t, true => popcnt 32 value
  | uint64_t, true => popcnt 64 value
  | uint32_t, false => PopCount32_portable value
  | uint64_t, false => PopCount64_portable value
  end.

(** ** Colourings *)

(** What [ValidateColoring] and [PrintColoring] ask of their template
    parameter [ColorAssignment]: [coloring[state]]. *)
Class ColorAssignment (C : Type) :=
  color_at : NumberType → C → Z → result Z.

#[global] Instance vector_coloring : ColorAssignment (list Z) :=
  fun _ v state => vec_get v state.

Record MirrorAssignment := { ndim_ : Z }.

(** [MirrorAssignment::operator[](state)] *)
Definition MirrorAssignment_at (T : NumberType) (m : MirrorAssignment)
  (state : Z) : result Z :=
  n ← shl T 1 (ndim_ m);
  _ ← assert (state <? n);
  cycle_offset ← urem state (umul T (ndim_ m) 2);
  if cycle_offset <? ndim_ m then Ok cycle_offset
  else Ok (usub T (usub T (umul T 2 (ndim_ m)) cycle_offset) 1).

#[global] Instance mirror_coloring : ColorAssignment MirrorAssignment :=
  MirrorAssignment_at.

(** ** Formatted output

    The part of the {fmt} library the program relies on: replacement fields
    [{id:spec}] with an optional argument index, an optional [0] flag, an
    optional width (a number or a nested field) and the presentation types
    [d] and [b]; [{{] and [}}] are escapes. *)

#[global] Instance result_fmap : FMap result := fun A B f m =>
  match m with Ok a => Ok (f a) | Fail e => Fail e end.

Inductive fmt_arg := ArgUInt (z : Z) | ArgStr (s : string).

Definition dec (z : Z) : list ascii :=
  list_ascii_of_string (DecimalString.NilZero.string_of_uint (N.to_uint (Z.to_N z))).

Fixpoint bin_pos (p : positive) (acc : list ascii) : list ascii :=
  match p with
  | xH => "1"%char :: acc
  | xO p' => bin_pos p' ("0"%char :: acc)
  | xI p' => bin_pos p' ("1"%char :: acc)
  end.

Definition bin (z : Z) : list ascii :=
  match z with
  | Zpos p => bin_pos p []
  | _ => ["0"%char]
  end.

Definition digit_of (c : ascii) : option nat :=
  let n := nat_of_ascii c in
  if (48 <=? n)%nat && (n <=? 57)%nat then Some (n - 48)%nat else None.

(** The longest prefix of digits, as a number, and what follows it. *)
Fixpoint parse_nat (s : list ascii) (acc : nat) : nat * list ascii :=
  match s with
  | [] => (acc, [])
  | c :: s' =>
      match digit_of c with
      | Some d => parse_nat s' (10 * acc + d)%nat
      | None => (acc, s)
      end
  end.

(** Splits a replacement field at its first colon. *)
Fixpoint split_colon (s : list ascii) : list ascii * option (list ascii) :=
  match s with
  | [] => ([], None)
  | c :: s' =>
      if Ascii.eqb c ":" then ([], Some s')
      else let '(a, b) := split_colon s' in (c :: a, b)
  end.

(** The argument an index part selects: a number is a manual index, nothing
    is the next automatic one. *)
Definition select_arg (id : list ascii) (auto : nat) (args : list fmt_arg)
  : result (fmt_arg * nat) :=
  match id with
  | [] =>
      match args !! auto with
      | Some a => Ok (a, S auto)
      | None => Fail FormatError
      end
  | c :: _ =>
      match digit_of c, parse_nat id 0 with
      | Some _, (n, []) =>
          match args !! n with
          | Some a => Ok (a, auto)
          | None => Fail FormatError
          end
      | _, _ => Fail FormatError
      end
  end.

Fixpoint take_until_close (s : list ascii) : option (list ascii * list ascii) :=
  match s with
  | [] => None
  | c :: s' =>
      if Ascii.eqb c "}" then Some ([], s')
      else '(a, b) ← take_until_close s'; Some (c :: a, b)
  end.

Definition pad (zero : bool) (width : nat) (left_align : bool) (txt : list ascii)
  : list ascii :=
  let fill := replicate (width - length txt) (if zero then "0" else " ")%char in
  if left_align then txt ++ fill else fill ++ txt.

Definition render_field (field : list ascii) (auto : nat) (args : list fmt_arg)
  : result (list ascii * nat) :=
  let '(id, spec) := split_colon field in
  '(arg, auto) ← select_arg id auto args;
  let spec := default [] spec in
  let '(zero, spec) :=
    match spec with
    | c :: spec' => if Ascii.eqb c "0" then (true, spec') else (false, spec)
    | [] => (false, spec)
    end in
  '(width, auto, spec) ←
    match spec with
    | c :: spec' =>
        if Ascii.eqb c "{" then
          match take_until_close spec' with
          | Some (id', spec'') =>
              '(w, auto) ← select_arg id' auto args;
              match w with
              | ArgUInt w => Ok (Z.to_nat w, auto, spec'')
              | ArgStr _ => Fail FormatError
              end
          | None => Fail FormatError
          end
        else let '(w, spec'') := parse_nat spec 0 in Ok (w, auto, spec'')
    | [] => Ok (0%nat, auto, spec)
    end;
  match arg, spec with
  | ArgUInt z, [] => Ok (pad zero width false (dec z), auto)
  | ArgUInt z, [c] =>
      if Ascii.eqb c "d" then Ok (pad zero width false (dec z), auto)
      else if Ascii.eqb c "b" then Ok (pad zero width false (bin z), auto)
      else Fail FormatError
  | ArgStr s, [] => Ok (pad false width true (list_ascii_of_string s), auto)
  | _, _ => Fail FormatError
  end.

Inductive fmt_mode :=
  | Text
  | Closing
  | Field (acc : list ascii) (depth : nat).

Fixpoint fmt_go (s : list ascii) (mode : fmt_mode) (auto : nat)
  (args : list fmt_arg) : result (list ascii) :=
  match s with
  | [] => match mode with Text => Ok [] | _ => Fail FormatError end
  | c :: rest =>
      match mode with
      | Text =>
          if Ascii.eqb c "{" then fmt_go rest (Field [] 0) auto args
          else if Ascii.eqb c "}" then fmt_go rest Closing auto args
          else r ← fmt_go rest Text auto args; Ok (c :: r)
      | Closing =>
          if Ascii.eqb c "}" then r ← fmt_go rest Text auto args; Ok (c :: r)
          else Fail FormatError
      | Field acc depth =>
          if Ascii.eqb c "{" then
            match acc, depth with
            | [], O => r ← fmt_go rest Text auto args; Ok (c :: r)
            | _, _ => fmt_go rest (Field (acc ++ [c]) (S depth)) auto args
            end
          else if Ascii.eqb c "}" then
            match depth with
            | S d => fmt_go rest (Field (acc ++ [c]) d) auto args
            | O =>
                '(txt, auto') ← render_field acc auto args;
                r ← fmt_go rest Text auto' args;
                Ok (txt ++ r)
            end
          else fmt_go rest (Field (acc ++ [c]) depth) auto args
      end
  end.

(** [fmt::format(f, args...)], which [fmt::print] writes to the stream. *)
Definition fmt_format (f : string) (args : list fmt_arg) : result string :=
  string_of_list_ascii <$> fmt_go (list_ascii_of_string f) Text 0 args.
Arguments fmt_format : simpl never.

Definition nl : string := String "010" EmptyString.

(** ** Validator *)

Section Validate.
Context {C : Type} `{ColorAssignment C}.
Variable sse4_1 : bool.
Variable T : NumberType.

(** The colours seen at [current_state] and its neighbours, as a bit
    vector: the body of the outer loop up to the test. *)
Definition colors_seen_at (coloring : C) (ndim current_state : Z) : result Z :=
  (* bit-vector of colors seen among neighbors (including self) *)
  let colors_seen := 0 in
  c ← color_at T coloring current_state;
  colors_seen ← SetBit T colors_seen c 1;
  for_range 0 ndim (fun i colors_seen =>
    let neighbor_state := current_state in
    g ← Get T current_state i;
    neighbor_state ←
      (if negb (g =? 0) then SetBit T neighbor_state i 0
       else SetBit T neighbor_state i 1);
    c ← color_at T coloring neighbor_state;
    SetBit T colors_seen c 1)
    colors_seen.

(** What is printed for a state that fails. *)
Definition diagnostic (ndim current_state colors_seen n_colors : Z)
  : result string :=
  l1 ← fmt_format
    ("For state {1:0{0}b}, saw {2} ({3:0{0}b}) colors, expected {4:d}" ++ nl)
    [ArgUInt ndim; ArgUInt current_state;
     ArgUInt (PopCount sse4_1 T colors_seen); ArgUInt colors_seen;
     ArgUInt n_colors];
  l2 ← fmt_format ("colors_seen: {:08b}" ++ nl) [ArgUInt colors_seen];
  Ok (l1 ++ l2)%string.

(** The outer loop over the states still to be checked; the result is the
    value returned and the text written to [std::cout]. *)
Fixpoint Validate_states (coloring : C) (ndim n_colors : Z) (states : list Z)
  : result (bool * string) :=
  match states with
  | [] => Ok (true, EmptyString)
  | current_state :: states' =>
      colors_seen ← colors_seen_at coloring ndim current_state;
      if negb (PopCount sse4_1 T colors_seen =? n_colors) then
        d ← diagnostic ndim current_state colors_seen n_colors;
        Ok (false, d)
      else Validate_states coloring ndim n_colors states'
  end.

Definition ValidateColoring (coloring : C) (ndim : Z) : result (bool * string) :=
  n_states ← GetNumberOfStates T ndim;
  let n_colors := ndim in
  Validate_states coloring ndim n_colors (seqZ 0 n_states).
End Validate.
Arguments diagnostic : simpl never.

(** ** Reporter *)

Definition kFormat2 : string :=
  ("  (10) o ----- o (11)   (00) : {0:d} " ++ nl ++
   "       |       |        (01) : {1:d} " ++ nl ++
   "       |       |        (10) : {2:d} " ++ nl ++
   "  (00) o-------o (01)   (11) : {3:d} " ++ nl)%string.

Definition kFormat3 : string :=
  (nl ++
   "    (110) o-------o (111)   (000) : {0:d} " ++ nl ++
   "         /|      /|         (001) : {1:d} " ++ nl ++
   " (010)  / |     / |         (010) : {2:d} " ++ nl ++
   "       o ----- o  o (101)   (011) : {3:d} " ++ nl ++
   "       | /     | /          (100) : {4:d} " ++ nl ++
   "       |/      |/           (101) : {5:d} " ++ nl ++
   " (000) o-------o (001)      (110) : {6:d} " ++ nl ++
   "                            (111) : {7:d} " ++ nl)%string.

(** [PrintColoring(out, coloring, ndim)]; the result is the text written
    to [out]. *)
Definition PrintColoring {C : Type} `{ColorAssignment C} (T : NumberType)
  (coloring : C) (ndim : Z) : result string :=
  if ndim =? 2 then
    args ← mapM (color_at T coloring) [0; 1; 2; 3];
    fmt_format kFormat2 (ArgUInt <$> args)
  else if ndim =? 3 then
    args ← mapM (color_at T coloring) [0; 1; 2; 3; 4; 5; 6; 7];
    fmt_format kFormat3 (ArgUInt <$> args)
  else if ndim =? 4 then
    Ok EmptyString
  else
    Ok ("No visualization for dimension " ++ string_of_list_ascii (dec ndim) ++ nl)%string.

(** ** Driver over the mirror colouring *)

(** One pass of the body of the loops of [main] and [old_main], for a
    colouring already built; the result is the text written. *)
Definition report {C : Type} `{ColorAssignment C} (sse4_1 : bool)
  (T : NumberType) (coloring : C) (ndim : Z) (header : string) : result string :=
  diagram ← PrintColoring T coloring ndim;
  '(is_valid, diag) ← ValidateColoring sse4_1 T coloring ndim;
  line ← fmt_format ("Validated: {}" ++ nl)
            [ArgStr (if is_valid : bool then "yes" else "no")];
  Ok (header ++ diagram ++ diag ++ line)%string.

Definition header_line (T : NumberType) (ndim : Z) : result string :=
  n_states ← GetNumberOfStates T ndim;
  fmt_format (nl ++ nl ++ "n = {}, {} states, {} colors" ++ nl)
    [ArgUInt ndim; ArgUInt n_states; ArgUInt (GetNumberOfColors ndim)].

(** [for (uint64_t ndim = 2; ndim < 17; ndim *= ndim)], from [ndim] on;
    [out] is what has been written so far. *)
Fixpoint main_loop (sse4_1 : bool) (fuel : nat) (ndim : Z) (out : string)
  : result string :=
  if ndim <? 17 then
    match fuel with
    | O => Fail OutOfFuel
    | S fuel' =>
        let coloring := {| ndim_ := ndim |} in
        header ← header_line uint64_t ndim;
        text ← report sse4_1 uint64_t coloring ndim header;
        main_loop sse4_1 fuel' (umul uint64_t ndim ndim) (out ++ text)
    end
  else Ok out.

(** [main]: the exit status and the text written to [std::cout]. *)
Definition main (sse4_1 : bool) (fuel : nat) : result (Z * string) :=
  out ← main_loop sse4_1 fuel 2 EmptyString;
  Ok (0, out).

(** ** Colouring in topological order *)

(** [TopologicalCompare::operator()(a, b)] *)
Definition TopologicalCompare (sse4_1 : bool) (T : NumberType) (a b : Z) : bool :=
  (* Same depth, return sorted order *)
  if PopCount sse4_1 T a =? PopCount sse4_1 T b then b <? a
  (* Different depth, handle lower depth first *)
  else PopCount sse4_1 T a <? PopCount sse4_1 T b.

(** [std::set<NumberType, Compare>] as the list of its elements in order;
    [insert] keeps the set unchanged when an equivalent element is there. *)
Fixpoint set_insert (lt : Z → Z → bool) (x : Z) (s : list Z) : list Z :=
  match s with
  | [] => [x]
  | y :: s' =>
      if lt x y then x :: s
      else if lt y x then y :: set_insert lt x s'
      else s
  end.

(** What the generator does that can be observed from outside its loop:
    insertions into the queue and assignments of colours, in order. *)
Inductive event :=
  | Inserted (state : Z)
  | Coloured (state color : Z).

(** The local variables of [GenerateColoring]; [events] is a ghost field
    recording the insertions and assignments executed so far. *)
Record generator := {
  queue : list Z;
  result_ : list Z;
  open : list bool;
  closed : list bool;
  next_color : Z;
  events : list event;
}.

Section Generate.
Variable sse4_1 : bool.
Variable T : NumberType.

(** The body of [for (NumberType i = 0; i < ndim; ++i)]. *)
Definition visit_child (current_state i : Z) (g : generator) : result generator :=
  let child_state := current_state in
  b ← Get T child_state i;
  if b =? 0 then
    child_state ← SetBit T child_state i 1;
    o ← vec_get (open g) child_state;
    if negb o then
      open' ← vec_set (open g) child_state true;
      Ok {| queue := set_insert (TopologicalCompare sse4_1 T) child_state (queue g);
            result_ := result_ g; open := open'; closed := closed g;
            next_color := next_color g;
            events := events g ++ [Inserted child_state] |}
    else Ok g
  else Ok g.

(** The body of the [while] loop, once [current_state] has been taken
    from the front of the queue. *)
Definition visit (ndim num_colors current_state : Z) (g : generator)
  : result generator :=
  _ ← assert (current_state <? Z.of_nat (length (result_ g)));
  c ← vec_get (closed g) current_state;
  g ← (if negb c then
         closed' ← vec_set (closed g) current_state true;
         result' ← vec_set (result_ g) current_state (next_color g);
         next' ← urem (uadd T (next_color g) 1) num_colors;
         Ok {| queue := queue g; result_ := result'; open := open g;
               closed := closed'; next_color := next';
               events := events g ++ [Coloured current_state (next_color g)] |}
       else Ok g);
  for_range 0 ndim (visit_child current_state) g.

(** [while (queue.size() > 0)] *)
Fixpoint generate_loop (fuel : nat) (ndim num_colors : Z) (g : generator)
  : result generator :=
  match queue g with
  | [] => Ok g
  | current_state :: queue' =>
      match fuel with
      | O => Fail OutOfFuel
      | S fuel' =>
          g ← visit ndim num_colors current_state
                {| queue := queue'; result_ := result_ g; open := open g;
                   closed := closed g; next_color := next_color g;
                   events := events g |};
          generate_loop fuel' ndim num_colors g
      end
  end.

(** The state of the generator when its loop is entered. *)
Definition generate_init (n_states : Z) : result generator :=
  let next_color := 0 in
  let queue := [] in
  let result := replicate (Z.to_nat n_states) 0 in
  let open := replicate (Z.to_nat n_states) false in
  let closed := replicate (Z.to_nat n_states) false in
  open ← vec_set open 0 true;
  Ok {| queue := set_insert (TopologicalCompare sse4_1 T) 0 queue;
        result_ := result; open := open; closed := closed;
        next_color := next_color; events := [Inserted 0] |}.

(** The generator with its ghost field. *)
Definition generate (fuel : nat) (ndim : Z) : result generator :=
  n_states ← GetNumberOfStates T ndim;
  let num_colors := GetNumberOfColors ndim in
  g ← generate_init n_states;
  generate_loop fuel ndim num_colors g.

(** [GenerateColoring(ndim)]: cycle over colors in topological order. *)
Definition GenerateColoring (fuel : nat) (ndim : Z) : result (list Z) :=
  result_ <$> generate fuel ndim.
End Generate.

(** ** Driver over the generated colouring *)

(** [old_main]: the exit status and the text written to [std::cout]. *)
Definition old_main (sse4_1 : bool) (fuel : nat) : result (Z * string) :=
  out ← for_range 2 5 (fun ndim out =>
    header ← header_line uint32_t ndim;
    coloring ← GenerateColoring sse4_1 uint32_t fuel ndim;
    text ← report sse4_1 uint32_t coloring ndim header;
    Ok (out ++ text)%string) EmptyString;
  Ok (0, out).

(** ** The variant of [devils_checkerboard.cc]

    The file [devils_checkerboard.cc] differs from the program above in
    three places: it always counts bits with the SSE4.1 instruction, its
    validator takes a vector and prints another diagnostic, and its [main]
    validates the generated colouring before it prints it.  What it shares
    with the program above is not repeated. *)

Module devils_checkerboard.

(** What is printed for a state that fails. *)
Definition diagnostic (T : NumberType) (colors_seen n_colors : Z)
  : result string :=
  l1 ← fmt_format ("Saw {} colors, expected {}" ++ nl)
    [ArgUInt (PopCount true T colors_seen); ArgUInt n_colors];
  l2 ← fmt_format ("colors_seen: {:08b}" ++ nl) [ArgUInt colors_seen];
  Ok (l1 ++ l2)%string.

(** The outer loop over the states still to be checked. *)
Fixpoint Validate_states (T : NumberType) (coloring : list Z)
  (ndim n_colors : Z) (states : list Z) : result (bool * string) :=
  match states with
  | [] => Ok (true, EmptyString)
  | current_state :: states' =>
      colors_seen ← colors_seen_at T coloring ndim current_state;
      if negb (PopCount true T colors_seen =? n_colors) then
        d ← diagnostic T colors_seen n_colors;
        Ok (false, d)
      else Validate_states T coloring ndim n_colors states'
  end.

Definition ValidateColoring (T : NumberType) (coloring : list Z) (ndim : Z)
  : result (bool * string) :=
  n_states ← GetNumberOfStates T ndim;
  let n_colors := GetNumberOfColors ndim in
  Validate_states T coloring ndim n_colors (seqZ 0 n_states).

(** [main]: the exit status and the text written to [std::cout];
    [NumberType] is [uint32_t]. *)
Definition main (fuel : nat) : result (Z * string) :=
  out ← for_range 2 5 (fun ndim out =>
    header ← header_line uint32_t ndim;
    coloring ← GenerateColoring true uint32_t fuel ndim;
    '(is_valid, diag) ← ValidateColoring uint32_t coloring ndim;
    line ← fmt_format ("Validated: {}" ++ nl)
              [ArgStr (if is_valid : bool then "yes" else "no")];
    diagram ← PrintColoring uint32_t coloring ndim;
    Ok (out ++ header ++ diag ++ line ++ diagram)%string) EmptyString;
  Ok (0, out).

End devils_checkerboard.
Arguments devils_checkerboard.diagnostic : simpl never.


(** * Vocabulary of the statements

    Definitions the statements and their proofs are written with; none of
    them is part of the program. *)

(** ** Bit access *)

(** The pure effect of [Set(&x, idx) = b] on a value in range. *)
Definition set_bit (x idx b : Z) : Z :=
  Z.lor (Z.ldiff x (Z.shiftl 1 idx)) (Z.shiftl (Z.land b 1) idx).

(** ** Mirror colouring *)

(** The closed form of the specification. *)
Definition mirror_closed_form (ndim vertex_id : Z) : Z :=
  let cycle_len := 2 * ndim in
  let offset := vertex_id mod cycle_len in
  if offset <? ndim then offset else cycle_len - offset - 1.

(** ** Binary strings *)

Definition bit_char (b : bool) : ascii := if b then "1"%char else "0"%char.

(** The characters for bits [0 .. n-1] of [v], bit 0 first. *)
Definition bit_chars (v : Z) (n : nat) : list ascii :=
  (λ i : nat, bit_char (Z.testbit v (Z.of_nat i))) <$> seq 0 n.
Arguments bit_chars : simpl never.

(** [std::string::substr(pos)] for [pos] within the string. *)
Definition substr (s : string) (pos : nat) : string :=
  String.substring pos (String.length s - pos) s.

(** ** Counting bits *)

(** Little-endian bytes. *)
Definition join (l : list Z) : Z := foldr (λ b r, b + 256 * r) 0 l.

Fixpoint bytes (n : nat) (v : Z) : list Z :=
  match n with
  | O => []
  | S n' => v mod 256 :: bytes n' (v / 256)
  end.

Definition is_byte (b : Z) : Prop := 0 <= b < 256.

#[local] Instance is_byte_dec b : Decision (is_byte b).
Proof. unfold is_byte. apply _. Defined.

Definition nib_ok (b : Z) : Prop := 0 <= b ∧ b mod 16 <= 4 ∧ b / 16 <= 4.

#[local] Instance nib_ok_dec b : Decision (nib_ok b).
Proof. unfold nib_ok. apply _. Defined.

(** The steps of the portable counts, with the mask as a parameter. *)
Definition half_sub (m v : Z) : Z := v - Z.land (Z.shiftr v 1) m.

Definition pair_add (s m v : Z) : Z := Z.land v m + Z.land (Z.shiftr v s) m.

Definition nibble_add (m v : Z) : Z := Z.land (v + Z.shiftr v 4) m.

Definition sumZ (l : list Z) : Z := foldr Z.add 0 l.

(** ** Validator *)

(** The specification's words: the neighbour of [v] along dimension [i],
    the closed neighbourhood of [v], and the bit mask of the colours met
    there. *)
Definition neighbour (v i : Z) : Z := Z.lxor v (Z.shiftl 1 i).

Definition closed_neighbourhood (ndim v : Z) : list Z :=
  v :: (neighbour v <$> seqZ 0 ndim).

Definition seen_upto (color : Z → Z) (v k : Z) : Z :=
  foldl (λ mask i, Z.lor mask (Z.shiftl 1 (color (neighbour v i))))
        (Z.shiftl 1 (color v)) (seqZ 0 k).

Definition seen_mask (color : Z → Z) (ndim v : Z) : Z := seen_upto color v ndim.

(** The number of bits set in a mask over at most [ndim] colours. *)
Definition cardinality (T : NumberType) (mask : Z) : Z :=
  popcnt (Z.to_nat (bits T)) mask.

(** [color] describes [coloring] on the closed neighbourhood of [v]. *)
Definition describes {C : Type} `{ColorAssignment C} (T : NumberType) (ndim : Z)
  (coloring : C) (color : Z → Z) (v : Z) : Prop :=
  ∀ x, x ∈ closed_neighbourhood ndim v →
       color_at T coloring x = Ok (color x) ∧ 0 <= color x < ndim.

(** The test of the validator at one state, in the specification's words. *)
Definition complete (T : NumberType) (ndim : Z) (color : Z → Z) (v : Z) : Prop :=
  cardinality T (seen_mask color ndim v) = ndim.

#[global] Instance complete_dec T ndim color v : Decision (complete T ndim color v).
Proof. unfold complete. apply _. Defined.

(** A vector read as a function of the state. *)
Definition color_of (coloring : list Z) (v : Z) : Z :=
  default 0 (coloring !! Z.to_nat v).

(** ** Reporter *)

(** The literal text of a template: what lies between its replacement
    fields, in order. *)
Fixpoint text_parts_from (s : list ascii) (in_field : bool) (cur : list ascii)
  : list (list ascii) :=
  match s with
  | [] => [cur]
  | c :: s' =>
      if in_field then
        if Ascii.eqb c "}" then text_parts_from s' false []
        else text_parts_from s' true cur
      else if Ascii.eqb c "{" then cur :: text_parts_from s' true []
      else text_parts_from s' false (cur ++ [c])
  end.

Definition text_parts (template : string) : list (list ascii) :=
  text_parts_from (list_ascii_of_string template) false [].

(** [parts] with [fills] put between them. *)
Fixpoint interleave (parts fills : list (list ascii)) : list ascii :=
  match parts, fills with
  | [], _ => []
  | p :: _, [] => p
  | p :: parts', f :: fills' => p ++ f ++ interleave parts' fills'
  end.

(** The replacement field [{k:d}]. *)
Definition placeholder (k : Z) : list ascii :=
  "{"%char :: dec k ++ [":"; "d"; "}"]%char.

Definition no_braces (s : list ascii) : bool :=
  forallb (λ c, negb (Ascii.eqb c "{") && negb (Ascii.eqb c "}")) s.

(** ** Drivers *)

(** One pass of the loop of [main] and one of the loop of [old_main]. *)
Definition main_pass (sse4_1 : bool) (ndim : Z) : result string :=
  header ← header_line uint64_t ndim;
  report sse4_1 uint64_t {| ndim_ := ndim |} ndim header.

Definition old_main_pass (sse4_1 : bool) (fuel : nat) (ndim : Z) : result string :=
  header ← header_line uint32_t ndim;
  coloring ← GenerateColoring sse4_1 uint32_t fuel ndim;
  report sse4_1 uint32_t coloring ndim header.

(** ** Colouring in topological order *)

(** The states reached from state 0 by setting bits that are 0. *)
Inductive reachable (ndim : Z) : Z → Prop :=
  | reachable_zero : reachable ndim 0
  | reachable_set v i :
      reachable ndim v → 0 <= i < ndim → Z.testbit v i = false →
      reachable ndim (Z.lor v (2 ^ i)).

(** The number of states that are not open. *)
Definition count_false (l : list bool) : nat :=
  length (filter (λ b, b = false) l).

(** The states inserted into the queue and the colours assigned, in order. *)
Definition inserted (ev : list event) : list Z :=
  omap (λ e, match e with Inserted s => Some s | Coloured _ _ => None end) ev.

Definition coloured (ev : list event) : list (Z * Z) :=
  omap (λ e, match e with Inserted _ => None | Coloured s c => Some (s, c) end) ev.

(** What decreases at each turn of the [while] loop: the states in the
    queue together with those not yet open. *)
Definition measure (g : generator) : nat :=
  (length (queue g) + count_false (open g))%nat.

(** The invariant of the [while] loop.  Inside the [for] loop over the
    children of [cs], [partial] is [Some (cs, k)] when the children along
    the dimensions below [k] have been dealt with. *)
Record Inv (ndim : Z) (partial : option (Z * Z)) (g : generator) : Prop := {
  inv_len_result : length (result_ g) = Z.to_nat (2 ^ ndim);
  inv_len_open : length (open g) = Z.to_nat (2 ^ ndim);
  inv_len_closed : length (closed g) = Z.to_nat (2 ^ ndim);
  inv_queue_nodup : NoDup (queue g);
  inv_ins_nodup : NoDup (inserted (events g));
  inv_col_nodup : NoDup (coloured (events g)).*1;
  inv_ins_range : ∀ v, v ∈ inserted (events g) → 0 <= v < 2 ^ ndim;
  inv_open : ∀ v, 0 <= v < 2 ^ ndim →
    (open g !! Z.to_nat v = Some true ↔ v ∈ inserted (events g));
  inv_closed : ∀ v, 0 <= v < 2 ^ ndim →
    (closed g !! Z.to_nat v = Some true ↔ v ∈ (coloured (events g)).*1);
  inv_split : ∀ v,
    v ∈ inserted (events g) ↔ v ∈ queue g ∨ v ∈ (coloured (events g)).*1;
  inv_disj : ∀ v, v ∈ queue g → v ∉ (coloured (events g)).*1;
  inv_col : ∀ v c, (v, c) ∈ coloured (events g) →
    0 <= c < ndim ∧ result_ g !! Z.to_nat v = Some c;
  inv_next : 0 <= next_color g < ndim;
  inv_zero : 0 ∈ inserted (events g);
  inv_closure : ∀ v i,
    v ∈ (coloured (events g)).*1 → 0 <= i < ndim → Z.testbit v i = false →
    match partial with Some (cs, k) => v = cs → i < k | None => True end →
    Z.lor v (2 ^ i) ∈ inserted (events g);
}.

(** The state of the generator once [current_state] has been taken from
    the front of the queue. *)
Definition popped (g : generator) (queue' : list Z) : generator :=
  {| queue := queue'; result_ := result_ g; open := open g;
     closed := closed g; next_color := next_color g; events := events g |}.

(** ** Binary strings, read as numbers *)

Definition is_bit_char (c : ascii) : Prop := c = "0"%char ∨ c = "1"%char.

Definition char_bit (c : ascii) : bool := Ascii.eqb c "1".

(** The number a string of binary digits stands for, bit 0 first. *)
Definition binary_value (cs : list ascii) : Z :=
  foldr (λ c acc, Z.b2z (char_bit c) + 2 * acc) 0 cs.

(** [target] with its bits below [k] replaced by those of [low]. *)
Definition splice (low target k : Z) : Z :=
  Z.lor (Z.land low (Z.ones k)) (Z.ldiff target (Z.ones k)).

(** ** Colouring in topological order: the schedule *)

(** [a] is handled before [b]. *)
Definition before (sse4_1 : bool) (T : NumberType) (a b : Z) : Prop :=
  TopologicalCompare sse4_1 T a b = true.

#[global] Instance before_dec sse4_1 T a b : Decision (before sse4_1 T a b).
Proof. unfold before. apply _. Defined.

(** The number of states of the cube handled before [v]. *)
Definition rank (sse4_1 : bool) (T : NumberType) (ndim v : Z) : Z :=
  Z.of_nat (length (filter (λ u, before sse4_1 T u v) (seqZ 0 (2 ^ ndim)))).

(** What the loop of the generator keeps true of the order in which the
    states are coloured and of the colours they get; [current] is the
    state whose children are being visited. *)
Record Sched (sse4_1 : bool) (T : NumberType) (ndim : Z) (current : option Z)
  (g : generator) : Prop := {
  sch_sorted :
    StronglySorted (before sse4_1 T) ((coloured (events g)).*1 ++ queue g);
  sch_colours :
    (coloured (events g)).*2 =
    (λ k, k mod ndim) <$> seqZ 0 (Z.of_nat (length (coloured (events g))));
  sch_next : next_color g = Z.of_nat (length (coloured (events g))) mod ndim;
  sch_current :
    match current with
    | Some cs => last (coloured (events g)).*1 = Some cs
    | None => True
    end;
}.

(** ** Driver of [devils_checkerboard.cc] *)

(** What one pass of the loop of [devils_checkerboard.main] writes for a
    colouring already generated. *)
Definition cc_report (coloring : list Z) (ndim : Z) : result string :=
  header ← header_line uint32_t ndim;
  '(is_valid, diag) ← devils_checkerboard.ValidateColoring uint32_t coloring ndim;
  line ← fmt_format ("Validated: {}" ++ nl)
            [ArgStr (if is_valid : bool then "yes" else "no")];
  diagram ← PrintColoring uint32_t coloring ndim;
  Ok (header ++ diag ++ line ++ diagram)%string.

(** * Properties *)

(** ** Facts on machine integers *)

Lemma bits_pos T : 0 < bits T.
Proof. destruct T; reflexivity. Qed.

Lemma modulus_pos T : 0 < modulus T.
Proof. destruct T; reflexivity. Qed.

Lemma in_range_testbit_high T z j :
  in_range T z → bits T <= j → Z.testbit z j = false.
Proof.
  intros [Hz0 Hz1] Hj.
  destruct (Z.eq_dec z 0) as [->|Hne]; [apply Z.bits_0|].
  apply Z.bits_above_log2; [lia|].
  apply Z.lt_le_trans with (bits T); [|exact Hj].
  apply Z.log2_lt_pow2; [lia|exact Hz1].
Qed.

Lemma testbit_in_range T z :
  0 <= z → (∀ j, bits T <= j → Z.testbit z j = false) → in_range T z.
Proof.
  intros Hz H. split; [exact Hz|].
  destruct (Z.eq_dec z 0) as [->|Hne]; [apply modulus_pos|].
  pose proof (bits_pos T).
  apply Z.log2_lt_pow2; [lia|].
  destruct (Z.lt_ge_cases (Z.log2 z) (bits T)) as [Hlt|Hge]; [exact Hlt|].
  specialize (H _ Hge). rewrite Z.bit_log2 in H by lia. discriminate.
Qed.

Lemma wrap_small T z : in_range T z → wrap T z = z.
Proof. intros H. apply Z.mod_small. exact H. Qed.

Lemma Get_spec T value idx :
  0 <= idx < bits T →
  Get T value idx = Ok (Z.b2z (Z.testbit value idx)).
Proof.
  intros [H0 H1]. unfold Get, assert, shr.
  apply Z.ltb_lt in H1. rewrite H1. simpl. f_equal.
  rewrite Z.testbit_spec' by exact H0.
  rewrite Z.shiftr_div_pow2 by exact H0.
  change 1 with (Z.ones 1). rewrite Z.land_ones by lia. reflexivity.
Qed.

Lemma pow2_in_range T n : 0 <= n < bits T → in_range T (2 ^ n).
Proof.
  intros [H0 H1]. split.
  - apply Z.lt_le_incl, Z.pow_pos_nonneg; lia.
  - apply Z.pow_lt_mono_r; lia.
Qed.

Lemma set_bit_testbit x idx b j :
  0 <= idx → 0 <= j →
  Z.testbit (set_bit x idx b) j =
  if Z.eqb j idx then Z.odd b else Z.testbit x j.
Proof.
  intros Hi Hj. unfold set_bit.
  rewrite Z.lor_spec, Z.ldiff_spec, !Z.shiftl_spec by exact Hj.
  destruct (Z.eqb_spec j idx) as [->|Hne].
  - rewrite Z.sub_diag. rewrite Z.land_spec. simpl.
    destruct (Z.odd b), (Z.testbit x idx); reflexivity.
  - destruct (Z.lt_ge_cases j idx) as [Hlt|Hge].
    + rewrite !(Z.testbit_neg_r _ (j - idx)) by lia.
      destruct (Z.testbit x j); reflexivity.
    + assert (0 < j - idx) as Hpos by lia.
      assert (Z.testbit 1 (j - idx) = false) as ->.
      { apply Z.bits_above_log2; simpl; lia. }
      assert (Z.testbit (Z.land b 1) (j - idx) = false) as ->.
      { rewrite Z.land_spec.
        assert (Z.testbit 1 (j - idx) = false) as ->
          by (apply Z.bits_above_log2; simpl; lia).
        apply andb_false_r. }
      destruct (Z.testbit x j); reflexivity.
Qed.

Lemma set_bit_nonneg x idx b : 0 <= x → 0 <= set_bit x idx b.
Proof.
  intros Hx. unfold set_bit. apply Z.lor_nonneg. split.
  - apply Z.ldiff_nonneg. left. exact Hx.
  - apply Z.shiftl_nonneg. apply Z.land_nonneg. right. lia.
Qed.

Lemma set_bit_in_range T x idx b :
  in_range T x → 0 <= idx < bits T → in_range T (set_bit x idx b).
Proof.
  intros Hx Hi. apply testbit_in_range.
  - apply set_bit_nonneg, Hx.
  - intros j Hj. rewrite set_bit_testbit by lia.
    destruct (Z.eqb_spec j idx); [lia|].
    eapply in_range_testbit_high; eassumption.
Qed.

Lemma SetBit_spec T x idx b :
  in_range T x → 0 <= idx < bits T →
  SetBit T x idx b = Ok (set_bit x idx b).
Proof.
  intros Hx [H0 H1]. unfold SetBit, Set_, Setter_assign, assert, shl.
  pose proof H1 as H1'. apply Z.ltb_lt in H1'. rewrite H1'. simpl.
  rewrite H1'. simpl. f_equal. unfold set_bit.
  rewrite Z.shiftl_1_l.
  rewrite (wrap_small T (2 ^ idx)) by (apply pow2_in_range; lia).
  assert (in_range T (Z.shiftl (Z.land b 1) idx)) as Hb.
  { apply testbit_in_range.
    - apply Z.shiftl_nonneg, Z.land_nonneg. right. lia.
    - intros j Hj. rewrite Z.shiftl_spec by lia.
      rewrite Z.land_spec.
      assert (Z.testbit 1 (j - idx) = false) as ->
        by (apply Z.bits_above_log2; simpl; lia).
      apply andb_false_r. }
  rewrite (wrap_small T _ Hb). f_equal.
  apply Z.bits_inj'. intros j Hj.
  rewrite Z.land_spec, Z.ldiff_spec.
  destruct (Z.lt_ge_cases j (bits T)) as [Hlt|Hge].
  2: { rewrite (in_range_testbit_high T x j Hx Hge). reflexivity. }
  f_equal. unfold bitnot, modulus.
  replace (2 ^ bits T - 1 - 2 ^ idx) with (Z.ldiff (Z.ones (bits T)) (2 ^ idx)).
  - rewrite Z.ldiff_spec, Z.ones_spec_low by lia. reflexivity.
  - rewrite Z.ones_equiv, <- Z.sub_1_r.
    rewrite <- Z.sub_nocarry_ldiff; [reflexivity|].
    apply Z.bits_inj'. intros k Hk. rewrite Z.ldiff_spec, Z.bits_0.
    rewrite Z.sub_1_r, <- Z.ones_equiv.
    destruct (Z.eq_dec k idx) as [->|Hne].
    + rewrite Z.ones_spec_low by lia. rewrite Z.pow2_bits_true by lia. reflexivity.
    + rewrite Z.pow2_bits_false by lia. reflexivity.
Qed.

(** ** Bit access *)

(** C5. For every value [v] of the integer type, every bit position [i]
    below its width and every bit [b] in {0,1}: setting bit [i] of [v] to
    [b] succeeds; reading bit [i] of the result gives [b]; every other bit
    position of the result reads as it does in [v]. *)
Theorem Get_Set_roundtrip T v i b :
  in_range T v → 0 <= i < bits T → b = 0 ∨ b = 1 →
  ∃ v', SetBit T v i b = Ok v' ∧ in_range T v' ∧
        Get T v' i = Ok b ∧
        (∀ j, 0 <= j < bits T → j ≠ i → Get T v' j = Get T v j) ∧
        (∀ j, j ≠ i → Z.testbit v' j = Z.testbit v j).
Proof.
  intros Hv Hi Hb. exists (set_bit v i b).
  split; [apply SetBit_spec; assumption|].
  split; [apply set_bit_in_range; assumption|].
  split; [|split].
  - rewrite Get_spec by exact Hi. rewrite set_bit_testbit by lia.
    rewrite Z.eqb_refl. destruct Hb as [-> | ->]; reflexivity.
  - intros j Hj Hne. rewrite !Get_spec by exact Hj.
    rewrite set_bit_testbit by lia.
    destruct (Z.eqb_spec j i); [contradiction|reflexivity].
  - intros j Hne. destruct (Z.lt_ge_cases j 0) as [Hneg|Hpos].
    + rewrite !Z.testbit_neg_r by exact Hneg. reflexivity.
    + rewrite set_bit_testbit by lia.
      destruct (Z.eqb_spec j i); [contradiction|reflexivity].
Qed.

Lemma Get_Set_roundtrip_witness :
  ∃ v', SetBit uint32_t 5 1 1 = Ok v' ∧ in_range uint32_t v' ∧
        Get uint32_t v' 1 = Ok 1 ∧
        (∀ j, 0 <= j < bits uint32_t → j ≠ 1 →
              Get uint32_t v' j = Get uint32_t 5 j) ∧
        (∀ j, j ≠ 1 → Z.testbit v' j = Z.testbit 5 j).
Proof.
  apply (Get_Set_roundtrip uint32_t 5 1 1).
  - unfold in_range. vm_compute. split; [discriminate|reflexivity].
  - simpl. lia.
  - right. reflexivity.
Defined.

(** ** Small values and shifts *)

Lemma small_in_range T z : 0 <= z < 2 ^ 32 → in_range T z.
Proof.
  intros Hz. unfold in_range, modulus.
  assert (2 ^ 32 <= 2 ^ bits T) by (destruct T; simpl; lia). lia.
Qed.

Lemma bits_le_64 T : bits T <= 64.
Proof. destruct T; simpl; lia. Qed.

Lemma shl_1_spec T n : 0 <= n < bits T → shl T 1 n = Ok (2 ^ n).
Proof.
  intros Hn. unfold shl.
  destruct (Z.ltb_spec n (bits T)) as [_|Hge]; [|lia].
  rewrite Z.shiftl_1_l, wrap_small by (apply pow2_in_range; exact Hn).
  reflexivity.
Qed.

Lemma uadd_small T a b : 0 <= a + b < 2 ^ 32 → uadd T a b = a + b.
Proof. intros H. apply wrap_small, small_in_range, H. Qed.

Lemma vec_set_spec {A : Type} (v : list A) i x :
  (Z.to_nat i < length v)%nat → vec_set v i x = Ok (<[Z.to_nat i := x]> v).
Proof. intros H. unfold vec_set. rewrite bool_decide_eq_true_2 by exact H. reflexivity. Qed.

Lemma vec_get_spec {A : Type} (v : list A) i x :
  v !! Z.to_nat i = Some x → vec_get v i = Ok x.
Proof. intros H. unfold vec_get. rewrite H. reflexivity. Qed.

Lemma GetNumberOfStates_spec T ndim :
  0 <= ndim < bits T → GetNumberOfStates T ndim = Ok (2 ^ ndim).
Proof. apply shl_1_spec. Qed.

(** ** Mirror colouring *)

Lemma mirror_closed_form_bounds ndim vertex_id :
  1 <= ndim → 0 <= mirror_closed_form ndim vertex_id < ndim.
Proof.
  intros Hn. unfold mirror_closed_form.
  pose proof (Z.mod_pos_bound vertex_id (2 * ndim)) as Hm.
  destruct (Z.ltb_spec (vertex_id mod (2 * ndim)) ndim); lia.
Qed.

Lemma MirrorAssignment_at_spec T ndim state :
  1 <= ndim < bits T → 0 <= state < 2 ^ ndim →
  MirrorAssignment_at T {| ndim_ := ndim |} state =
  Ok (mirror_closed_form ndim state).
Proof.
  intros Hn Hs. pose proof (bits_le_64 T) as H64.
  unfold MirrorAssignment_at. simpl ndim_.
  rewrite shl_1_spec by lia. simpl.
  unfold assert. destruct (Z.ltb_spec state (2 ^ ndim)) as [_|Hge]; [|lia]. simpl.
  unfold umul. rewrite (wrap_small T (ndim * 2)) by (apply small_in_range; lia).
  unfold urem. destruct (Z.eqb_spec (ndim * 2) 0) as [H0|_]; [lia|]. simpl.
  unfold mirror_closed_form. simpl. rewrite (Z.mul_comm ndim 2).
  pose proof (Z.mod_pos_bound state (2 * ndim)) as Hm.
  destruct (Z.ltb_spec (state mod (2 * ndim)) ndim) as [Hlt|Hge]; [reflexivity|].
  f_equal. unfold usub.
  rewrite (wrap_small T (2 * ndim)) by (apply small_in_range; lia).
  rewrite (wrap_small T (2 * ndim - _)) by (apply small_in_range; lia).
  apply wrap_small, small_in_range. lia.
Qed.

(** Outside the cube the assertion of the operator fails. *)
Lemma MirrorAssignment_at_outside T ndim state :
  0 <= ndim < bits T → 2 ^ ndim <= state →
  MirrorAssignment_at T {| ndim_ := ndim |} state = Fail AssertionFailed.
Proof.
  intros Hn Hs. unfold MirrorAssignment_at. simpl ndim_.
  rewrite shl_1_spec by lia. simpl. unfold assert.
  destruct (Z.ltb_spec state (2 ^ ndim)) as [Hlt|_]; [lia|reflexivity].
Qed.

(** C4. For every [ndim >= 1] (below the width of the integer type) and
    every vertex id of the [ndim]-cube, the mirror generator returns the
    closed-form value: with [cycle_len = 2*ndim] and
    [offset = vertex_id mod cycle_len], [offset] when [offset < ndim] and
    [cycle_len - offset - 1] otherwise; the colour lies in [0, ndim). *)
Theorem MirrorAssignment_closed_form T ndim vertex_id :
  1 <= ndim < bits T → 0 <= vertex_id < 2 ^ ndim →
  ∃ color,
    color_at T {| ndim_ := ndim |} vertex_id = Ok color ∧
    color = (let cycle_len := 2 * ndim in
             let offset := vertex_id mod cycle_len in
             if offset <? ndim then offset else cycle_len - offset - 1) ∧
    0 <= color < ndim.
Proof.
  intros Hn Hv. exists (mirror_closed_form ndim vertex_id).
  split; [apply MirrorAssignment_at_spec; assumption|].
  split; [reflexivity|].
  apply mirror_closed_form_bounds. lia.
Qed.

Lemma MirrorAssignment_closed_form_witness :
  ∃ color,
    color_at uint64_t {| ndim_ := 4 |} 13 = Ok color ∧
    color = (let cycle_len := 2 * 4 in
             let offset := 13 mod cycle_len in
             if offset <? 4 then offset else cycle_len - offset - 1) ∧
    0 <= color < 4.
Proof.
  apply (MirrorAssignment_closed_form uint64_t 4 13).
  - simpl. lia.
  - simpl. lia.
Defined.

(** ** Loops *)

Lemma for_each_app {St : Type} (l1 l2 : list Z) (body : Z → St → result St) s :
  for_each (l1 ++ l2) body s = (s' ← for_each l1 body s; for_each l2 body s').
Proof.
  revert s. induction l1 as [|i l1 IH]; intros s; simpl; [reflexivity|].
  destruct (body i s) as [s'|e]; simpl; [apply IH|reflexivity].
Qed.

(** A loop invariant [P k s]: [s] is the state when the loop variable is [k]. *)
Lemma for_range_inv {St : Type} (P : Z → St → Prop) lo hi
  (body : Z → St → result St) s0 :
  lo <= hi → P lo s0 →
  (∀ k s, lo <= k < hi → P k s → ∃ s', body k s = Ok s' ∧ P (k + 1) s') →
  ∃ s', for_range lo hi body s0 = Ok s' ∧ P hi s'.
Proof.
  intros Hle H0 Hstep. unfold for_range.
  assert (∀ n : nat, lo + Z.of_nat n <= hi →
            ∃ s', for_each (seqZ lo (Z.of_nat n)) body s0 = Ok s' ∧
                  P (lo + Z.of_nat n) s') as Hn.
  { induction n as [|n IH]; intros Hb.
    - exists s0. simpl. rewrite Z.add_0_r. split; [reflexivity|exact H0].
    - destruct IH as (s1 & Hrun & HP); [lia|].
      destruct (Hstep _ s1 (conj (ltac:(lia) : lo <= lo + Z.of_nat n)
                                 (ltac:(lia) : lo + Z.of_nat n < hi)) HP)
        as (s2 & Hbody & HP2).
      exists s2. rewrite seqZ_S, for_each_app, Hrun. simpl.
      rewrite Hbody. split; [reflexivity|].
      replace (lo + Z.of_nat (S n)) with (lo + Z.of_nat n + 1) by lia.
      exact HP2. }
  destruct (Hn (Z.to_nat (hi - lo))) as (s' & Hrun & HP); [lia|].
  rewrite Z2Nat.id in Hrun, HP by lia.
  replace (lo + (hi - lo)) with hi in HP by lia.
  exists s'. split; assumption.
Qed.

(** The same with the state given as a function of the loop variable. *)
Lemma for_range_fun {St : Type} (I : Z → St) lo hi (body : Z → St → result St) :
  lo <= hi →
  (∀ k, lo <= k < hi → body k (I k) = Ok (I (k + 1))) →
  for_range lo hi body (I lo) = Ok (I hi).
Proof.
  intros Hle Hstep.
  destruct (for_range_inv (λ k s, s = I k) lo hi body (I lo) Hle eq_refl)
    as (s' & Hrun & ->); [|exact Hrun].
  intros k s Hk ->. exists (I (k + 1)). split; [apply Hstep; exact Hk|reflexivity].
Qed.

(** ** Binary strings *)

Lemma bit_chars_S v n :
  bit_chars v (S n) = bit_chars v n ++ [bit_char (Z.testbit v (Z.of_nat n))].
Proof. unfold bit_chars. rewrite seq_S, fmap_app. reflexivity. Qed.

Lemma length_bit_chars v n : length (bit_chars v n) = n.
Proof. unfold bit_chars. rewrite length_fmap, length_seq. reflexivity. Qed.

Lemma lookup_bit_chars v n (i : nat) :
  (i < n)%nat → bit_chars v n !! i = Some (bit_char (Z.testbit v (Z.of_nat i))).
Proof.
  intros Hi. unfold bit_chars. rewrite list_lookup_fmap, lookup_seq_lt by exact Hi.
  reflexivity.
Qed.

Lemma ToString_spec T v ndim :
  0 <= ndim <= bits T →
  ToString T v ndim =
  Ok (String "b" (string_of_list_ascii (bit_chars v (Z.to_nat ndim)))).
Proof.
  intros Hn. pose proof (bits_le_64 T) as H64.
  unfold ToString, assert.
  destruct (Z.leb_spec ndim (bits T)) as [_|Hgt]; [|lia]. simpl.
  rewrite (uadd_small T ndim 1) by lia.
  rewrite (vec_set_spec (replicate _ _) 0) by (rewrite length_replicate; lia).
  simpl.
  set (I := λ k : Z, "b"%char :: bit_chars v (Z.to_nat k) ++
                      replicate (Z.to_nat (ndim - k)) Ascii.zero).
  assert (<[Z.to_nat 0:="b"%char]> (replicate (Z.to_nat (ndim + 1)) Ascii.zero) = I 0)
    as ->.
  { unfold I. rewrite Z.sub_0_r. replace (Z.to_nat (ndim + 1)) with (S (Z.to_nat ndim)) by lia.
    reflexivity. }
  rewrite (for_range_fun I 0 ndim); [|lia|].
  2: { intros k Hk. rewrite Get_spec by lia. simpl.
       rewrite (uadd_small T k 1) by lia. unfold I.
       rewrite vec_set_spec
         by (simpl; rewrite length_app, length_bit_chars, length_replicate; lia).
       f_equal.
       replace (Z.to_nat (k + 1)) with (S (Z.to_nat k)) by lia.
       replace (Z.to_nat (ndim - k)) with (S (Z.to_nat (ndim - (k + 1)))) by lia.
       rewrite bit_chars_S, <- app_assoc. simpl. f_equal.
       rewrite insert_app_r_alt by (rewrite length_bit_chars; lia).
       rewrite length_bit_chars, Nat.sub_diag. simpl.
       rewrite Z2Nat.id by lia.
       destruct (Z.testbit v k); reflexivity. }
  simpl. unfold I. rewrite Z.sub_diag. simpl. rewrite app_nil_r. reflexivity.
Qed.

Lemma testbit_mod_pow2 v k j :
  0 <= k → Z.testbit (v mod 2 ^ k) j = (j <? k) && Z.testbit v j.
Proof.
  intros Hk. destruct (Z.ltb_spec j k) as [Hlt|Hge]; simpl.
  - apply Z.mod_pow2_bits_low. exact Hlt.
  - apply Z.mod_pow2_bits_high. lia.
Qed.

Lemma set_bit_mod_pow2 v k :
  0 <= k →
  set_bit (v mod 2 ^ k) k (Z.b2z (Z.testbit v k)) = v mod 2 ^ (k + 1).
Proof.
  intros Hk. apply Z.bits_inj'. intros j Hj.
  rewrite set_bit_testbit, !testbit_mod_pow2 by lia.
  destruct (Z.eqb_spec j k) as [->|Hne].
  - destruct (Z.ltb_spec k (k + 1)); [|lia].
    destruct (Z.testbit v k); reflexivity.
  - destruct (Z.ltb_spec j k), (Z.ltb_spec j (k + 1)); try lia; reflexivity.
Qed.

Lemma ParseString_bit_chars T v n :
  (Z.of_nat n <= bits T) →
  ParseString T (string_of_list_ascii (bit_chars v n)) 0 =
  Ok (v mod 2 ^ Z.of_nat n).
Proof.
  intros Hn. unfold ParseString, assert.
  assert (String.length (string_of_list_ascii (bit_chars v n)) = n) as Hlen.
  { pose proof (length_bit_chars v n) as Hl. revert Hl.
    generalize (bit_chars v n). intros l. revert n Hn.
    induction l as [|c l IH]; intros n Hn Hl; simpl in *; [exact Hl|].
    destruct n as [|n]; [discriminate|]. f_equal. apply (IH n); lia. }
  rewrite Hlen. destruct (Z.leb_spec (Z.of_nat n) (bits T)) as [_|Hgt]; [|lia]. simpl.
  rewrite list_ascii_of_string_of_list_ascii.
  pose proof (for_range_fun (λ k, v mod 2 ^ k) 0 (Z.of_nat n)) as Hfun.
  cbv beta in Hfun. rewrite Z.pow_0_r, Z.mod_1_r in Hfun.
  apply Hfun; [lia|]. clear Hfun.
  intros k Hk. unfold vec_get.
  rewrite lookup_bit_chars by lia. simpl.
  rewrite Z2Nat.id by lia.
  assert (Ascii.eqb (bit_char (Z.testbit v k)) "0" ||
          Ascii.eqb (bit_char (Z.testbit v k)) "1" = true) as ->
    by (destruct (Z.testbit v k); reflexivity).
  simpl.
  match goal with |- SetBit _ _ _ ?w = _ =>
    assert (w = Z.b2z (Z.testbit v k)) as ->
  end.
  { destruct (Z.testbit v k); simpl; apply wrap_small, small_in_range; lia. }
  rewrite SetBit_spec.
  - rewrite set_bit_mod_pow2 by lia. reflexivity.
  - pose proof (Z.mod_pos_bound v (2 ^ k)) as Hm.
    assert (0 < 2 ^ k) as Hp by (apply Z.pow_pos_nonneg; lia).
    split; [lia|]. apply Z.lt_le_trans with (2 ^ k); [lia|].
    apply Z.pow_le_mono_r; lia.
  - lia.
Qed.

(** C6. For every [ndim] up to the width of the integer type and every [v]
    in [0, 2^ndim): formatting [v] succeeds, and parsing the formatted
    string without its one-character prefix, into a value initialised to
    zero, gives [v] again. *)
Theorem ParseString_ToString_roundtrip T v ndim :
  0 <= ndim <= bits T → 0 <= v < 2 ^ ndim →
  ∃ s, ToString T v ndim = Ok s ∧ ParseString T (substr s 1) 0 = Ok v.
Proof.
  intros Hn Hv. eexists. split; [apply ToString_spec; exact Hn|].
  unfold substr. simpl. rewrite Nat.sub_0_r.
  assert (∀ s, substring 0 (String.length s) s = s) as Hsub.
  { induction s as [|c s IH]; simpl; [reflexivity|]. rewrite IH. reflexivity. }
  rewrite Hsub, ParseString_bit_chars by lia.
  rewrite Z2Nat.id by lia. f_equal. apply Z.mod_small. exact Hv.
Qed.

Lemma ParseString_ToString_roundtrip_witness :
  ∃ s, ToString uint32_t 11 4 = Ok s ∧ ParseString uint32_t (substr s 1) 0 = Ok 11.
Proof.
  apply (ParseString_ToString_roundtrip uint32_t 11 4).
  - simpl. lia.
  - simpl. lia.
Defined.

(** ** Counting bits

    The portable counts work on all bytes of the value at once.  The value
    is split into its bytes, each step is shown to act on every byte
    separately, and a byte is checked by enumeration. *)

Lemma land_split k x y :
  0 <= k →
  Z.land x y = Z.land (x mod 2 ^ k) (y mod 2 ^ k) + 2 ^ k * Z.land (x / 2 ^ k) (y / 2 ^ k).
Proof.
  intros Hk.
  assert (0 < 2 ^ k) as Hp by (apply Z.pow_pos_nonneg; lia).
  rewrite (Z.div_mod (Z.land x y) (2 ^ k)) at 1 by lia.
  rewrite Z.add_comm. f_equal.
  - rewrite <- !Z.land_ones by exact Hk.
    apply Z.bits_inj'. intros j Hj. rewrite !Z.land_spec.
    destruct (Z.testbit x j), (Z.testbit y j), (Z.testbit (Z.ones k) j); reflexivity.
  - f_equal. rewrite <- !Z.shiftr_div_pow2 by exact Hk. apply Z.shiftr_land.
Qed.

Lemma land_shiftr_cons s a r m0 m' :
  s = 0 ∨ s = 1 ∨ s = 2 →
  0 <= a < 256 → 0 <= r → 0 <= m0 < 2 ^ (8 - s) → 0 <= m' →
  Z.land (Z.shiftr (a + 256 * r) s) (m0 + 256 * m') =
  Z.land (Z.shiftr a s) m0 + 256 * Z.land (Z.shiftr r s) m'.
Proof.
  intros Hs Ha Hr Hm0 Hm'.
  rewrite !Z.shiftr_div_pow2 by lia.
  rewrite (land_split 8) by lia.
  assert ((m0 + 256 * m') mod 2 ^ 8 = m0) as ->.
  { assert (2 ^ (8 - s) <= 256) by (destruct Hs as [->|[->| ->]]; simpl; lia).
    change (2 ^ 8) with 256. Z.div_mod_to_equations. lia. }
  assert ((m0 + 256 * m') / 2 ^ 8 = m') as ->.
  { assert (2 ^ (8 - s) <= 256) by (destruct Hs as [->|[->| ->]]; simpl; lia).
    change (2 ^ 8) with 256. Z.div_mod_to_equations. lia. }
  assert ((a + 256 * r) / 2 ^ s / 2 ^ 8 = r / 2 ^ s) as ->.
  { destruct Hs as [->|[->| ->]]; simpl; Z.div_mod_to_equations; lia. }
  f_equal.
  rewrite (land_split (8 - s)) by lia.
  rewrite (Z.mod_small m0), (Z.div_small m0), Z.land_0_r by lia.
  rewrite Z.mul_0_r, Z.add_0_r. f_equal.
  destruct Hs as [->|[->| ->]]; simpl; Z.div_mod_to_equations; lia.
Qed.

Lemma join_nonneg l : Forall is_byte l → 0 <= join l.
Proof. induction 1 as [|b l Hb _ IH]; simpl; unfold is_byte in *; lia. Qed.

Lemma join_bound l : Forall is_byte l → join l < 256 ^ Z.of_nat (length l).
Proof.
  induction 1 as [|b l Hb _ IH]; simpl length; [simpl; lia|].
  rewrite Nat2Z.inj_succ, Z.pow_succ_r by lia. simpl join.
  unfold is_byte in Hb. lia.
Qed.

Lemma length_bytes n v : length (bytes n v) = n.
Proof. revert v. induction n as [|n IH]; intros v; simpl; [|rewrite IH]; reflexivity. Qed.

Lemma bytes_is_byte n v : Forall is_byte (bytes n v).
Proof.
  revert v. induction n as [|n IH]; intros v; simpl; constructor; [|apply IH].
  apply Z.mod_pos_bound. lia.
Qed.

Lemma join_bytes n v : 0 <= v < 256 ^ Z.of_nat n → join (bytes n v) = v.
Proof.
  revert v. induction n as [|n IH]; intros v Hv.
  - simpl in *. lia.
  - rewrite Nat2Z.inj_succ, Z.pow_succ_r in Hv by lia. simpl.
    rewrite IH; [|Z.div_mod_to_equations; nia].
    Z.div_mod_to_equations. lia.
Qed.

Lemma join_replicate_nonneg n c : 0 <= c → 0 <= join (replicate n c).
Proof. intros Hc. induction n as [|n IH]; simpl; lia. Qed.

Lemma land_shiftr_join s c l :
  s = 0 ∨ s = 1 ∨ s = 2 → 0 <= c < 2 ^ (8 - s) → Forall is_byte l →
  Z.land (Z.shiftr (join l) s) (join (replicate (length l) c)) =
  join ((λ b, Z.land (Z.shiftr b s) c) <$> l).
Proof.
  intros Hs Hc. induction 1 as [|b l Hb Hl IH]; simpl.
  - rewrite Z.shiftr_0_l. reflexivity.
  - rewrite land_shiftr_cons, IH; try assumption; try lia.
    + reflexivity.
    + apply join_nonneg, Hl.
    + apply join_replicate_nonneg. lia.
Qed.

Lemma join_add (f g : Z → Z) l :
  join (f <$> l) + join (g <$> l) = join ((λ b, f b + g b) <$> l).
Proof. induction l as [|b l IH]; csimpl; [reflexivity|]. unfold join in *. simpl. lia. Qed.

Lemma join_sub (f g : Z → Z) l :
  join (f <$> l) - join (g <$> l) = join ((λ b, f b - g b) <$> l).
Proof. induction l as [|b l IH]; csimpl; [reflexivity|]. unfold join in *. simpl. lia. Qed.

Lemma join_id l : join l = join (id <$> l).
Proof. rewrite list_fmap_id. reflexivity. Qed.

Lemma join_ext (f g : Z → Z) l :
  Forall (λ b, f b = g b) l → join (f <$> l) = join (g <$> l).
Proof. induction 1 as [|b l Hb _ IH]; csimpl; [reflexivity|]. unfold join in *. simpl. rewrite Hb, IH. reflexivity. Qed.

Lemma half_sub_join l :
  Forall is_byte l →
  half_sub (join (replicate (length l) 0x55)) (join l) = join (half_sub 0x55 <$> l).
Proof.
  intros Hl. unfold half_sub.
  rewrite (land_shiftr_join 1) by (auto; simpl; lia).
  rewrite (join_id l) at 1. rewrite join_sub. reflexivity.
Qed.

Lemma pair_add_join s c l :
  s = 1 ∨ s = 2 → 0 <= c < 2 ^ (8 - s) → Forall is_byte l →
  pair_add s (join (replicate (length l) c)) (join l) = join (pair_add s c <$> l).
Proof.
  intros Hs Hc Hl. unfold pair_add.
  rewrite <- (Z.shiftr_0_r (join l)) at 1.
  assert (2 ^ (8 - s) <= 2 ^ (8 - 0)) by (apply Z.pow_le_mono_r; lia).
  rewrite (land_shiftr_join 0), (land_shiftr_join s) by (auto; lia).
  rewrite join_add. apply join_ext, Forall_forall. intros b _.
  rewrite Z.shiftr_0_r. reflexivity.
Qed.

Lemma nib_ok_is_byte b : nib_ok b → is_byte b.
Proof. unfold nib_ok, is_byte. intros H. Z.div_mod_to_equations. lia. Qed.

Lemma join_mod16 l : Forall nib_ok l → 0 <= join l ∧ join l mod 16 <= 4.
Proof.
  induction 1 as [|b l Hb _ IH]; simpl; [split; [lia|discriminate]|].
  unfold nib_ok in Hb. Z.div_mod_to_equations. lia.
Qed.

Lemma nibble_add_cons a r m' :
  nib_ok a → 0 <= r → r mod 16 <= 4 → 0 <= m' →
  nibble_add (0x0F + 256 * m') (a + 256 * r) =
  nibble_add 0x0F a + 256 * nibble_add m' r.
Proof.
  intros Ha Hr Hr16 Hm. unfold nibble_add, nib_ok in *.
  rewrite !Z.shiftr_div_pow2 by lia. change (2 ^ 4) with 16.
  rewrite (land_split 8) by lia. change (2 ^ 8) with 256.
  assert ((15 + 256 * m') mod 256 = 15) as -> by (Z.div_mod_to_equations; lia).
  assert ((15 + 256 * m') / 256 = m') as -> by (Z.div_mod_to_equations; lia).
  assert ((a + 256 * r + (a + 256 * r) / 16) / 256 = r + r / 16) as ->
    by (Z.div_mod_to_equations; lia).
  f_equal. change 15 with (Z.ones 4). rewrite !Z.land_ones by lia.
  change (2 ^ 4) with 16. Z.div_mod_to_equations. lia.
Qed.

Lemma nibble_add_join l :
  Forall nib_ok l →
  nibble_add (join (replicate (length l) 0x0F)) (join l) =
  join (nibble_add 0x0F <$> l).
Proof.
  induction 1 as [|b l Hb Hl IH]; [reflexivity|].
  destruct (join_mod16 l Hl) as [H0 H16].
  csimpl. unfold join in *. simpl.
  rewrite nibble_add_cons, IH; try assumption; [reflexivity|].
  apply join_replicate_nonneg. lia.
Qed.

Lemma byte_cases (P : Z → Prop) `{∀ b, Decision (P b)} :
  bool_decide (Forall P (seqZ 0 256)) = true → ∀ b, is_byte b → P b.
Proof.
  intros Hall b Hb. apply bool_decide_eq_true_1 in Hall.
  rewrite Forall_seqZ in Hall. apply Hall. exact Hb.
Qed.

Lemma popcnt_app m n v :
  popcnt (m + n) v = popcnt m v + popcnt n (Z.shiftr v (Z.of_nat m)).
Proof.
  unfold popcnt. rewrite seq_app, fmap_app, foldr_app. simpl.
  assert (∀ (l : list Z) a, foldr Z.add a l = foldr Z.add 0 l + a) as Hsum.
  { induction l as [|x l IH]; intros a; simpl; [lia|]. rewrite IH. lia. }
  rewrite Hsum. f_equal.
  rewrite <- (Nat.add_0_r m) at 1. rewrite <- fmap_add_seq, <- list_fmap_compose.
  f_equal. apply list_fmap_ext. intros _ i _. simpl.
  rewrite Z.shiftr_spec by lia. rewrite Nat2Z.inj_add, Z.add_comm. reflexivity.
Qed.

Lemma popcnt_mod n v :
  popcnt n (v mod 2 ^ Z.of_nat n) = popcnt n v.
Proof.
  unfold popcnt. f_equal. apply list_fmap_ext. intros k i Hi.
  apply lookup_seq in Hi as [-> Hi]. simpl.
  rewrite Z.mod_pow2_bits_low by lia. reflexivity.
Qed.

Lemma popcnt_cons n a r :
  is_byte a → popcnt (8 + n) (a + 256 * r) = popcnt 8 a + popcnt n r.
Proof.
  intros Ha. unfold is_byte in Ha. rewrite popcnt_app. f_equal.
  - rewrite <- (popcnt_mod 8 (a + 256 * r)). f_equal.
    change (2 ^ Z.of_nat 8) with 256. Z.div_mod_to_equations. lia.
  - f_equal. rewrite Z.shiftr_div_pow2 by lia.
    change (2 ^ Z.of_nat 8) with 256. Z.div_mod_to_equations. lia.
Qed.

Lemma popcnt_join l :
  Forall is_byte l → popcnt (8 * length l) (join l) = sumZ (popcnt 8 <$> l).
Proof.
  induction 1 as [|b l Hb _ IH]; [reflexivity|].
  replace (8 * length (b :: l))%nat with (8 + 8 * length l)%nat by (simpl; lia).
  change (join (b :: l)) with (b + 256 * join l).
  change (sumZ (popcnt 8 <$> b :: l)) with (popcnt 8 b + sumZ (popcnt 8 <$> l)).
  rewrite popcnt_cons by exact Hb. rewrite IH. reflexivity.
Qed.

(** What the three steps do to one byte. *)
Lemma byte_steps32 b :
  is_byte b →
  is_byte (half_sub 0x55 b) ∧
  nib_ok (pair_add 2 0x33 (half_sub 0x55 b)) ∧
  nibble_add 0x0F (pair_add 2 0x33 (half_sub 0x55 b)) = popcnt 8 b ∧
  0 <= popcnt 8 b <= 8.
Proof.
  revert b. eapply byte_cases.
  vm_compute. reflexivity.
Qed.

Lemma byte_steps64 b :
  is_byte b →
  is_byte (pair_add 1 0x55 b) ∧
  nib_ok (pair_add 2 0x33 (pair_add 1 0x55 b)) ∧
  nibble_add 0x0F (pair_add 2 0x33 (pair_add 1 0x55 b)) = popcnt 8 b ∧
  0 <= popcnt 8 b <= 8.
Proof.
  revert b. eapply byte_cases.
  vm_compute. reflexivity.
Qed.

Lemma mul_gather32 c0 c1 c2 c3 :
  0 <= c0 <= 8 → 0 <= c1 <= 8 → 0 <= c2 <= 8 → 0 <= c3 <= 8 →
  (((c0 + 256 * (c1 + 256 * (c2 + 256 * (c3 + 256 * 0)))) * 16843009)
   mod 4294967296) / 16777216 = c0 + (c1 + (c2 + (c3 + 0))).
Proof.
  intros.
  replace ((c0 + 256 * (c1 + 256 * (c2 + 256 * (c3 + 256 * 0)))) * 16843009)
    with ((c0 + 256 * (c0 + c1) + 65536 * (c0 + c1 + c2) + (c0 + c1 + c2 + c3) * 16777216)
          + (c1 + c2 + c3 + 256 * (c2 + c3) + 65536 * c3) * 4294967296) by ring.
  rewrite Z.mod_add by lia. rewrite Z.mod_small by lia.
  rewrite Z.div_add by lia. rewrite Z.div_small by lia. lia.
Qed.

Lemma PopCount32_portable_join l :
  length l = 4%nat → Forall is_byte l →
  PopCount32_portable (join l) = sumZ (popcnt 8 <$> l).
Proof.
  intros Hlen Hl. unfold PopCount32_portable.
  set (l1 := half_sub 0x55 <$> l).
  set (l2 := pair_add 2 0x33 <$> l1).
  assert (Forall is_byte l1) as Hl1.
  { apply Forall_fmap. eapply list.Forall_impl; [exact Hl|]. intros b Hb. apply byte_steps32, Hb. }
  assert (Forall nib_ok l2) as Hl2.
  { unfold l2, l1. rewrite <- list_fmap_compose.
    apply Forall_fmap. eapply list.Forall_impl; [exact Hl|]. intros b Hb. apply byte_steps32, Hb. }
  assert (usub uint32_t (join l) (Z.land (Z.shiftr (join l) 1) 0x55555555) = join l1) as ->.
  { unfold usub.
    replace 0x55555555 with (join (replicate (length l) 0x55))
      by (rewrite Hlen; reflexivity).
    change (join l - _) with (half_sub (join (replicate (length l) 0x55)) (join l)).
    rewrite half_sub_join by exact Hl. apply wrap_small.
    split; [apply join_nonneg, Hl1|].
    pose proof (join_bound l1 Hl1) as Hb. unfold l1 in Hb at 2.
    rewrite length_fmap, Hlen in Hb. exact Hb. }
  assert (uadd uint32_t (Z.land (join l1) 0x33333333)
            (Z.land (Z.shiftr (join l1) 2) 0x33333333) = join l2) as ->.
  { unfold uadd.
    assert (length l1 = 4%nat) as Hlen1 by (unfold l1; rewrite length_fmap; exact Hlen).
    replace 0x33333333 with (join (replicate (length l1) 0x33))
      by (rewrite Hlen1; reflexivity).
    change (Z.land (join l1) _ + _)
      with (pair_add 2 (join (replicate (length l1) 0x33)) (join l1)).
    rewrite pair_add_join by (auto; simpl; lia). apply wrap_small.
    assert (Forall is_byte l2) as Hl2' by (eapply list.Forall_impl; [exact Hl2|apply nib_ok_is_byte]).
    split; [apply join_nonneg, Hl2'|].
    pose proof (join_bound l2 Hl2') as Hb. unfold l2 in Hb at 2.
    rewrite length_fmap, Hlen1 in Hb. exact Hb. }
  assert (length l2 = 4%nat) as Hlen2 by (unfold l2, l1; rewrite !length_fmap; exact Hlen).
  assert (Z.land (uadd uint32_t (join l2) (Z.shiftr (join l2) 4)) 0x0F0F0F0F =
          join (popcnt 8 <$> l)) as ->.
  { assert (uadd uint32_t (join l2) (Z.shiftr (join l2) 4) =
            join l2 + Z.shiftr (join l2) 4) as ->.
    { apply wrap_small. rewrite Z.shiftr_div_pow2 by lia.
      destruct l2 as [|x0 [|x1 [|x2 [|x3 [|]]]]]; try discriminate Hlen2.
      apply list.Forall_cons in Hl2 as [H0 Hl2]. apply list.Forall_cons in Hl2 as [H1 Hl2].
      apply list.Forall_cons in Hl2 as [H2 Hl2]. apply list.Forall_cons in Hl2 as [H3 _].
      unfold nib_ok in H0, H1, H2, H3.
      unfold in_range, modulus, join. simpl.
      change (2 ^ 4) with 16. change (2 ^ 32) with 4294967296.
      Z.div_mod_to_equations. lia. }
    replace 0x0F0F0F0F with (join (replicate (length l2) 0x0F))
      by (rewrite Hlen2; reflexivity).
    change (Z.land _ _) with (nibble_add (join (replicate (length l2) 0x0F)) (join l2)).
    rewrite nibble_add_join by exact Hl2.
    unfold l2, l1. rewrite <- !list_fmap_compose.
    apply join_ext. eapply list.Forall_impl; [exact Hl|].
    intros b Hb. apply byte_steps32, Hb. }
  destruct l as [|b0 [|b1 [|b2 [|b3 [|]]]]]; try discriminate Hlen.
  apply list.Forall_cons in Hl as [H0 Hl]. apply list.Forall_cons in Hl as [H1 Hl].
  apply list.Forall_cons in Hl as [H2 Hl]. apply list.Forall_cons in Hl as [H3 _].
  apply byte_steps32 in H0 as (_ & _ & _ & H0).
  apply byte_steps32 in H1 as (_ & _ & _ & H1).
  apply byte_steps32 in H2 as (_ & _ & _ & H2).
  apply byte_steps32 in H3 as (_ & _ & _ & H3).
  csimpl. generalize dependent (popcnt 8 b0). generalize dependent (popcnt 8 b1).
  generalize dependent (popcnt 8 b2). generalize dependent (popcnt 8 b3).
  intros c3 H3 c2 H2 c1 H1 c0 H0.
  unfold join, sumZ, umul, wrap, modulus. simpl.
  rewrite Z.shiftr_div_pow2 by lia.
  change (2 ^ 24) with 16777216. change (2 ^ 32) with 4294967296.
  apply mul_gather32; assumption.
Qed.

Lemma shiftr_join_drop k l :
  Forall is_byte l → Z.shiftr (join l) (8 * Z.of_nat k) = join (drop k l).
Proof.
  revert l. induction k as [|k IH]; intros l Hl.
  - rewrite Z.shiftr_0_r, drop_0. reflexivity.
  - destruct Hl as [|b l Hb Hl]; [simpl; apply Z.shiftr_0_l|].
    simpl drop. rewrite <- IH by exact Hl.
    replace (8 * Z.of_nat (S k)) with (8 + 8 * Z.of_nat k) by lia.
    rewrite <- Z.shiftr_shiftr by lia. f_equal.
    rewrite Z.shiftr_div_pow2 by lia. unfold is_byte in Hb.
    change (join (b :: l)) with (b + 256 * join l). change (2 ^ 8) with 256.
    Z.div_mod_to_equations. lia.
Qed.

Lemma add_gather64 c0 c1 c2 c3 c4 c5 c6 c7 :
  0 <= c0 <= 8 → 0 <= c1 <= 8 → 0 <= c2 <= 8 → 0 <= c3 <= 8 →
  0 <= c4 <= 8 → 0 <= c5 <= 8 → 0 <= c6 <= 8 → 0 <= c7 <= 8 →
  let value := join [c0; c1; c2; c3; c4; c5; c6; c7] in
  let value := uadd uint64_t value (Z.shiftr value 8) in
  let value := uadd uint64_t value (Z.shiftr value 16) in
  Z.land (uadd uint64_t value (Z.shiftr value 32)) 0x0000007F =
  c0 + c1 + c2 + c3 + c4 + c5 + c6 + c7.
Proof.
  intros H0 H1 H2 H3 H4 H5 H6 H7. cbv zeta.
  assert (∀ l, length l = 8%nat → Forall is_byte l → in_range uint64_t (join l)) as Hrange.
  { intros l Hlen Hl. split; [apply join_nonneg, Hl|].
    pose proof (join_bound l Hl) as Hb. rewrite Hlen in Hb. exact Hb. }
  assert (∀ l k l', length l = 8%nat → Forall is_byte l →
            join l + join (drop k l) = join l' → length l' = 8%nat → Forall is_byte l' →
            uadd uint64_t (join l) (Z.shiftr (join l) (8 * Z.of_nat k)) = join l') as Hstep.
  { intros l k l' Hlen Hl Hsum Hlen' Hl'. unfold uadd.
    rewrite shiftr_join_drop, Hsum by exact Hl. apply wrap_small, Hrange; assumption. }
  rewrite (Hstep _ 1%nat [c0 + c1; c1 + c2; c2 + c3; c3 + c4; c4 + c5; c5 + c6; c6 + c7; c7]);
    [|reflexivity|repeat constructor; lia|unfold join; simpl; ring|reflexivity
     |repeat constructor; lia].
  rewrite (Hstep _ 2%nat [c0 + c1 + c2 + c3; c1 + c2 + c3 + c4; c2 + c3 + c4 + c5;
                          c3 + c4 + c5 + c6; c4 + c5 + c6 + c7; c5 + c6 + c7; c6 + c7; c7]);
    [|reflexivity|repeat constructor; lia|unfold join; simpl; ring|reflexivity
     |repeat constructor; lia].
  rewrite (Hstep _ 4%nat [c0 + c1 + c2 + c3 + c4 + c5 + c6 + c7;
                          c1 + c2 + c3 + c4 + c5 + c6 + c7; c2 + c3 + c4 + c5 + c6 + c7;
                          c3 + c4 + c5 + c6 + c7; c4 + c5 + c6 + c7; c5 + c6 + c7; c6 + c7; c7]);
    [|reflexivity|repeat constructor; lia|unfold join; simpl; ring|reflexivity
     |repeat constructor; lia].
  change 127 with (Z.ones 7). rewrite Z.land_ones by lia. change (2 ^ 7) with 128.
  change (join (?x :: ?l)) with (x + 256 * join l).
  generalize (join [c1 + c2 + c3 + c4 + c5 + c6 + c7; c2 + c3 + c4 + c5 + c6 + c7;
                    c3 + c4 + c5 + c6 + c7; c4 + c5 + c6 + c7; c5 + c6 + c7; c6 + c7; c7]).
  intros r. Z.div_mod_to_equations. lia.
Qed.

Lemma PopCount64_portable_join l :
  length l = 8%nat → Forall is_byte l →
  PopCount64_portable (join l) = sumZ (popcnt 8 <$> l).
Proof.
  intros Hlen Hl. unfold PopCount64_portable.
  set (l1 := pair_add 1 0x55 <$> l).
  set (l2 := pair_add 2 0x33 <$> l1).
  assert (∀ l, length l = 8%nat → Forall is_byte l → in_range uint64_t (join l)) as Hrange.
  { intros l' Hlen' Hl'. split; [apply join_nonneg, Hl'|].
    pose proof (join_bound l' Hl') as Hb. rewrite Hlen' in Hb. exact Hb. }
  assert (length l1 = 8%nat) as Hlen1 by (unfold l1; rewrite length_fmap; exact Hlen).
  assert (length l2 = 8%nat) as Hlen2 by (unfold l2; rewrite length_fmap; exact Hlen1).
  assert (Forall is_byte l1) as Hl1.
  { apply Forall_fmap. eapply list.Forall_impl; [exact Hl|]. intros b Hb. apply byte_steps64, Hb. }
  assert (Forall nib_ok l2) as Hl2.
  { unfold l2, l1. rewrite <- list_fmap_compose.
    apply Forall_fmap. eapply list.Forall_impl; [exact Hl|]. intros b Hb. apply byte_steps64, Hb. }
  assert (uadd uint64_t (Z.land (join l) 0x5555555555555555)
            (Z.land (Z.shiftr (join l) 1) 0x5555555555555555) = join l1) as ->.
  { unfold uadd.
    replace 0x5555555555555555 with (join (replicate (length l) 0x55))
      by (rewrite Hlen; reflexivity).
    change (Z.land (join l) _ + _)
      with (pair_add 1 (join (replicate (length l) 0x55)) (join l)).
    rewrite pair_add_join by (auto; simpl; lia).
    apply wrap_small, Hrange; assumption. }
  assert (uadd uint64_t (Z.land (join l1) 0x3333333333333333)
            (Z.land (Z.shiftr (join l1) 2) 0x3333333333333333) = join l2) as ->.
  { unfold uadd.
    replace 0x3333333333333333 with (join (replicate (length l1) 0x33))
      by (rewrite Hlen1; reflexivity).
    change (Z.land (join l1) _ + _)
      with (pair_add 2 (join (replicate (length l1) 0x33)) (join l1)).
    rewrite pair_add_join by (auto; simpl; lia).
    apply wrap_small, Hrange; [exact Hlen2|].
    eapply list.Forall_impl; [exact Hl2|apply nib_ok_is_byte]. }
  assert (Z.land (uadd uint64_t (join l2) (Z.shiftr (join l2) 4)) 0x0F0F0F0F0F0F0F0F =
          join (popcnt 8 <$> l)) as ->.
  { assert (uadd uint64_t (join l2) (Z.shiftr (join l2) 4) =
            join l2 + Z.shiftr (join l2) 4) as ->.
    { apply wrap_small. rewrite Z.shiftr_div_pow2 by lia.
      assert (in_range uint64_t (join l2)) as Hr2.
      { apply Hrange; [exact Hlen2|].
        eapply list.Forall_impl; [exact Hl2|apply nib_ok_is_byte]. }
      assert (join l2 <= 0x4444444444444444) as Hle.
      { clear -Hl2 Hlen2.
        destruct l2 as [|x0 [|x1 [|x2 [|x3 [|x4 [|x5 [|x6 [|x7 [|]]]]]]]]];
          try discriminate Hlen2.
        repeat (apply list.Forall_cons in Hl2 as [? Hl2]).
        unfold nib_ok in *. unfold join. simpl.
        Z.div_mod_to_equations. lia. }
      unfold in_range, modulus in *. simpl bits in *. change (2 ^ 4) with 16.
      change (2 ^ 64) with 18446744073709551616 in *.
      Z.div_mod_to_equations. lia. }
    replace 0x0F0F0F0F0F0F0F0F with (join (replicate (length l2) 0x0F))
      by (rewrite Hlen2; reflexivity).
    change (Z.land _ _) with (nibble_add (join (replicate (length l2) 0x0F)) (join l2)).
    rewrite nibble_add_join by exact Hl2.
    unfold l2, l1. rewrite <- !list_fmap_compose.
    apply join_ext. eapply list.Forall_impl; [exact Hl|].
    intros b Hb. apply byte_steps64, Hb. }
  clear l1 l2 Hlen1 Hlen2 Hl1 Hl2.
  destruct l as [|b0 [|b1 [|b2 [|b3 [|b4 [|b5 [|b6 [|b7 [|]]]]]]]]];
    try discriminate Hlen.
  repeat (apply list.Forall_cons in Hl as [?Hb Hl]).
  repeat match goal with H : is_byte _ |- _ =>
    apply byte_steps64 in H as (_ & _ & _ & H) end.
  transitivity (popcnt 8 b0 + popcnt 8 b1 + popcnt 8 b2 + popcnt 8 b3 +
                popcnt 8 b4 + popcnt 8 b5 + popcnt 8 b6 + popcnt 8 b7).
  - apply add_gather64; assumption.
  - unfold sumZ. csimpl. ring.
Qed.

Lemma value_join n v :
  0 <= v < 256 ^ Z.of_nat n →
  ∃ l, length l = n ∧ Forall is_byte l ∧ join l = v.
Proof.
  intros Hv. exists (bytes n v).
  split; [apply length_bytes|]. split; [apply bytes_is_byte|apply join_bytes, Hv].
Qed.

(** The count the instruction gives, for each build and type. *)
Lemma PopCount_popcnt sse4_1 T value :
  in_range T value → PopCount sse4_1 T value = popcnt (Z.to_nat (bits T)) value.
Proof.
  intros Hv. destruct sse4_1, T; try reflexivity; simpl PopCount.
  - destruct (value_join 4 value Hv) as (l & Hlen & Hl & <-).
    rewrite PopCount32_portable_join by assumption.
    rewrite <- popcnt_join by exact Hl. rewrite Hlen. reflexivity.
  - destruct (value_join 8 value Hv) as (l & Hlen & Hl & <-).
    rewrite PopCount64_portable_join by assumption.
    rewrite <- popcnt_join by exact Hl. rewrite Hlen. reflexivity.
Qed.

(** C7. For every 32-bit and every 64-bit value the portable count (the
    masked-add algorithm) equals the count of the hardware instruction, the
    number of bits set; in particular at 0 and at the all-ones value. *)
Theorem PopCount_portable_agrees_with_hardware :
  (∀ value, 0 <= value < 2 ^ 32 →
     PopCount false uint32_t value = PopCount true uint32_t value) ∧
  (∀ value, 0 <= value < 2 ^ 64 →
     PopCount false uint64_t value = PopCount true uint64_t value) ∧
  PopCount false uint32_t 0 = 0 ∧ PopCount true uint32_t 0 = 0 ∧
  PopCount false uint64_t 0 = 0 ∧ PopCount true uint64_t 0 = 0 ∧
  PopCount false uint32_t (2 ^ 32 - 1) = 32 ∧
  PopCount true uint32_t (2 ^ 32 - 1) = 32 ∧
  PopCount false uint64_t (2 ^ 64 - 1) = 64 ∧
  PopCount true uint64_t (2 ^ 64 - 1) = 64.
Proof.
  split; [|split].
  - intros value Hv. rewrite !PopCount_popcnt by exact Hv. reflexivity.
  - intros value Hv. rewrite !PopCount_popcnt by exact Hv. reflexivity.
  - repeat split; vm_compute; reflexivity.
Qed.

Lemma PopCount_portable_agrees_with_hardware_witness :
  PopCount false uint32_t 0xDEADBEEF = PopCount true uint32_t 0xDEADBEEF ∧
  PopCount false uint64_t 0x0123456789ABCDEF = PopCount true uint64_t 0x0123456789ABCDEF.
Proof.
  split.
  - apply (proj1 PopCount_portable_agrees_with_hardware). lia.
  - apply (proj1 (proj2 PopCount_portable_agrees_with_hardware)). lia.
Defined.

(** ** Validator *)

Lemma lt_pow2_testbit n z :
  0 <= n → 0 <= z → (z < 2 ^ n ↔ ∀ j, n <= j → Z.testbit z j = false).
Proof.
  intros Hn Hz. split.
  - intros Hlt j Hj. destruct (Z.eq_dec z 0) as [->|Hne]; [apply Z.bits_0|].
    apply Z.bits_above_log2; [lia|].
    apply Z.lt_le_trans with n; [|exact Hj]. apply Z.log2_lt_pow2; lia.
  - intros Hbits. destruct (Z.eq_dec z 0) as [->|Hne]; [apply Z.pow_pos_nonneg; lia|].
    apply Z.log2_lt_pow2; [lia|].
    destruct (Z.lt_ge_cases (Z.log2 z) n) as [Hlt|Hge]; [exact Hlt|].
    specialize (Hbits _ Hge). rewrite Z.bit_log2 in Hbits by lia. discriminate.
Qed.

Lemma pow2_le_modulus T n : 0 <= n <= bits T → 2 ^ n <= modulus T.
Proof. intros Hn. apply Z.pow_le_mono_r; lia. Qed.

(** Setting a bit to 1 is a disjunction with that bit. *)
Lemma set_bit_1 x idx : 0 <= idx → set_bit x idx 1 = Z.lor x (2 ^ idx).
Proof.
  intros Hi. apply Z.bits_inj'. intros j Hj.
  rewrite set_bit_testbit, Z.lor_spec by lia.
  destruct (Z.eqb_spec j idx) as [->|Hne].
  - rewrite Z.pow2_bits_true by lia. rewrite orb_true_r. reflexivity.
  - rewrite Z.pow2_bits_false by lia. rewrite orb_false_r. reflexivity.
Qed.

(** Giving a bit the value it does not have is an exclusive or. *)
Lemma set_bit_flip x idx :
  0 <= idx →
  set_bit x idx (if Z.testbit x idx then 0 else 1) = Z.lxor x (2 ^ idx).
Proof.
  intros Hi. apply Z.bits_inj'. intros j Hj.
  rewrite set_bit_testbit, Z.lxor_spec by lia.
  destruct (Z.eqb_spec j idx) as [->|Hne].
  - rewrite Z.pow2_bits_true by lia. destruct (Z.testbit x idx); reflexivity.
  - rewrite Z.pow2_bits_false by lia. rewrite xorb_false_r. reflexivity.
Qed.

Lemma lxor_pow2_range n v i :
  0 <= i < n → 0 <= v < 2 ^ n → 0 <= Z.lxor v (2 ^ i) < 2 ^ n.
Proof.
  intros Hi Hv.
  assert (0 <= Z.lxor v (2 ^ i)) as Hnn.
  { apply Z.lxor_nonneg. split; intros _; [apply Z.pow_nonneg|]; lia. }
  split; [exact Hnn|]. apply lt_pow2_testbit; [lia|exact Hnn|].
  intros j Hj. rewrite Z.lxor_spec, Z.pow2_bits_false by lia.
  rewrite xorb_false_r. apply (lt_pow2_testbit n v); lia.
Qed.

Lemma seen_upto_succ color v k :
  0 <= k →
  seen_upto color v (k + 1) =
  Z.lor (seen_upto color v k) (Z.shiftl 1 (color (neighbour v k))).
Proof.
  intros Hk. unfold seen_upto.
  rewrite seqZ_app by lia. rewrite foldl_app. simpl. rewrite Z.add_0_l. reflexivity.
Qed.

Lemma seen_upto_range color ndim v k :
  0 <= ndim → 0 <= k →
  0 <= color v < ndim →
  (∀ i, 0 <= i < k → 0 <= color (neighbour v i) < ndim) →
  0 <= seen_upto color v k < 2 ^ ndim.
Proof.
  intros Hn Hk Hv. pattern k. apply natlike_ind; [| |exact Hk].
  - intros _. unfold seen_upto. simpl. rewrite Z.shiftl_1_l.
    split; [apply Z.pow_nonneg; lia|apply Z.pow_lt_mono_r; lia].
  - intros j Hj IH Hc. rewrite <- Z.add_1_r, seen_upto_succ by exact Hj.
    destruct IH as [IH0 IH1]; [intros i Hi; apply Hc; lia|].
    specialize (Hc j ltac:(lia)). rewrite Z.shiftl_1_l.
    assert (0 <= 2 ^ color (neighbour v j)) as Hp by (apply Z.pow_nonneg; lia).
    assert (0 <= Z.lor (seen_upto color v j) (2 ^ color (neighbour v j))) as Hnn
      by (apply Z.lor_nonneg; split; assumption).
    split; [exact Hnn|]. apply lt_pow2_testbit; [lia|exact Hnn|].
    intros b Hb. rewrite Z.lor_spec, Z.pow2_bits_false by lia.
    rewrite orb_false_r. apply (lt_pow2_testbit ndim); lia.
Qed.

Lemma in_range_of_cube T ndim v : 0 <= ndim <= bits T → 0 <= v < 2 ^ ndim → in_range T v.
Proof.
  intros Hn Hv. pose proof (pow2_le_modulus T ndim Hn). unfold in_range. lia.
Qed.

Lemma elem_of_closed_neighbourhood ndim v x :
  x ∈ closed_neighbourhood ndim v ↔ x = v ∨ ∃ i, 0 <= i < ndim ∧ x = neighbour v i.
Proof.
  unfold closed_neighbourhood. rewrite elem_of_cons, list_elem_of_fmap.
  split; intros [Hx|(i & Hi1 & Hi2)]; [left; exact Hx| |left; exact Hx|].
  - right. exists i. apply elem_of_seqZ in Hi2. split; [lia|exact Hi1].
  - right. exists i. split; [exact Hi2|]. apply elem_of_seqZ. lia.
Qed.

Section ValidateFacts.
Context {C : Type} `{ColorAssignment C}.
Variable sse4_1 : bool.
Variable T : NumberType.
Variable ndim : Z.
Hypothesis ndim_range : 1 <= ndim < bits T.

Lemma colors_seen_at_spec (coloring : C) color v :
  0 <= v < 2 ^ ndim → describes T ndim coloring color v →
  colors_seen_at T coloring ndim v = Ok (seen_mask color ndim v).
Proof.
  intros Hv Hdesc. unfold colors_seen_at.
  assert (in_range T v) as Hvr by (eapply in_range_of_cube; [|exact Hv]; lia).
  destruct (Hdesc v) as [-> Hcv]; [apply elem_of_closed_neighbourhood; left; reflexivity|].
  simpl. rewrite SetBit_spec; [|apply small_in_range; lia|lia]. simpl.
  rewrite set_bit_1, Z.lor_0_l, <- Z.shiftl_1_l by lia.
  assert (∀ i, 0 <= i < ndim →
            color_at T coloring (neighbour v i) = Ok (color (neighbour v i)) ∧
            0 <= color (neighbour v i) < ndim) as Hnb.
  { intros i Hi. apply Hdesc, elem_of_closed_neighbourhood. right. exists i.
    split; [exact Hi|reflexivity]. }
  change (Z.shiftl 1 (color v)) with (seen_upto color v 0).
  unfold seen_mask. apply (for_range_fun (seen_upto color v)); [lia|].
  intros k Hk. rewrite Get_spec by lia. simpl.
  assert ((if negb (Z.b2z (Z.testbit v k) =? 0)
           then SetBit T v k 0 else SetBit T v k 1) = Ok (neighbour v k)) as ->.
  { unfold neighbour. rewrite Z.shiftl_1_l, <- set_bit_flip by lia.
    destruct (Z.testbit v k); simpl; apply SetBit_spec; (exact Hvr || lia). }
  simpl. destruct (Hnb k Hk) as [-> Hck]. simpl.
  rewrite SetBit_spec; [|eapply in_range_of_cube|lia].
  - rewrite set_bit_1, seen_upto_succ, Z.shiftl_1_l by lia. reflexivity.
  - instantiate (1 := ndim). lia.
  - apply seen_upto_range; try lia. intros i Hi. apply Hnb. lia.
Qed.

Lemma seen_mask_in_range (coloring : C) color v :
  describes T ndim coloring color v → in_range T (seen_mask color ndim v).
Proof.
  intros Hdesc. apply (in_range_of_cube T ndim); [lia|].
  apply seen_upto_range; try lia.
  - apply Hdesc, elem_of_closed_neighbourhood. left. reflexivity.
  - intros i Hi. apply Hdesc, elem_of_closed_neighbourhood. right. exists i.
    split; [lia|reflexivity].
Qed.

Lemma PopCount_seen_mask (coloring : C) color v :
  describes T ndim coloring color v →
  (PopCount sse4_1 T (seen_mask color ndim v) =? ndim) =
  bool_decide (complete T ndim color v).
Proof.
  intros Hdesc. rewrite PopCount_popcnt by (eapply seen_mask_in_range, Hdesc).
  unfold complete, cardinality.
  destruct (Z.eqb_spec (popcnt (Z.to_nat (bits T)) (seen_mask color ndim v)) ndim).
  - rewrite bool_decide_eq_true_2 by assumption. reflexivity.
  - rewrite bool_decide_eq_false_2 by assumption. reflexivity.
Qed.

(** The text printed for a failing state can always be formatted. *)
Lemma diagnostic_ok current_state colors_seen n_colors :
  ∃ d, diagnostic sse4_1 T ndim current_state colors_seen n_colors = Ok d.
Proof.
  unfold diagnostic. generalize (PopCount sse4_1 T colors_seen). intros p.
  eexists. vm_compute. reflexivity.
Qed.
End ValidateFacts.

Lemma bind_Ok {A B : Type} (f : A → result B) (x : A) : (Ok x ≫= f) = f x.
Proof. reflexivity. Qed.

Lemma first_failure {A : Type} (P : A → Prop) `{∀ x, Decision (P x)} (l : list A) :
  Forall P l ∨ ∃ pre x post, l = pre ++ x :: post ∧ Forall P pre ∧ ¬ P x.
Proof.
  induction l as [|a l IH]; [left; constructor|].
  destruct (decide (P a)) as [Ha|Ha].
  - destruct IH as [IH|(pre & x & post & -> & Hpre & Hx)].
    + left. constructor; assumption.
    + right. exists (a :: pre), x, post. split; [reflexivity|].
      split; [constructor; assumption|exact Hx].
  - right. exists [], a, l. split; [reflexivity|]. split; [constructor|exact Ha].
Qed.

Section ValidateLoop.
Context {C : Type} `{ColorAssignment C}.
Variable sse4_1 : bool.
Variable T : NumberType.
Variable ndim : Z.
Hypothesis ndim_range : 1 <= ndim < bits T.
Variable coloring : C.
Variable color : Z → Z.

Let known (v : Z) : Prop := 0 <= v < 2 ^ ndim ∧ describes T ndim coloring color v.

Lemma Validate_states_cons v states :
  known v →
  Validate_states sse4_1 T coloring ndim ndim (v :: states) =
  if bool_decide (complete T ndim color v)
  then Validate_states sse4_1 T coloring ndim ndim states
  else d ← diagnostic sse4_1 T ndim v (seen_mask color ndim v) ndim; Ok (false, d).
Proof.
  intros [Hv Hd].
  change (Validate_states sse4_1 T coloring ndim ndim (v :: states))
    with (colors_seen ← colors_seen_at T coloring ndim v;
          if negb (PopCount sse4_1 T colors_seen =? ndim) then
            d ← diagnostic sse4_1 T ndim v colors_seen ndim; Ok (false, d)
          else Validate_states sse4_1 T coloring ndim ndim states).
  rewrite (colors_seen_at_spec T ndim ndim_range coloring color v Hv Hd), bind_Ok.
  rewrite (PopCount_seen_mask sse4_1 T ndim ndim_range coloring color v Hd).
  destruct (bool_decide (complete T ndim color v)); reflexivity.
Qed.

Lemma Validate_states_all states :
  Forall known states → Forall (complete T ndim color) states →
  Validate_states sse4_1 T coloring ndim ndim states = Ok (true, EmptyString).
Proof.
  induction states as [|v states IH]; intros Hk Hc; [reflexivity|].
  apply list.Forall_cons in Hk as [Hv Hk].
  apply list.Forall_cons in Hc as [Hcv Hc].
  rewrite Validate_states_cons, bool_decide_eq_true_2 by assumption.
  apply IH; assumption.
Qed.

Lemma Validate_states_first pre v0 post d :
  Forall known (pre ++ [v0]) → Forall (complete T ndim color) pre →
  ¬ complete T ndim color v0 →
  diagnostic sse4_1 T ndim v0 (seen_mask color ndim v0) ndim = Ok d →
  Validate_states sse4_1 T coloring ndim ndim (pre ++ v0 :: post) = Ok (false, d).
Proof.
  intros Hk Hc Hv0 Hd. induction pre as [|v pre IH].
  - apply list.Forall_cons in Hk as [Hv _].
    rewrite app_nil_l, Validate_states_cons, bool_decide_eq_false_2, Hd by assumption.
    reflexivity.
  - rewrite <- app_comm_cons in Hk |- *.
    apply list.Forall_cons in Hk as [Hv Hk].
    apply list.Forall_cons in Hc as [Hcv Hc].
    rewrite Validate_states_cons, bool_decide_eq_true_2 by assumption.
    apply IH; assumption.
Qed.
End ValidateLoop.

Lemma neighbour_range ndim v i :
  0 <= i < ndim → 0 <= v < 2 ^ ndim → 0 <= neighbour v i < 2 ^ ndim.
Proof.
  intros Hi Hv. unfold neighbour. rewrite Z.shiftl_1_l. apply lxor_pow2_range; assumption.
Qed.

Lemma closed_neighbourhood_range ndim v x :
  0 <= v < 2 ^ ndim → x ∈ closed_neighbourhood ndim v → 0 <= x < 2 ^ ndim.
Proof.
  intros Hv Hx. apply elem_of_closed_neighbourhood in Hx as [->|(i & Hi & ->)];
    [exact Hv|apply neighbour_range; assumption].
Qed.

Lemma seqZ_split n v : 0 <= v < n → seqZ 0 n = seqZ 0 v ++ v :: seqZ (v + 1) (n - v - 1).
Proof.
  intros Hv. replace n with (v + (n - v)) at 1 by lia.
  rewrite seqZ_app by lia. f_equal. rewrite Z.add_0_l, seqZ_cons by lia.
  rewrite <- Z.add_1_r, <- Z.sub_1_r. reflexivity.
Qed.

Section ValidateWhole.
Context {C : Type} `{ColorAssignment C}.
Variable sse4_1 : bool.
Variable T : NumberType.
Variable ndim : Z.
Hypothesis ndim_range : 1 <= ndim < bits T.
Variable coloring : C.
Variable color : Z → Z.

Lemma ValidateColoring_unfold :
  ValidateColoring sse4_1 T coloring ndim =
  Validate_states sse4_1 T coloring ndim ndim (seqZ 0 (2 ^ ndim)).
Proof.
  unfold ValidateColoring. rewrite GetNumberOfStates_spec by lia. reflexivity.
Qed.

(** The validator stops at the first state that fails; only the closed
    neighbourhoods of the states up to it matter. *)
Lemma ValidateColoring_fails_at v0 d :
  0 <= v0 < 2 ^ ndim →
  (∀ u, 0 <= u <= v0 → describes T ndim coloring color u) →
  (∀ u, 0 <= u < v0 → complete T ndim color u) →
  ¬ complete T ndim color v0 →
  diagnostic sse4_1 T ndim v0 (seen_mask color ndim v0) ndim = Ok d →
  ValidateColoring sse4_1 T coloring ndim = Ok (false, d).
Proof.
  intros Hv0 Hdesc Hbefore Hfail Hd.
  rewrite ValidateColoring_unfold, (seqZ_split (2 ^ ndim) v0) by exact Hv0.
  apply (Validate_states_first sse4_1 T ndim ndim_range coloring color); try assumption.
  - apply Forall_app. split.
    + apply Forall_seqZ. intros u Hu. split; [lia|apply Hdesc; lia].
    + constructor; [|constructor]. split; [exact Hv0|apply Hdesc; lia].
  - apply Forall_seqZ. intros u Hu. apply Hbefore. lia.
Qed.

Lemma ValidateColoring_passes :
  (∀ u, 0 <= u < 2 ^ ndim → describes T ndim coloring color u) →
  (∀ u, 0 <= u < 2 ^ ndim → complete T ndim color u) →
  ValidateColoring sse4_1 T coloring ndim = Ok (true, EmptyString).
Proof.
  intros Hdesc Hall. rewrite ValidateColoring_unfold.
  apply (Validate_states_all sse4_1 T ndim ndim_range coloring color).
  - apply Forall_seqZ. intros u Hu. split; [lia|apply Hdesc; lia].
  - apply Forall_seqZ. intros u Hu. apply Hall. lia.
Qed.

(** Some state fails, or none does. *)
Lemma first_incomplete :
  (∀ u, 0 <= u < 2 ^ ndim → complete T ndim color u) ∨
  ∃ v0, 0 <= v0 < 2 ^ ndim ∧ ¬ complete T ndim color v0 ∧
        ∀ u, 0 <= u < v0 → complete T ndim color u.
Proof.
  destruct (first_failure (complete T ndim color) (seqZ 0 (2 ^ ndim)))
    as [Hall|(pre & x & post & Heq & Hpre & Hx)].
  - left. intros u Hu. rewrite Forall_seqZ in Hall. apply Hall. lia.
  - right. exists x.
    assert (0 < 2 ^ ndim) as Hpos by (apply Z.pow_pos_nonneg; lia).
    assert (length pre = Z.to_nat x ∧ 0 <= x < 2 ^ ndim) as [Hlen Hx'].
    { assert (seqZ 0 (2 ^ ndim) !! length pre = Some x) as Hl
        by (rewrite Heq, list_lookup_middle; reflexivity).
      apply lookup_seqZ in Hl. lia. }
    split; [exact Hx'|]. split; [exact Hx|].
    intros u Hu. rewrite Forall_lookup in Hpre.
    assert (pre !! Z.to_nat u = Some u) as Hl.
    { assert (seqZ 0 (2 ^ ndim) !! Z.to_nat u = Some u) as Hs
        by (apply lookup_seqZ; lia).
      rewrite Heq, lookup_app_l in Hs by lia. exact Hs. }
    apply (Hpre _ _ Hl).
Qed.
End ValidateWhole.

(** The number of states is not defined when [ndim] reaches the width of
    the integer type, and neither is the result of the validator. *)
Lemma ValidateColoring_undefined {C : Type} `{ColorAssignment C}
  sse4_1 T (coloring : C) ndim :
  bits T <= ndim → ValidateColoring sse4_1 T coloring ndim = Fail UndefinedBehaviour.
Proof.
  intros Hn. unfold ValidateColoring, GetNumberOfStates, shl.
  destruct (Z.ltb_spec ndim (bits T)) as [Hlt|_]; [lia|reflexivity].
Qed.

(** C3. For every [ndim >= 1] (below the width of the integer type) and
    every colouring with values in [0, ndim): the validator returns, and it
    returns true exactly when at every vertex [v] of the cube the mask with
    bit [color(v)] and the bits [color(v XOR (1<<i))], [i < ndim], set has
    exactly [ndim] bits set.  At the first vertex [v0], in ascending order,
    where this fails it returns false with the diagnostic of [v0], and so
    does it on every colouring that agrees with this one on the closed
    neighbourhoods of the vertices up to [v0], whatever that colouring is
    elsewhere: later vertices are not examined.  The colouring is an
    argument that is read only; the validator returns no new colouring. *)
Theorem ValidateColoring_correct {C : Type} `{ColorAssignment C}
  (sse4_1 : bool) (T : NumberType) (coloring : C) (color : Z → Z) (ndim : Z) :
  1 <= ndim < bits T →
  (∀ v, 0 <= v < 2 ^ ndim →
        color_at T coloring v = Ok (color v) ∧ 0 <= color v < ndim) →
  (∃ b out, ValidateColoring sse4_1 T coloring ndim = Ok (b, out) ∧
            (b = true ↔ ∀ v, 0 <= v < 2 ^ ndim → complete T ndim color v)) ∧
  (∀ v0, 0 <= v0 < 2 ^ ndim → ¬ complete T ndim color v0 →
         (∀ u, 0 <= u < v0 → complete T ndim color u) →
     ∃ d, diagnostic sse4_1 T ndim v0 (seen_mask color ndim v0) ndim = Ok d ∧
          ValidateColoring sse4_1 T coloring ndim = Ok (false, d) ∧
          ∀ (C' : Type) (H' : ColorAssignment C') (coloring' : C'),
            (∀ u x, 0 <= u <= v0 → x ∈ closed_neighbourhood ndim u →
                    color_at T coloring' x = color_at T coloring x) →
            ValidateColoring sse4_1 T coloring' ndim = Ok (false, d)).
Proof.
  intros Hn Hcol.
  assert (∀ v, 0 <= v < 2 ^ ndim → describes T ndim coloring color v) as Hdesc.
  { intros v Hv x Hx. apply Hcol. eapply closed_neighbourhood_range; eassumption. }
  assert (∀ v0, 0 <= v0 < 2 ^ ndim → ¬ complete T ndim color v0 →
             (∀ u, 0 <= u < v0 → complete T ndim color u) →
     ∃ d, diagnostic sse4_1 T ndim v0 (seen_mask color ndim v0) ndim = Ok d ∧
          ValidateColoring sse4_1 T coloring ndim = Ok (false, d) ∧
          ∀ (C' : Type) (H' : ColorAssignment C') (coloring' : C'),
            (∀ u x, 0 <= u <= v0 → x ∈ closed_neighbourhood ndim u →
                    color_at T coloring' x = color_at T coloring x) →
            ValidateColoring sse4_1 T coloring' ndim = Ok (false, d)) as Hfirst.
  { intros v0 Hv0 Hfail Hbefore.
    destruct (diagnostic_ok sse4_1 T ndim v0 (seen_mask color ndim v0) ndim) as [d Hd].
    exists d. split; [exact Hd|]. split.
    - apply (ValidateColoring_fails_at sse4_1 T ndim Hn coloring color v0 d);
        try assumption.
      intros u Hu. apply Hdesc. lia.
    - intros C' H' coloring' Hagree.
      apply (ValidateColoring_fails_at sse4_1 T ndim Hn coloring' color v0 d);
        try assumption.
      intros u Hu x Hx. rewrite (Hagree u x Hu Hx). apply Hdesc with u; [lia|exact Hx]. }
  split; [|exact Hfirst].
  destruct (first_incomplete T ndim Hn color) as [Hall|(v0 & Hv0 & Hfail & Hbefore)].
  - exists true, EmptyString. split.
    + apply (ValidateColoring_passes sse4_1 T ndim Hn coloring color); assumption.
    + split; [intros _; exact Hall|reflexivity].
  - destruct (Hfirst v0 Hv0 Hfail Hbefore) as (d & _ & Hrun & _).
    exists false, d. split; [exact Hrun|].
    split; [discriminate|]. intros Hall. exfalso. apply Hfail, Hall, Hv0.
Qed.

Lemma ValidateColoring_correct_witness :
  (∃ b out, ValidateColoring true uint32_t [0; 0; 1; 1] 2 = Ok (b, out) ∧
            (b = true ↔ ∀ v, 0 <= v < 2 ^ 2 →
                             complete uint32_t 2 (color_of [0; 0; 1; 1]) v)) ∧
  (∀ v0, 0 <= v0 < 2 ^ 2 → ¬ complete uint32_t 2 (color_of [0; 0; 1; 1]) v0 →
         (∀ u, 0 <= u < v0 → complete uint32_t 2 (color_of [0; 0; 1; 1]) u) →
     ∃ d, diagnostic true uint32_t 2 v0 (seen_mask (color_of [0; 0; 1; 1]) 2 v0) 2 = Ok d ∧
          ValidateColoring true uint32_t [0; 0; 1; 1] 2 = Ok (false, d) ∧
          ∀ (C' : Type) (H' : ColorAssignment C') (coloring' : C'),
            (∀ u x, 0 <= u <= v0 → x ∈ closed_neighbourhood 2 u →
                    color_at uint32_t coloring' x = color_at uint32_t [0; 0; 1; 1] x) →
            ValidateColoring true uint32_t coloring' 2 = Ok (false, d)).
Proof.
  apply (ValidateColoring_correct true uint32_t [0; 0; 1; 1] (color_of [0; 0; 1; 1]) 2).
  - simpl. lia.
  - intros v Hv.
    assert (v = 0 ∨ v = 1 ∨ v = 2 ∨ v = 3) as [->|[->|[->| ->]]] by (simpl in Hv; lia);
      vm_compute; repeat split; discriminate.
Defined.

(** ** Colouring in topological order: fuel *)

Lemma generate_loop_more_fuel sse4_1 T fuel k ndim num_colors g g' :
  generate_loop sse4_1 T fuel ndim num_colors g = Ok g' →
  generate_loop sse4_1 T (fuel + k) ndim num_colors g = Ok g'.
Proof.
  revert g. induction fuel as [|fuel IH]; intros g Hrun.
  - simpl in Hrun. destruct k; simpl; destruct (queue g); congruence.
  - simpl in *. destruct (queue g) as [|current_state queue']; [exact Hrun|].
    destruct (visit sse4_1 T ndim num_colors current_state _) as [g1|e];
      simpl in *; [apply IH; exact Hrun|discriminate].
Qed.

Lemma generate_more_fuel sse4_1 T fuel fuel' ndim g :
  (fuel <= fuel')%nat →
  generate sse4_1 T fuel ndim = Ok g → generate sse4_1 T fuel' ndim = Ok g.
Proof.
  intros Hle. replace fuel' with (fuel + (fuel' - fuel))%nat by lia.
  unfold generate.
  destruct (GetNumberOfStates T ndim) as [n_states|e]; simpl; [|discriminate].
  destruct (generate_init sse4_1 T n_states) as [g0|e]; simpl; [|discriminate].
  apply generate_loop_more_fuel.
Qed.

Lemma GenerateColoring_more_fuel sse4_1 T fuel fuel' ndim coloring :
  (fuel <= fuel')%nat →
  GenerateColoring sse4_1 T fuel ndim = Ok coloring →
  GenerateColoring sse4_1 T fuel' ndim = Ok coloring.
Proof.
  intros Hle. unfold GenerateColoring.
  destruct (generate sse4_1 T fuel ndim) as [g|e] eqn:Hg; simpl; [|discriminate].
  intros [= <-]. rewrite (generate_more_fuel _ _ _ _ _ _ Hle Hg). reflexivity.
Qed.

(** The array generated does not depend on the fuel, when there is enough
    of it. *)
Lemma GenerateColoring_fuel_irrelevant sse4_1 T fuel fuel' ndim coloring coloring' :
  GenerateColoring sse4_1 T fuel ndim = Ok coloring →
  GenerateColoring sse4_1 T fuel' ndim = Ok coloring' →
  coloring = coloring'.
Proof.
  intros Hc Hc'. destruct (Nat.le_ge_cases fuel fuel') as [Hle|Hle].
  - rewrite (GenerateColoring_more_fuel _ _ _ _ _ _ Hle Hc) in Hc'. congruence.
  - rewrite (GenerateColoring_more_fuel _ _ _ _ _ _ Hle Hc') in Hc. congruence.
Qed.

(** ** The generated colourings of the small cubes *)

(** C2, refuted: for [ndim = 2] vertex 1 carries the colour of
    vertex 0. *)
Lemma GenerateColoring_2_neighbours_not_distinct :
  ¬ ∃ fuel coloring,
      GenerateColoring true uint32_t fuel 2 = Ok coloring ∧
      color_of coloring 0 = 0 ∧
      color_of coloring 1 ≠ color_of coloring 0 ∧
      color_of coloring 2 ≠ color_of coloring 0 ∧
      color_of coloring 1 ≠ color_of coloring 2.
Proof.
  intros (fuel & coloring & Hgen & _ & H1 & _).
  assert (coloring = [0; 0; 1; 1]) as ->.
  { apply (GenerateColoring_fuel_irrelevant true uint32_t fuel 4 2); [exact Hgen|].
    vm_compute. reflexivity. }
  apply H1. reflexivity.
Qed.

(** C2, as it holds. For [ndim = 2] the generated array is exactly
    [0; 0; 1; 1]: vertex 0 receives colour 0, the first assigned; vertex 2,
    taken before vertex 1, receives 1; vertex 1 receives 0 and vertex 3
    receives 1.  The neighbours 1 and 2 of vertex 0 carry colours distinct
    from each other, and vertex 1 carries the colour of vertex 0. *)
Theorem GenerateColoring_2 (sse4_1 : bool) (T : NumberType) (fuel : nat) :
  (4 <= fuel)%nat →
  ∃ coloring,
    GenerateColoring sse4_1 T fuel 2 = Ok coloring ∧
    coloring = [0; 0; 1; 1] ∧
    color_of coloring 0 = 0 ∧
    color_of coloring 1 = color_of coloring 0 ∧
    color_of coloring 2 ≠ color_of coloring 0 ∧
    color_of coloring 1 ≠ color_of coloring 2.
Proof.
  intros Hfuel. exists [0; 0; 1; 1]. split.
  - apply (GenerateColoring_more_fuel sse4_1 T 4); [exact Hfuel|].
    destruct sse4_1, T; vm_compute; reflexivity.
  - repeat split; vm_compute; discriminate.
Qed.

Lemma GenerateColoring_2_witness :
  ∃ coloring,
    GenerateColoring false uint32_t 4 2 = Ok coloring ∧
    coloring = [0; 0; 1; 1] ∧
    color_of coloring 0 = 0 ∧
    color_of coloring 1 = color_of coloring 0 ∧
    color_of coloring 2 ≠ color_of coloring 0 ∧
    color_of coloring 1 ≠ color_of coloring 2.
Proof. apply (GenerateColoring_2 false uint32_t 4). lia. Defined.

(** C1, refuted: for [ndim = 3] the validator does not return true
    on the generated array. *)
Lemma GenerateColoring_3_not_valid :
  ¬ ∃ fuel coloring out,
      GenerateColoring true uint32_t fuel 3 = Ok coloring ∧
      ValidateColoring true uint32_t coloring 3 = Ok (true, out).
Proof.
  intros (fuel & coloring & out & Hgen & Hval).
  assert (coloring = [0; 0; 2; 0; 1; 2; 1; 1]) as ->.
  { apply (GenerateColoring_fuel_irrelevant true uint32_t fuel 8 3); [exact Hgen|].
    vm_compute. reflexivity. }
  vm_compute in Hval. discriminate.
Qed.

(** C1, as it holds. For [ndim = 2] the validator returns true on the generated
    array: every vertex's closed neighbourhood shows exactly 2 colours.  For
    [ndim] in {3,4,5} it returns false on the generated array: at some
    vertex the closed neighbourhood shows a number of colours other than
    [ndim]. *)
Theorem GenerateColoring_validity (sse4_1 : bool) (T : NumberType) (fuel : nat) :
  (32 <= fuel)%nat →
  (∃ coloring,
     GenerateColoring sse4_1 T fuel 2 = Ok coloring ∧
     ValidateColoring sse4_1 T coloring 2 = Ok (true, EmptyString) ∧
     ∀ v, 0 <= v < 2 ^ 2 → complete T 2 (color_of coloring) v) ∧
  (∀ ndim, ndim = 3 ∨ ndim = 4 ∨ ndim = 5 →
     ∃ coloring out v,
       GenerateColoring sse4_1 T fuel ndim = Ok coloring ∧
       ValidateColoring sse4_1 T coloring ndim = Ok (false, out) ∧
       0 <= v < 2 ^ ndim ∧ ¬ complete T ndim (color_of coloring) v).
Proof.
  intros Hfuel. split.
  - eexists. split; [|split].
    + apply (GenerateColoring_more_fuel sse4_1 T 32); [exact Hfuel|].
      destruct sse4_1, T; vm_compute; reflexivity.
    + destruct sse4_1, T; vm_compute; reflexivity.
    + intros v Hv.
      assert (v = 0 ∨ v = 1 ∨ v = 2 ∨ v = 3) as [->|[->|[->| ->]]] by (simpl in Hv; lia);
        destruct T; vm_compute; reflexivity.
  - intros ndim [->|[->| ->]].
    + eexists _, _, 1. split; [|split; [|split]].
      * apply (GenerateColoring_more_fuel sse4_1 T 32); [exact Hfuel|].
        destruct sse4_1, T; vm_compute; reflexivity.
      * destruct sse4_1, T; vm_compute; reflexivity.
      * simpl. lia.
      * destruct T; vm_compute; discriminate.
    + eexists _, _, 2. split; [|split; [|split]].
      * apply (GenerateColoring_more_fuel sse4_1 T 32); [exact Hfuel|].
        destruct sse4_1, T; vm_compute; reflexivity.
      * destruct sse4_1, T; vm_compute; reflexivity.
      * simpl. lia.
      * destruct T; vm_compute; discriminate.
    + eexists _, _, 1. split; [|split; [|split]].
      * apply (GenerateColoring_more_fuel sse4_1 T 32); [exact Hfuel|].
        destruct sse4_1, T; vm_compute; reflexivity.
      * destruct sse4_1, T; vm_compute; reflexivity.
      * simpl. lia.
      * destruct T; vm_compute; discriminate.
Qed.

Lemma GenerateColoring_validity_witness :
  (∃ coloring,
     GenerateColoring true uint32_t 32 2 = Ok coloring ∧
     ValidateColoring true uint32_t coloring 2 = Ok (true, EmptyString) ∧
     ∀ v, 0 <= v < 2 ^ 2 → complete uint32_t 2 (color_of coloring) v) ∧
  (∀ ndim, ndim = 3 ∨ ndim = 4 ∨ ndim = 5 →
     ∃ coloring out v,
       GenerateColoring true uint32_t 32 ndim = Ok coloring ∧
       ValidateColoring true uint32_t coloring ndim = Ok (false, out) ∧
       0 <= v < 2 ^ ndim ∧ ¬ complete uint32_t ndim (color_of coloring) v).
Proof. apply (GenerateColoring_validity true uint32_t 32). lia. Defined.

(** ** Reporter *)

Lemma no_braces_app s1 s2 : no_braces (s1 ++ s2) = no_braces s1 && no_braces s2.
Proof. apply forallb_app. Qed.

Lemma no_braces_dec z : no_braces (dec z) = true.
Proof.
  unfold dec.
  assert (∀ d, no_braces (list_ascii_of_string (NilEmpty.string_of_uint d)) = true) as Hd
    by (induction d; simpl; auto).
  destruct (N.to_uint (Z.to_N z)); simpl; auto; apply (Hd (_ u)) || apply Hd.
Qed.

Lemma no_braces_interleave parts fills :
  forallb no_braces parts = true → forallb no_braces fills = true →
  no_braces (interleave parts fills) = true.
Proof.
  revert fills. induction parts as [|p parts IH]; intros fills Hp Hf; [reflexivity|].
  simpl in Hp. apply andb_true_iff in Hp as [Hp Hparts].
  destruct fills as [|f fills]; [exact Hp|].
  simpl in Hf |- *. apply andb_true_iff in Hf as [Hf Hfills].
  rewrite !no_braces_app, Hp, Hf. simpl. apply IH; assumption.
Qed.

Lemma forallb_no_braces_dec (values : list Z) :
  forallb no_braces (dec <$> values) = true.
Proof.
  induction values as [|z values IH]; [reflexivity|].
  csimpl. rewrite no_braces_dec. exact IH.
Qed.

(** Both templates are their literal text with the fields [{0:d}],
    [{1:d}], ... in between, four of them and eight of them. *)
Lemma templates_fields :
  list_ascii_of_string kFormat2 =
    interleave (text_parts kFormat2) (placeholder <$> [0; 1; 2; 3]) ∧
  list_ascii_of_string kFormat3 =
    interleave (text_parts kFormat3) (placeholder <$> [0; 1; 2; 3; 4; 5; 6; 7]).
Proof. split; vm_compute; reflexivity. Qed.

Lemma PrintColoring_2 {C : Type} `{ColorAssignment C} T (coloring : C) (color : Z → Z) :
  (∀ v, 0 <= v < 2 ^ 2 → color_at T coloring v = Ok (color v)) →
  PrintColoring T coloring 2 =
  Ok (string_of_list_ascii
        (interleave (text_parts kFormat2) (dec ∘ color <$> [0; 1; 2; 3]))).
Proof.
  intros Hc. unfold PrintColoring. simpl.
  rewrite !Hc by (simpl; lia). simpl.
  generalize (color 0), (color 1), (color 2), (color 3). intros c0 c1 c2 c3.
  vm_compute. reflexivity.
Qed.

Lemma PrintColoring_3 {C : Type} `{ColorAssignment C} T (coloring : C) (color : Z → Z) :
  (∀ v, 0 <= v < 2 ^ 3 → color_at T coloring v = Ok (color v)) →
  PrintColoring T coloring 3 =
  Ok (string_of_list_ascii
        (interleave (text_parts kFormat3) (dec ∘ color <$> [0; 1; 2; 3; 4; 5; 6; 7]))).
Proof.
  intros Hc. unfold PrintColoring. simpl.
  rewrite !Hc by (simpl; lia). simpl.
  generalize (color 0), (color 1), (color 2), (color 3),
             (color 4), (color 5), (color 6), (color 7).
  intros c0 c1 c2 c3 c4 c5 c6 c7.
  vm_compute. reflexivity.
Qed.

(** C8, refuted: for [ndim = 4] nothing is written, no placeholder
    text. *)
Lemma PrintColoring_4_writes_nothing :
  ¬ ∃ out, PrintColoring uint32_t (replicate 16 0) 4 = Ok out ∧ out ≠ EmptyString.
Proof. intros (out & Hout & Hne). injection Hout as <-. apply Hne. reflexivity. Qed.

(** C8, as it holds. For [ndim = 2] and [ndim = 3] the reporter writes the
    template with its 4, respectively 8, fields replaced by the decimal
    colours of the states 0..3, respectively 0..7, in order; no brace is
    left in the text.  For [ndim = 4] it writes nothing.  For every other
    [ndim] it writes [No visualization for dimension <ndim>].  Outside
    {2,3} the colouring is not read, so that the reporter fails on none. *)
Theorem PrintColoring_output {C : Type} `{ColorAssignment C}
  (T : NumberType) (coloring : C) (color : Z → Z) (ndim : Z) :
  (ndim = 2 ∨ ndim = 3 →
   ∀ v, 0 <= v < 2 ^ ndim → color_at T coloring v = Ok (color v)) →
  ∃ out, PrintColoring T coloring ndim = Ok out ∧
    (ndim = 2 →
       list_ascii_of_string out =
         interleave (text_parts kFormat2) (dec ∘ color <$> [0; 1; 2; 3]) ∧
       length (text_parts kFormat2) = 5%nat ∧
       no_braces (list_ascii_of_string out) = true) ∧
    (ndim = 3 →
       list_ascii_of_string out =
         interleave (text_parts kFormat3)
                    (dec ∘ color <$> [0; 1; 2; 3; 4; 5; 6; 7]) ∧
       length (text_parts kFormat3) = 9%nat ∧
       no_braces (list_ascii_of_string out) = true) ∧
    (ndim = 4 → out = EmptyString) ∧
    (ndim ≠ 2 → ndim ≠ 3 → ndim ≠ 4 →
       out = ("No visualization for dimension " ++
              string_of_list_ascii (dec ndim) ++ nl)%string).
Proof.
  intros Hc.
  destruct (Z.eq_dec ndim 2) as [->|H2]; [|destruct (Z.eq_dec ndim 3) as [->|H3];
    [|destruct (Z.eq_dec ndim 4) as [->|H4]]].
  - eexists. split; [apply (PrintColoring_2 T coloring color (Hc (or_introl eq_refl)))|].
    rewrite list_ascii_of_string_of_list_ascii.
    split; [|split; [discriminate|split; [discriminate|intros Hne; contradiction]]].
    intros _. split; [reflexivity|]. split; [reflexivity|].
    apply no_braces_interleave; [reflexivity|].
    rewrite list_fmap_compose. apply forallb_no_braces_dec.
  - eexists. split; [apply (PrintColoring_3 T coloring color (Hc (or_intror eq_refl)))|].
    rewrite list_ascii_of_string_of_list_ascii.
    split; [discriminate|split; [|split; [discriminate|intros _ Hne; contradiction]]].
    intros _. split; [reflexivity|]. split; [reflexivity|].
    apply no_braces_interleave; [reflexivity|].
    rewrite list_fmap_compose. apply forallb_no_braces_dec.
  - exists EmptyString. split; [reflexivity|].
    split; [discriminate|split; [discriminate|split; [reflexivity|]]].
    intros _ _ Hne. contradiction.
  - eexists. split.
    + unfold PrintColoring.
      destruct (Z.eqb_spec ndim 2); [contradiction|].
      destruct (Z.eqb_spec ndim 3); [contradiction|].
      destruct (Z.eqb_spec ndim 4); [contradiction|]. reflexivity.
    + repeat split; intros; try contradiction; reflexivity.
Qed.

Lemma PrintColoring_output_witness :
  ∃ out, PrintColoring uint32_t [0; 0; 1; 1] 2 = Ok out ∧
    (2 = 2 →
       list_ascii_of_string out =
         interleave (text_parts kFormat2) (dec ∘ color_of [0; 0; 1; 1] <$> [0; 1; 2; 3]) ∧
       length (text_parts kFormat2) = 5%nat ∧
       no_braces (list_ascii_of_string out) = true) ∧
    (2 = 3 →
       list_ascii_of_string out =
         interleave (text_parts kFormat3)
                    (dec ∘ color_of [0; 0; 1; 1] <$> [0; 1; 2; 3; 4; 5; 6; 7]) ∧
       length (text_parts kFormat3) = 9%nat ∧
       no_braces (list_ascii_of_string out) = true) ∧
    (2 = 4 → out = EmptyString) ∧
    (2 ≠ 2 → 2 ≠ 3 → 2 ≠ 4 →
       out = ("No visualization for dimension " ++
              string_of_list_ascii (dec 2) ++ nl)%string).
Proof.
  apply (PrintColoring_output uint32_t [0; 0; 1; 1] (color_of [0; 0; 1; 1]) 2).
  intros _ v Hv.
  assert (v = 0 ∨ v = 1 ∨ v = 2 ∨ v = 3) as [->|[->|[->| ->]]] by (simpl in Hv; lia);
    reflexivity.
Defined.

(** ** Drivers *)

(** What one pass writes: the header, the diagram, the diagnostic if any
    and the line with the flag.  The outcome of the validation shows in the
    last two only. *)
Lemma report_spec {C : Type} `{ColorAssignment C} sse4_1 T (coloring : C) ndim
  header diagram is_valid diag :
  PrintColoring T coloring ndim = Ok diagram →
  ValidateColoring sse4_1 T coloring ndim = Ok (is_valid, diag) →
  report sse4_1 T coloring ndim header =
  Ok (header ++ diagram ++ diag ++
      "Validated: " ++ (if is_valid then "yes" else "no") ++ nl)%string.
Proof.
  intros Hprint Hval. unfold report. rewrite Hprint, Hval. simpl.
  destruct is_valid; vm_compute; reflexivity.
Qed.

Lemma main_loop_step sse4_1 fuel ndim out :
  ndim < 17 →
  main_loop sse4_1 (S fuel) ndim out =
  (text ← main_pass sse4_1 ndim;
   main_loop sse4_1 fuel (umul uint64_t ndim ndim) (out ++ text)).
Proof.
  intros Hlt. simpl. destruct (Z.ltb_spec ndim 17) as [_|Hge]; [|lia].
  unfold main_pass. destruct (header_line uint64_t ndim); simpl; reflexivity.
Qed.

Lemma main_loop_done sse4_1 fuel ndim out :
  17 <= ndim → main_loop sse4_1 fuel ndim out = Ok out.
Proof.
  intros Hge. destruct fuel; simpl; destruct (Z.ltb_spec ndim 17); (lia || reflexivity).
Qed.

Lemma mirror_describes T ndim u :
  1 <= ndim < bits T → 0 <= u < 2 ^ ndim →
  describes T ndim {| ndim_ := ndim |} (mirror_closed_form ndim) u.
Proof.
  intros Hn Hu x Hx. split.
  - apply MirrorAssignment_at_spec; [exact Hn|].
    eapply closed_neighbourhood_range; eassumption.
  - apply mirror_closed_form_bounds. lia.
Qed.

(** The mirror colouring of the 16-cube fails at state 0. *)
Lemma ValidateColoring_mirror_16 sse4_1 :
  ∃ diag, ValidateColoring sse4_1 uint64_t {| ndim_ := 16 |} 16 = Ok (false, diag).
Proof.
  destruct (diagnostic_ok sse4_1 uint64_t 16 0 (seen_mask (mirror_closed_form 16) 16 0) 16)
    as [d Hd].
  exists d.
  apply (ValidateColoring_fails_at sse4_1 uint64_t 16 ltac:(simpl; lia)
           {| ndim_ := 16 |} (mirror_closed_form 16) 0 d).
  - simpl. lia.
  - intros u Hu. apply mirror_describes; simpl; lia.
  - intros u Hu. lia.
  - vm_compute. discriminate.
  - exact Hd.
Qed.

Lemma main_pass_16 sse4_1 :
  ∃ text, main_pass sse4_1 16 = Ok text.
Proof.
  destruct (ValidateColoring_mirror_16 sse4_1) as [diag Hval].
  unfold main_pass.
  assert (∃ h, header_line uint64_t 16 = Ok h) as [h ->] by (eexists; vm_compute; reflexivity).
  simpl. erewrite report_spec; [eexists; reflexivity| |exact Hval].
  vm_compute. reflexivity.
Qed.

Lemma string_app_assoc (s1 s2 s3 : string) :
  ((s1 ++ s2) ++ s3 = s1 ++ (s2 ++ s3))%string.
Proof. induction s1 as [|c s1 IH]; simpl; [reflexivity|]. rewrite IH. reflexivity. Qed.

Lemma old_main_body sse4_1 fuel ndim out :
  (header ← header_line uint32_t ndim;
   coloring ← GenerateColoring sse4_1 uint32_t fuel ndim;
   text ← report sse4_1 uint32_t coloring ndim header;
   Ok (out ++ text)%string) =
  (text ← old_main_pass sse4_1 fuel ndim; Ok (out ++ text)%string).
Proof.
  unfold old_main_pass.
  destruct (header_line uint32_t ndim) as [h|]; simpl; [|reflexivity].
  destruct (GenerateColoring sse4_1 uint32_t fuel ndim) as [c|]; simpl; reflexivity.
Qed.

(** The arrays generated for the cubes of dimension 2, 3 and 4. *)
Lemma GenerateColoring_small sse4_1 T fuel :
  (16 <= fuel)%nat →
  GenerateColoring sse4_1 T fuel 2 = Ok [0; 0; 1; 1] ∧
  GenerateColoring sse4_1 T fuel 3 = Ok [0; 0; 2; 0; 1; 2; 1; 1] ∧
  GenerateColoring sse4_1 T fuel 4 =
    Ok [0; 0; 3; 2; 2; 1; 0; 2; 1; 3; 2; 1; 1; 0; 3; 3].
Proof.
  intros Hfuel.
  repeat split; apply (GenerateColoring_more_fuel sse4_1 T 16); try exact Hfuel;
    destruct sse4_1, T; vm_compute; reflexivity.
Qed.

Lemma old_main_pass_ok sse4_1 fuel ndim :
  (16 <= fuel)%nat → ndim = 2 ∨ ndim = 3 ∨ ndim = 4 →
  ∃ text, old_main_pass sse4_1 fuel ndim = Ok text.
Proof.
  intros Hfuel Hn. unfold old_main_pass.
  destruct (GenerateColoring_small sse4_1 uint32_t fuel Hfuel) as (H2 & H3 & H4).
  destruct Hn as [->|[->| ->]].
  - rewrite H2. destruct sse4_1; eexists; vm_compute; reflexivity.
  - rewrite H3. destruct sse4_1; eexists; vm_compute; reflexivity.
  - rewrite H4. destruct sse4_1; eexists; vm_compute; reflexivity.
Qed.

Lemma old_main_validation_3 sse4_1 fuel :
  (16 <= fuel)%nat →
  (coloring ← GenerateColoring sse4_1 uint32_t fuel 3;
   fst <$> ValidateColoring sse4_1 uint32_t coloring 3) = Ok false.
Proof.
  intros Hfuel.
  destruct (GenerateColoring_small sse4_1 uint32_t fuel Hfuel) as (_ & -> & _).
  destruct sse4_1; vm_compute; reflexivity.
Qed.

Lemma main_pass_small sse4_1 :
  (∃ text, main_pass sse4_1 2 = Ok text) ∧ (∃ text, main_pass sse4_1 4 = Ok text).
Proof. split; destruct sse4_1; eexists; vm_compute; reflexivity. Qed.

(** C9. Both drivers go through every dimension of their loop ([main]: 2,
    4, 16; [old_main]: 2, 3, 4) and return 0; what is written is the text
    of the passes, in order.  The mirror colouring fails the validation for
    dimension 16 and the generated colouring fails it for dimension 3 (a
    pass for dimension 4 follows); the status is 0 all the same.  In a
    pass the outcome of the validation shows in the diagnostic and the
    yes/no flag only. *)
Theorem drivers_exit_status (sse4_1 : bool) (fuel : nat) :
  (16 <= fuel)%nat →
  (∃ t2 t4 t16,
     main_pass sse4_1 2 = Ok t2 ∧ main_pass sse4_1 4 = Ok t4 ∧
     main_pass sse4_1 16 = Ok t16 ∧
     main sse4_1 fuel = Ok (0, (t2 ++ t4 ++ t16)%string) ∧
     fst <$> ValidateColoring sse4_1 uint64_t {| ndim_ := 16 |} 16 = Ok false) ∧
  (∃ t2 t3 t4,
     old_main_pass sse4_1 fuel 2 = Ok t2 ∧ old_main_pass sse4_1 fuel 3 = Ok t3 ∧
     old_main_pass sse4_1 fuel 4 = Ok t4 ∧
     old_main sse4_1 fuel = Ok (0, (t2 ++ t3 ++ t4)%string) ∧
     (coloring ← GenerateColoring sse4_1 uint32_t fuel 3;
      fst <$> ValidateColoring sse4_1 uint32_t coloring 3) = Ok false) ∧
  (∀ (C : Type) (H : ColorAssignment C) (T : NumberType) (coloring : C)
     (ndim : Z) (header diagram diag : string) (is_valid : bool),
     PrintColoring T coloring ndim = Ok diagram →
     ValidateColoring sse4_1 T coloring ndim = Ok (is_valid, diag) →
     report sse4_1 T coloring ndim header =
     Ok (header ++ diagram ++ diag ++
         "Validated: " ++ (if is_valid then "yes" else "no") ++ nl)%string).
Proof.
  intros Hfuel. split; [|split].
  - destruct (main_pass_16 sse4_1) as [t16 H16].
    destruct (ValidateColoring_mirror_16 sse4_1) as [diag Hval].
    destruct (main_pass_small sse4_1) as [[t2 H2] [t4 H4]].
    exists t2, t4, t16. repeat (split; [assumption|]). split.
    + destruct fuel as [|[|[|fuel]]]; [lia..|]. unfold main.
      rewrite main_loop_step, H2, bind_Ok by lia.
      change (umul uint64_t 2 2) with 4.
      rewrite main_loop_step, H4, bind_Ok by lia.
      change (umul uint64_t 4 4) with 16.
      rewrite main_loop_step, H16, bind_Ok by lia.
      change (umul uint64_t 16 16) with 256.
      rewrite main_loop_done, bind_Ok by lia.
      rewrite !string_app_assoc. reflexivity.
    + rewrite Hval. reflexivity.
  - destruct (old_main_pass_ok sse4_1 fuel 2 Hfuel ltac:(auto)) as [t2 H2].
    destruct (old_main_pass_ok sse4_1 fuel 3 Hfuel ltac:(auto)) as [t3 H3].
    destruct (old_main_pass_ok sse4_1 fuel 4 Hfuel ltac:(auto)) as [t4 H4].
    exists t2, t3, t4. repeat (split; [assumption|]). split.
    + unfold old_main, for_range. change (seqZ 2 (5 - 2)) with [2; 3; 4].
      cbn [for_each].
      rewrite old_main_body, H2, !bind_Ok.
      rewrite old_main_body, H3, !bind_Ok.
      rewrite old_main_body, H4, !bind_Ok.
      rewrite !string_app_assoc. reflexivity.
    + apply old_main_validation_3, Hfuel.
  - intros C H T coloring ndim header diagram diag is_valid. apply report_spec.
Qed.

Lemma drivers_exit_status_witness :
  (∃ t2 t4 t16,
     main_pass true 2 = Ok t2 ∧ main_pass true 4 = Ok t4 ∧
     main_pass true 16 = Ok t16 ∧
     main true 16 = Ok (0, (t2 ++ t4 ++ t16)%string) ∧
     fst <$> ValidateColoring true uint64_t {| ndim_ := 16 |} 16 = Ok false) ∧
  (∃ t2 t3 t4,
     old_main_pass true 16 2 = Ok t2 ∧ old_main_pass true 16 3 = Ok t3 ∧
     old_main_pass true 16 4 = Ok t4 ∧
     old_main true 16 = Ok (0, (t2 ++ t3 ++ t4)%string) ∧
     (coloring ← GenerateColoring true uint32_t 16 3;
      fst <$> ValidateColoring true uint32_t coloring 3) = Ok false) ∧
  (∀ (C : Type) (H : ColorAssignment C) (T : NumberType) (coloring : C)
     (ndim : Z) (header diagram diag : string) (is_valid : bool),
     PrintColoring T coloring ndim = Ok diagram →
     ValidateColoring true T coloring ndim = Ok (is_valid, diag) →
     report true T coloring ndim header =
     Ok (header ++ diagram ++ diag ++
         "Validated: " ++ (if is_valid then "yes" else "no") ++ nl)%string).
Proof. apply (drivers_exit_status true 16). lia. Defined.

(** ** Colouring in topological order: termination and coverage *)

Lemma reachable_mono ndim ndim' v :
  ndim <= ndim' → reachable ndim v → reachable ndim' v.
Proof.
  intros Hle. induction 1 as [|v i _ IH Hi Hbit]; [constructor|].
  apply reachable_set; [exact IH|lia|exact Hbit].
Qed.

Lemma reachable_all ndim v : 0 <= ndim → 0 <= v < 2 ^ ndim → reachable ndim v.
Proof.
  intros Hn. revert v. pattern ndim. apply natlike_ind; [| |exact Hn].
  - intros v Hv. simpl in Hv. replace v with 0 by lia. constructor.
  - intros k Hk IH v Hv. rewrite Z.pow_succ_r in Hv by exact Hk.
    destruct (Z.lt_ge_cases v (2 ^ k)) as [Hlow|Hhigh].
    + apply reachable_mono with k; [lia|]. apply IH. lia.
    + assert (0 <= v - 2 ^ k < 2 ^ k) as Hu by lia.
      assert (Z.testbit (v - 2 ^ k) k = false) as Hbit
        by (apply (lt_pow2_testbit k); lia).
      replace v with (Z.lor (v - 2 ^ k) (2 ^ k)).
      * apply reachable_set; [|lia|exact Hbit].
        apply reachable_mono with k; [lia|]. apply IH. exact Hu.
      * rewrite <- Z.add_nocarry_lor; [lia|].
        apply Z.bits_inj'. intros j Hj. rewrite Z.land_spec, Z.bits_0.
        destruct (Z.eq_dec j k) as [->|Hne].
        -- rewrite Hbit. reflexivity.
        -- rewrite Z.pow2_bits_false by lia. apply andb_false_r.
Qed.

(** The comparison is a strict total order: two values that are not
    ordered either way are equal. *)
Lemma TopologicalCompare_total sse4_1 T a b :
  TopologicalCompare sse4_1 T a b = false →
  TopologicalCompare sse4_1 T b a = false → a = b.
Proof.
  unfold TopologicalCompare. intros Hab Hba.
  rewrite (Z.eqb_sym (PopCount sse4_1 T b)) in Hba.
  destruct (Z.eqb_spec (PopCount sse4_1 T a) (PopCount sse4_1 T b)) as [Heq|Hne].
  - apply Z.ltb_ge in Hab, Hba. lia.
  - apply Z.ltb_ge in Hab, Hba. lia.
Qed.

Section SetInsert.
Variable lt : Z → Z → bool.
Hypothesis lt_total : ∀ a b, lt a b = false → lt b a = false → a = b.

Lemma set_insert_fresh x s : x ∉ s → set_insert lt x s ≡ₚ x :: s.
Proof.
  induction s as [|y s IH]; intros Hx; [reflexivity|].
  apply not_elem_of_cons in Hx as [Hne Hx]. simpl.
  destruct (lt x y) eqn:Hxy; [reflexivity|].
  destruct (lt y x) eqn:Hyx.
  - rewrite (IH Hx). apply Permutation_swap.
  - exfalso. apply Hne. apply lt_total; assumption.
Qed.
End SetInsert.

Lemma count_false_replicate n : count_false (replicate n false) = n.
Proof.
  unfold count_false. induction n as [|n IH]; [reflexivity|].
  change (replicate (S n) false) with (false :: replicate n false).
  rewrite filter_cons_True by reflexivity. simpl. rewrite IH. reflexivity.
Qed.

Lemma count_false_insert l (i : nat) :
  l !! i = Some false → S (count_false (<[i:=true]> l)) = count_false l.
Proof.
  unfold count_false. revert i. induction l as [|b l IH]; intros i Hi; [discriminate|].
  destruct i as [|i].
  - injection Hi as ->. change (<[0%nat:=true]> (false :: l)) with (true :: l).
    rewrite filter_cons_False by discriminate.
    rewrite filter_cons_True by reflexivity. reflexivity.
  - change (<[S i:=true]> (b :: l)) with (b :: <[i:=true]> l).
    change ((b :: l) !! S i) with (l !! i) in Hi.
    destruct b.
    + rewrite !filter_cons_False by discriminate. apply IH, Hi.
    + rewrite !filter_cons_True by reflexivity. simpl. f_equal. apply IH, Hi.
Qed.

Lemma inserted_snoc_Inserted ev s : inserted (ev ++ [Inserted s]) = inserted ev ++ [s].
Proof. unfold inserted. rewrite omap_app. reflexivity. Qed.

Lemma inserted_snoc_Coloured ev s c : inserted (ev ++ [Coloured s c]) = inserted ev.
Proof. unfold inserted. rewrite omap_app. simpl. apply app_nil_r. Qed.

Lemma coloured_snoc_Inserted ev s : coloured (ev ++ [Inserted s]) = coloured ev.
Proof. unfold coloured. rewrite omap_app. simpl. apply app_nil_r. Qed.

Lemma coloured_snoc_Coloured ev s c :
  coloured (ev ++ [Coloured s c]) = coloured ev ++ [(s, c)].
Proof. unfold coloured. rewrite omap_app. reflexivity. Qed.

Section GenerateFacts.
Variable sse4_1 : bool.
Variable T : NumberType.
Variable ndim : Z.
Hypothesis ndim_range : 1 <= ndim < bits T.

Lemma lookup_bool_length (l : list bool) (v : Z) :
  0 <= v < Z.of_nat (length l) → ∃ b, l !! Z.to_nat v = Some b.
Proof.
  intros Hv. destruct (l !! Z.to_nat v) as [b|] eqn:Hl; [exists b; reflexivity|].
  apply lookup_ge_None in Hl. lia.
Qed.

Lemma pow2_ndim_pos : 0 < 2 ^ ndim.
Proof. apply Z.pow_pos_nonneg; lia. Qed.

(** One more dimension dealt with, when its child is known to be inserted. *)
Lemma Inv_advance cs i g :
  Inv ndim (Some (cs, i)) g →
  (Z.testbit cs i = false → Z.lor cs (2 ^ i) ∈ inserted (events g)) →
  Inv ndim (Some (cs, i + 1)) g.
Proof.
  intros [] Hchild. constructor; try assumption.
  intros v j Hv Hj Hbit Hpart.
  destruct (Z.eq_dec v cs) as [->|Hne].
  - destruct (Z.eq_dec j i) as [->|Hji]; [apply Hchild, Hbit|].
    apply inv_closure0; try assumption. intros _. specialize (Hpart eq_refl). lia.
  - apply inv_closure0; try assumption. intros Heq. contradiction.
Qed.

Lemma Inv_finish cs g : Inv ndim (Some (cs, ndim)) g → Inv ndim None g.
Proof.
  intros []. constructor; try assumption.
  intros v j Hv Hj Hbit _. apply inv_closure0; try assumption. intros _. lia.
Qed.

Lemma child_in_cube cs i :
  0 <= cs < 2 ^ ndim → 0 <= i < ndim → 0 <= Z.lor cs (2 ^ i) < 2 ^ ndim.
Proof.
  intros Hcs Hi.
  assert (0 <= Z.lor cs (2 ^ i)) as Hnn.
  { apply Z.lor_nonneg. split; [lia|apply Z.pow_nonneg; lia]. }
  split; [exact Hnn|]. apply lt_pow2_testbit; [lia|exact Hnn|].
  intros j Hj. rewrite Z.lor_spec, Z.pow2_bits_false by lia.
  rewrite orb_false_r. apply (lt_pow2_testbit ndim cs); lia.
Qed.

Lemma visit_child_inv cs i g :
  Inv ndim (Some (cs, i)) g → 0 <= cs < 2 ^ ndim → 0 <= i < ndim →
  ∃ g', visit_child sse4_1 T cs i g = Ok g' ∧
        Inv ndim (Some (cs, i + 1)) g' ∧ measure g' = measure g.
Proof.
  intros HI Hcs Hi. unfold visit_child.
  rewrite Get_spec by lia. rewrite bind_Ok.
  destruct (Z.testbit cs i) eqn:Hbit.
  { exists g. split; [reflexivity|]. split; [|reflexivity].
    apply Inv_advance; [exact HI|]. intros Hf. rewrite Hbit in Hf. discriminate. }
  change (Z.b2z false =? 0) with true. cbv iota.
  rewrite SetBit_spec; [|apply (in_range_of_cube T ndim); lia|lia].
  rewrite bind_Ok, set_bit_1 by lia.
  set (child := Z.lor cs (2 ^ i)).
  assert (0 <= child < 2 ^ ndim) as Hchild by (apply child_in_cube; assumption).
  destruct (lookup_bool_length (open g) child) as [o Ho];
    [rewrite (inv_len_open _ _ _ HI); lia|].
  rewrite (vec_get_spec _ _ _ Ho), bind_Ok.
  destruct o.
  { exists g. split; [reflexivity|]. split; [|reflexivity].
    apply Inv_advance; [exact HI|]. intros _. apply (inv_open _ _ _ HI); assumption. }
  assert (child ∉ inserted (events g)) as Hfresh.
  { intros Hin. apply (inv_open _ _ _ HI) in Hin; [|exact Hchild]. congruence. }
  assert (child ∉ queue g) as Hnq.
  { intros Hin. apply Hfresh, (inv_split _ _ _ HI). left. exact Hin. }
  assert (child ∉ (coloured (events g)).*1) as Hnc.
  { intros Hin. apply Hfresh, (inv_split _ _ _ HI). right. exact Hin. }
  pose proof (set_insert_fresh (TopologicalCompare sse4_1 T)
                (TopologicalCompare_total sse4_1 T) child (queue g) Hnq) as Hperm.
  cbv iota. change (negb false) with true. cbv iota.
  rewrite vec_set_spec by (rewrite (inv_len_open _ _ _ HI); lia). rewrite bind_Ok.
  eexists. split; [reflexivity|]. destruct HI. split.
  - constructor; simpl;
      rewrite ?inserted_snoc_Inserted, ?coloured_snoc_Inserted; try assumption.
    + rewrite length_insert. assumption.
    + rewrite Hperm. apply NoDup_cons_2; assumption.
    + apply list.NoDup_app. split; [assumption|]. split; [|apply list.NoDup_singleton].
      intros x Hx Hx'. apply list_elem_of_singleton in Hx' as ->. contradiction.
    + intros v Hv. apply elem_of_app in Hv as [Hv|Hv]; [apply inv_ins_range0, Hv|].
      apply list_elem_of_singleton in Hv as ->. exact Hchild.
    + intros v Hv. rewrite elem_of_app, list_elem_of_singleton.
      destruct (Z.eq_dec v child) as [->|Hne].
      * rewrite list_lookup_insert_eq by lia. split; [right; reflexivity|reflexivity].
      * rewrite list_lookup_insert_ne by lia. rewrite inv_open0 by exact Hv.
        split; [left; assumption|intros [Hin|Heq]; [assumption|contradiction]].
    + intros v. rewrite elem_of_app, list_elem_of_singleton, Hperm, elem_of_cons.
      rewrite inv_split0. tauto.
    + intros v. rewrite Hperm, elem_of_cons. intros [->|Hin]; [exact Hnc|].
      apply inv_disj0, Hin.
    + apply elem_of_app. left. assumption.
    + intros v j Hv Hj Hbitv Hpart. apply elem_of_app.
      destruct (Z.eq_dec v cs) as [->|Hne].
      * destruct (Z.eq_dec j i) as [->|Hji];
          [right; apply list_elem_of_singleton; reflexivity|].
        left. apply inv_closure0; try assumption. intros _.
        specialize (Hpart eq_refl). lia.
      * left. apply inv_closure0; try assumption. intros Heq. contradiction.
  - unfold measure. simpl. rewrite Hperm. simpl.
    rewrite <- (count_false_insert (open g) (Z.to_nat child)) by exact Ho. lia.
Qed.

Lemma visit_inv g cs queue' :
  Inv ndim None g → queue g = cs :: queue' →
  ∃ g', visit sse4_1 T ndim ndim cs (popped g queue') = Ok g' ∧
        Inv ndim None g' ∧ S (measure g') = measure g.
Proof.
  intros HI Hq. pose proof pow2_ndim_pos as Hpos.
  assert (cs ∈ queue g) as Hcsq by (rewrite Hq; apply elem_of_cons; left; reflexivity).
  assert (0 <= cs < 2 ^ ndim) as Hcs
    by (apply (inv_ins_range _ _ _ HI), (inv_split _ _ _ HI); left; exact Hcsq).
  assert (cs ∉ (coloured (events g)).*1) as Hnc by (apply (inv_disj _ _ _ HI), Hcsq).
  assert (NoDup (cs :: queue')) as Hnd by (rewrite <- Hq; apply (inv_queue_nodup _ _ _ HI)).
  apply list.NoDup_cons in Hnd as [Hcsq' Hndq].
  unfold visit, popped. cbn [result_ closed open next_color events queue].
  unfold assert. rewrite (inv_len_result _ _ _ HI).
  destruct (Z.ltb_spec cs (Z.of_nat (Z.to_nat (2 ^ ndim)))) as [_|Hge]; [|lia].
  rewrite bind_Ok.
  destruct (lookup_bool_length (closed g) cs) as [c Hc];
    [rewrite (inv_len_closed _ _ _ HI); lia|].
  rewrite (vec_get_spec _ _ _ Hc), bind_Ok.
  destruct c.
  { exfalso. apply Hnc. apply (inv_closed _ _ _ HI); assumption. }
  change (negb false) with true. cbv iota.
  rewrite (vec_set_spec (closed g)) by (rewrite (inv_len_closed _ _ _ HI); lia).
  rewrite bind_Ok.
  rewrite (vec_set_spec (result_ g)) by (rewrite (inv_len_result _ _ _ HI); lia).
  rewrite bind_Ok.
  pose proof (inv_next _ _ _ HI) as Hnext. pose proof (bits_le_64 T) as H64.
  rewrite uadd_small by lia. unfold urem.
  destruct (Z.eqb_spec ndim 0) as [H0|_]; [lia|]. rewrite !bind_Ok.
  set (g1 := {| queue := queue'; result_ := <[Z.to_nat cs:=next_color g]> (result_ g);
                open := open g; closed := <[Z.to_nat cs:=true]> (closed g);
                next_color := (next_color g + 1) mod ndim;
                events := events g ++ [Coloured cs (next_color g)] |}).
  assert (Inv ndim (Some (cs, 0)) g1) as HI1.
  { destruct HI. constructor; simpl;
      rewrite ?inserted_snoc_Coloured, ?coloured_snoc_Coloured, ?fmap_app; simpl;
      try assumption.
    - rewrite length_insert. assumption.
    - rewrite length_insert. assumption.
    - apply list.NoDup_app. split; [assumption|]. split; [|apply list.NoDup_singleton].
      intros x Hx Hx'. apply list_elem_of_singleton in Hx' as ->. contradiction.
    - intros v Hv. rewrite elem_of_app, list_elem_of_singleton.
      destruct (Z.eq_dec v cs) as [->|Hne].
      + rewrite list_lookup_insert_eq by lia. split; [right; reflexivity|reflexivity].
      + rewrite list_lookup_insert_ne by lia. rewrite inv_closed0 by exact Hv.
        split; [left; assumption|intros [Hin|Heq]; [assumption|contradiction]].
    - intros v. rewrite elem_of_app, list_elem_of_singleton, inv_split0, Hq, elem_of_cons.
      tauto.
    - intros v Hv Hin. apply elem_of_app in Hin as [Hin|Hin].
      + apply (inv_disj0 v); [rewrite Hq; apply elem_of_cons; right; exact Hv|exact Hin].
      + apply list_elem_of_singleton in Hin as ->. contradiction.
    - intros v c Hvc. apply elem_of_app in Hvc as [Hvc|Hvc].
      + destruct (inv_col0 v c Hvc) as [Hc1 Hc2]. split; [exact Hc1|].
        assert (v ≠ cs) as Hne.
        { intros ->. apply Hnc. apply list_elem_of_fmap. exists (cs, c). split; [reflexivity|exact Hvc]. }
        assert (0 <= v) as Hv0.
        { assert (v ∈ (coloured (events g)).*1) as Hin
            by (apply list_elem_of_fmap; exists (v, c); split; [reflexivity|exact Hvc]).
          apply inv_ins_range0, inv_split0. right. exact Hin. }
        rewrite list_lookup_insert_ne by lia. exact Hc2.
      + apply list_elem_of_singleton in Hvc. injection Hvc as -> ->.
        split; [exact Hnext|]. apply list_lookup_insert_eq. lia.
    - apply Z.mod_pos_bound. lia.
    - intros v j Hv Hj Hbit Hpart. apply elem_of_app in Hv as [Hv|Hv].
      + apply inv_closure0; try assumption. exact I.
      + apply list_elem_of_singleton in Hv as ->. specialize (Hpart eq_refl). lia. }
  assert (S (measure g1) = measure g) as Hm1.
  { unfold measure, g1. simpl. rewrite Hq. reflexivity. }
  destruct (for_range_inv (λ k g', Inv ndim (Some (cs, k)) g' ∧ measure g' = measure g1)
              0 ndim (visit_child sse4_1 T cs) g1) as (g' & Hrun & HI' & Hm');
    [lia|split; [exact HI1|reflexivity]| |].
  - intros k s Hk [HIs Hms].
    destruct (visit_child_inv cs k s HIs Hcs Hk) as (s' & Hs' & HIs' & Hms').
    exists s'. split; [exact Hs'|]. split; [exact HIs'|congruence].
  - exists g'. split; [exact Hrun|]. split; [apply Inv_finish with cs, HI'|congruence].
Qed.

Lemma generate_loop_inv fuel g :
  Inv ndim None g → (measure g <= fuel)%nat →
  ∃ g', generate_loop sse4_1 T fuel ndim ndim g = Ok g' ∧ Inv ndim None g' ∧ queue g' = [].
Proof.
  revert g. induction fuel as [|fuel IH]; intros g HI Hm.
  - exists g. unfold measure in Hm. destruct (queue g) eqn:Hq; simpl in Hm; [|lia].
    simpl. rewrite Hq. auto.
  - destruct (queue g) as [|cs queue'] eqn:Hq.
    + exists g. simpl. rewrite Hq. auto.
    + destruct (visit_inv g cs queue' HI Hq) as (g1 & Hvisit & HI1 & Hm1).
      destruct (IH g1 HI1 ltac:(lia)) as (g' & Hrun & HI' & Hq').
      exists g'. split; [|auto]. simpl. rewrite Hq.
      change (visit sse4_1 T ndim ndim cs _) with
        (visit sse4_1 T ndim ndim cs (popped g queue')).
      rewrite Hvisit, bind_Ok. exact Hrun.
Qed.

Lemma generate_init_inv :
  ∃ g, generate_init sse4_1 T (2 ^ ndim) = Ok g ∧ Inv ndim None g ∧
       measure g = Z.to_nat (2 ^ ndim).
Proof.
  pose proof pow2_ndim_pos as Hpos. unfold generate_init.
  rewrite vec_set_spec by (rewrite length_replicate; lia). rewrite bind_Ok.
  eexists. split; [reflexivity|]. split.
  - constructor; simpl; rewrite ?length_insert, ?length_replicate; try reflexivity.
    + apply list.NoDup_singleton.
    + apply list.NoDup_singleton.
    + apply NoDup_nil_2.
    + intros v Hv. apply list_elem_of_singleton in Hv as ->. lia.
    + intros v Hv. rewrite list_elem_of_singleton.
      destruct (Z.eq_dec v 0) as [->|Hne].
      * rewrite list_lookup_insert_eq by (rewrite length_replicate; lia). tauto.
      * rewrite list_lookup_insert_ne by lia.
        rewrite lookup_replicate_2 by lia. split; [discriminate|contradiction].
    + intros v Hv. rewrite lookup_replicate_2 by lia.
      split; [discriminate|]. intros Hin. apply elem_of_nil in Hin. contradiction.
    + intros v. rewrite list_elem_of_singleton. split; [left; assumption|].
      intros [Hv|Hv]; [exact Hv|]. apply elem_of_nil in Hv. contradiction.
    + intros v _ Hin. apply elem_of_nil in Hin. contradiction.
    + intros v c Hin. apply elem_of_nil in Hin. contradiction.
    + lia.
    + apply list_elem_of_singleton. reflexivity.
    + intros v i Hin. apply elem_of_nil in Hin. contradiction.
  - unfold measure. simpl.
    assert (replicate (Z.to_nat (2 ^ ndim)) false !! 0%nat = Some false) as Hl
      by (apply lookup_replicate_2; lia).
    pose proof (count_false_insert _ _ Hl) as Hc.
    rewrite count_false_replicate in Hc. change (Z.to_nat 0) with 0%nat. lia.
Qed.

(** When the queue is empty every state of the cube has been coloured. *)
Lemma Inv_all_coloured g v :
  Inv ndim None g → queue g = [] → 0 <= v < 2 ^ ndim → v ∈ (coloured (events g)).*1.
Proof.
  intros HI Hq Hv.
  assert (∀ x, x ∈ inserted (events g) → x ∈ (coloured (events g)).*1) as Hsub.
  { intros x Hx. apply (inv_split _ _ _ HI) in Hx as [Hx|Hx]; [|exact Hx].
    rewrite Hq in Hx. apply elem_of_nil in Hx. contradiction. }
  apply Hsub. pose proof (reachable_all ndim v ltac:(lia) Hv) as Hr. clear Hv.
  induction Hr as [|u i _ IH Hi Hbit]; [apply (inv_zero _ _ _ HI)|].
  apply (inv_closure _ _ _ HI); [apply Hsub, IH| | |exact I]; assumption.
Qed.
End GenerateFacts.

(** C10. For every [ndim >= 1] below the width of the integer type the
    loop of the generator ends (within [2^ndim] turns) with an empty queue.
    At that point every state of the cube has been inserted into the queue
    exactly once and coloured exactly once: the states inserted, in order,
    and the states coloured, in order, are permutations of [0 .. 2^ndim -
    1].  Every colour assigned lies in [0, ndim) and is the one found in
    the result, and every state of the cube is reachable from state 0 by
    setting bits that are 0. *)
Theorem GenerateColoring_terminates (sse4_1 : bool) (T : NumberType)
  (ndim : Z) (fuel : nat) :
  1 <= ndim < bits T → (Z.to_nat (2 ^ ndim) <= fuel)%nat →
  ∃ g, generate sse4_1 T fuel ndim = Ok g ∧
       GenerateColoring sse4_1 T fuel ndim = Ok (result_ g) ∧
       queue g = [] ∧
       length (result_ g) = Z.to_nat (2 ^ ndim) ∧
       inserted (events g) ≡ₚ seqZ 0 (2 ^ ndim) ∧
       (coloured (events g)).*1 ≡ₚ seqZ 0 (2 ^ ndim) ∧
       (∀ v c, (v, c) ∈ coloured (events g) →
               0 <= c < ndim ∧ result_ g !! Z.to_nat v = Some c) ∧
       (∀ v, 0 <= v < 2 ^ ndim →
             reachable ndim v ∧
             ∃ c, 0 <= c < ndim ∧ result_ g !! Z.to_nat v = Some c).
Proof.
  intros Hn Hfuel.
  destruct (generate_init_inv sse4_1 T ndim Hn) as (g0 & Hinit & HI0 & Hm0).
  destruct (generate_loop_inv sse4_1 T ndim Hn fuel g0 HI0 ltac:(lia))
    as (g & Hrun & HI & Hq).
  assert (generate sse4_1 T fuel ndim = Ok g) as Hgen.
  { unfold generate. rewrite GetNumberOfStates_spec by lia.
    rewrite bind_Ok, Hinit, bind_Ok. exact Hrun. }
  assert (∀ v, 0 <= v < 2 ^ ndim → v ∈ (coloured (events g)).*1) as Hall
    by (intros v Hv; eapply Inv_all_coloured; eassumption).
  exists g. split; [exact Hgen|]. split.
  { unfold GenerateColoring. rewrite Hgen. reflexivity. }
  split; [exact Hq|]. split; [apply (inv_len_result _ _ _ HI)|].
  split; [|split; [|split]].
  - apply NoDup_Permutation; [apply (inv_ins_nodup _ _ _ HI)|apply NoDup_seqZ|].
    intros x. rewrite elem_of_seqZ. split.
    + intros Hx. apply (inv_ins_range _ _ _ HI) in Hx. lia.
    + intros Hx. apply (inv_split _ _ _ HI). right. apply Hall. lia.
  - apply NoDup_Permutation; [apply (inv_col_nodup _ _ _ HI)|apply NoDup_seqZ|].
    intros x. rewrite elem_of_seqZ. split.
    + intros Hx.
      assert (x ∈ inserted (events g)) as Hin
        by (apply (inv_split _ _ _ HI); right; exact Hx).
      apply (inv_ins_range _ _ _ HI) in Hin. lia.
    + intros Hx. apply Hall. lia.
  - apply (inv_col _ _ _ HI).
  - intros v Hv. split; [apply reachable_all; lia|].
    specialize (Hall v Hv). apply list_elem_of_fmap in Hall as ([v' c] & Heq & Hin).
    simpl in Heq. subst v'. exists c. apply (inv_col _ _ _ HI). exact Hin.
Qed.

Lemma GenerateColoring_terminates_witness :
  ∃ g, generate true uint32_t 8 3 = Ok g ∧
       GenerateColoring true uint32_t 8 3 = Ok (result_ g) ∧
       queue g = [] ∧
       length (result_ g) = Z.to_nat (2 ^ 3) ∧
       inserted (events g) ≡ₚ seqZ 0 (2 ^ 3) ∧
       (coloured (events g)).*1 ≡ₚ seqZ 0 (2 ^ 3) ∧
       (∀ v c, (v, c) ∈ coloured (events g) →
               0 <= c < 3 ∧ result_ g !! Z.to_nat v = Some c) ∧
       (∀ v, 0 <= v < 2 ^ 3 →
             reachable 3 v ∧
             ∃ c, 0 <= c < 3 ∧ result_ g !! Z.to_nat v = Some c).
Proof.
  apply (GenerateColoring_terminates true uint32_t 3 8).
  - simpl. lia.
  - simpl. lia.
Defined.

(** * Further properties *)

(** ** Bit access: bounds and composition *)

(** X1. [Get] and [Set] stop on their assertion when the position is not
    below the width of the integer type. *)
Theorem Get_Set_out_of_range T v idx b :
  bits T <= idx →
  Get T v idx = Fail AssertionFailed ∧ SetBit T v idx b = Fail AssertionFailed.
Proof.
  intros Hidx. unfold Get, SetBit, Set_, assert.
  destruct (Z.ltb_spec idx (bits T)) as [Hlt|_]; [lia|]. split; reflexivity.
Qed.

Lemma Get_Set_out_of_range_witness :
  Get uint32_t 5 32 = Fail AssertionFailed ∧
  SetBit uint32_t 5 32 1 = Fail AssertionFailed.
Proof. apply (Get_Set_out_of_range uint32_t 5 32 1). simpl. lia. Defined.

Lemma set_bit_land_1 x idx b : set_bit x idx (Z.land b 1) = set_bit x idx b.
Proof. unfold set_bit. rewrite <- Z.land_assoc. reflexivity. Qed.

(** X2. The setter uses the lowest bit of the value assigned and nothing
    else of it. *)
Theorem SetBit_low_bit_only T v i b :
  in_range T v → 0 <= i < bits T →
  SetBit T v i b = SetBit T v i (Z.land b 1) ∧
  ∃ v', SetBit T v i b = Ok v' ∧ Get T v' i = Ok (b mod 2).
Proof.
  intros Hv Hi. rewrite !SetBit_spec by assumption. rewrite set_bit_land_1.
  split; [reflexivity|]. eexists. split; [reflexivity|].
  rewrite Get_spec by exact Hi. rewrite set_bit_testbit by lia.
  rewrite Z.eqb_refl. f_equal. rewrite <- Z.bit0_odd. apply Z.bit0_mod.
Qed.

Lemma SetBit_low_bit_only_witness :
  SetBit uint32_t 8 1 7 = SetBit uint32_t 8 1 (Z.land 7 1) ∧
  ∃ v', SetBit uint32_t 8 1 7 = Ok v' ∧ Get uint32_t v' 1 = Ok (7 mod 2).
Proof.
  apply (SetBit_low_bit_only uint32_t 8 1 7).
  - unfold in_range. vm_compute. split; [discriminate|reflexivity].
  - simpl. lia.
Defined.

(** X3. Two assignments to the same position: the second one wins.  Two
    assignments to different positions commute. *)
Theorem SetBit_compose T v i j b c :
  in_range T v → 0 <= i < bits T → 0 <= j < bits T →
  (v1 ← SetBit T v i b; SetBit T v1 i c) = SetBit T v i c ∧
  (i ≠ j →
   (v1 ← SetBit T v i b; SetBit T v1 j c) =
   (v1 ← SetBit T v j c; SetBit T v1 i b)).
Proof.
  intros Hv Hi Hj. split.
  - rewrite (SetBit_spec T v i b), bind_Ok by assumption.
    rewrite !SetBit_spec by (try apply set_bit_in_range; assumption).
    f_equal. apply Z.bits_inj'. intros k Hk.
    rewrite !set_bit_testbit by lia. destruct (Z.eqb_spec k i); reflexivity.
  - intros Hne.
    rewrite (SetBit_spec T v i b), (SetBit_spec T v j c), !bind_Ok by assumption.
    rewrite !SetBit_spec by (try apply set_bit_in_range; assumption).
    f_equal. apply Z.bits_inj'. intros k Hk.
    rewrite !set_bit_testbit by lia.
    destruct (Z.eqb_spec k i), (Z.eqb_spec k j); try reflexivity. lia.
Qed.

Lemma SetBit_compose_witness :
  (v1 ← SetBit uint64_t 9 2 1; SetBit uint64_t v1 2 0) = SetBit uint64_t 9 2 0 ∧
  (2 ≠ 5 →
   (v1 ← SetBit uint64_t 9 2 1; SetBit uint64_t v1 5 0) =
   (v1 ← SetBit uint64_t 9 5 0; SetBit uint64_t v1 2 1)).
Proof.
  apply (SetBit_compose uint64_t 9 2 5 1 0).
  - unfold in_range. vm_compute. split; [discriminate|reflexivity].
  - simpl. lia.
  - simpl. lia.
Defined.

(** X4. Writing back the bit read at a position changes nothing. *)
Theorem SetBit_Get_same T v i :
  in_range T v → 0 <= i < bits T →
  (b ← Get T v i; SetBit T v i b) = Ok v.
Proof.
  intros Hv Hi. rewrite Get_spec, bind_Ok, SetBit_spec by assumption.
  f_equal. apply Z.bits_inj'. intros k Hk. rewrite set_bit_testbit by lia.
  destruct (Z.eqb_spec k i) as [->|]; [|reflexivity].
  destruct (Z.testbit v i); reflexivity.
Qed.

Lemma SetBit_Get_same_witness :
  (b ← Get uint32_t 6 1; SetBit uint32_t 6 1 b) = Ok 6.
Proof.
  apply (SetBit_Get_same uint32_t 6 1).
  - unfold in_range. vm_compute. split; [discriminate|reflexivity].
  - simpl. lia.
Defined.

(** ** Binary strings: parsing in general, errors, the other round trip *)

Lemma testbit_binary_value cs j :
  0 <= j →
  Z.testbit (binary_value cs) j =
  match cs !! Z.to_nat j with Some c => char_bit c | None => false end.
Proof.
  revert j. induction cs as [|c cs IH]; intros j Hj.
  - simpl. apply Z.bits_0.
  - change (binary_value (c :: cs)) with (Z.b2z (char_bit c) + 2 * binary_value cs).
    rewrite Z.add_comm.
    destruct (Z.eq_dec j 0) as [->|Hne].
    + rewrite Z.testbit_0_r. reflexivity.
    + replace j with (Z.succ (j - 1)) at 1 by lia.
      rewrite Z.testbit_succ_r by lia. rewrite IH by lia.
      replace (Z.to_nat j) with (S (Z.to_nat (j - 1))) by lia. reflexivity.
Qed.

Lemma testbit_splice low target k j :
  0 <= k → 0 <= j →
  Z.testbit (splice low target k) j =
  if j <? k then Z.testbit low j else Z.testbit target j.
Proof.
  intros Hk Hj. unfold splice.
  rewrite Z.lor_spec, Z.land_spec, Z.ldiff_spec, Z.testbit_ones_nonneg by lia.
  destruct (j <? k), (Z.testbit low j), (Z.testbit target j); reflexivity.
Qed.

Lemma splice_0 low target : splice low target 0 = target.
Proof.
  unfold splice. change (Z.ones 0) with 0.
  rewrite Z.land_0_r, Z.ldiff_0_r. reflexivity.
Qed.

Lemma splice_in_range T low target k :
  in_range T target → 0 <= low → 0 <= k <= bits T → in_range T (splice low target k).
Proof.
  intros Ht Hlow Hk. apply testbit_in_range.
  - unfold splice. apply Z.lor_nonneg. split.
    + apply Z.land_nonneg. left. exact Hlow.
    + apply Z.ldiff_nonneg. left. apply Ht.
  - intros j Hj. rewrite testbit_splice by lia.
    destruct (Z.ltb_spec j k); [lia|]. eapply in_range_testbit_high; eassumption.
Qed.

Lemma binary_value_nonneg cs : 0 <= binary_value cs.
Proof. induction cs as [|c cs IH]; simpl; [lia|]. destruct (char_bit c); simpl; lia. Qed.

Section ParseFacts.
Variable T : NumberType.
Variable value_str : string.
Variable init : Z.
Hypothesis init_range : in_range T init.
Let chars := list_ascii_of_string value_str.
Let body := λ (i value : Z),
  c ← vec_get (list_ascii_of_string value_str) i;
  _ ← assert (Ascii.eqb c "0" || Ascii.eqb c "1");
  SetBit T value i (wrap T (Z.of_N (N_of_ascii c) - Z.of_N (N_of_ascii "0"))).

(** The value of the target once the characters below [k] have been read. *)
Lemma ParseString_prefix k :
  0 <= k <= bits T →
  (∀ j c, (j < Z.to_nat k)%nat → chars !! j = Some c → is_bit_char c) →
  (Z.to_nat k <= length chars)%nat →
  for_range 0 k body init = Ok (splice (binary_value chars) init k).
Proof.
  intros Hk Hbits Hlen.
  rewrite <- (splice_0 (binary_value chars) init) at 1.
  apply (for_range_fun (splice (binary_value chars) init)); [lia|].
  intros i Hi. unfold body. unfold chars in *.
  destruct (list_ascii_of_string value_str !! Z.to_nat i) as [c|] eqn:Hc;
    [|apply lookup_ge_None in Hc; lia].
  rewrite (vec_get_spec _ _ _ Hc), bind_Ok.
  assert (is_bit_char c) as Hbit by (apply (Hbits (Z.to_nat i)); [lia|exact Hc]).
  assert (wrap T (Z.of_N (N_of_ascii c) - Z.of_N (N_of_ascii "0")) =
          Z.b2z (char_bit c) ∧ Ascii.eqb c "0" || Ascii.eqb c "1" = true) as [-> ->].
  { destruct Hbit as [-> | ->]; split; try reflexivity;
      apply wrap_small, small_in_range; simpl; lia. }
  unfold assert. rewrite bind_Ok.
  rewrite SetBit_spec;
    [|apply splice_in_range; [exact init_range|apply binary_value_nonneg|lia]|lia].
  f_equal. apply Z.bits_inj'. intros j Hj.
  rewrite set_bit_testbit, !testbit_splice by lia.
  destruct (Z.eqb_spec j i) as [->|Hne].
  - destruct (Z.ltb_spec i (i + 1)); [|lia].
    rewrite testbit_binary_value by lia. rewrite Hc.
    destruct (char_bit c); reflexivity.
  - destruct (Z.ltb_spec j i), (Z.ltb_spec j (i + 1)); try lia; reflexivity.
Qed.
End ParseFacts.

Lemma length_list_ascii_of_string s :
  length (list_ascii_of_string s) = String.length s.
Proof. induction s as [|c s IH]; simpl; [reflexivity|]. rewrite IH. reflexivity. Qed.

(** X5. Parsing a string of binary digits no longer than the width
    succeeds; bit [j] of the result is digit [j] of the string, and the bits
    of the target from the length of the string on are left as they were:
    the target is not cleared. *)
Theorem ParseString_splices T value_str init :
  in_range T init →
  Z.of_nat (String.length value_str) <= bits T →
  Forall is_bit_char (list_ascii_of_string value_str) →
  ∃ v, ParseString T value_str init = Ok v ∧ in_range T v ∧
       (∀ (j : nat) c, list_ascii_of_string value_str !! j = Some c →
                       Z.testbit v (Z.of_nat j) = char_bit c) ∧
       (∀ j, Z.of_nat (String.length value_str) <= j →
             Z.testbit v j = Z.testbit init j).
Proof.
  intros Hinit Hlen Hbits.
  set (n := Z.of_nat (String.length value_str)) in *.
  exists (splice (binary_value (list_ascii_of_string value_str)) init n).
  split; [|split; [|split]].
  - unfold ParseString, assert. fold n.
    destruct (Z.leb_spec n (bits T)) as [_|Hgt]; [|lia]. rewrite bind_Ok.
    apply ParseString_prefix; [exact Hinit|lia| |].
    + intros j c _ Hc. rewrite Forall_lookup in Hbits. apply (Hbits j c Hc).
    + rewrite length_list_ascii_of_string. lia.
  - apply splice_in_range; [exact Hinit|apply binary_value_nonneg|lia].
  - intros j c Hc. rewrite testbit_splice by lia.
    assert (j < String.length value_str)%nat as Hj
      by (rewrite <- length_list_ascii_of_string; eapply lookup_lt_Some, Hc).
    destruct (Z.ltb_spec (Z.of_nat j) n); [|lia].
    rewrite testbit_binary_value, Nat2Z.id, Hc by lia. reflexivity.
  - intros j Hj. rewrite testbit_splice by lia.
    destruct (Z.ltb_spec j n); [lia|reflexivity].
Qed.

Lemma ParseString_splices_witness :
  ∃ v, ParseString uint32_t "101" 8 = Ok v ∧ in_range uint32_t v ∧
       (∀ (j : nat) c, list_ascii_of_string "101" !! j = Some c →
                       Z.testbit v (Z.of_nat j) = char_bit c) ∧
       (∀ j, Z.of_nat (String.length "101") <= j →
             Z.testbit v j = Z.testbit 8 j).
Proof.
  apply (ParseString_splices uint32_t "101" 8).
  - unfold in_range. vm_compute. split; [discriminate|reflexivity].
  - simpl. lia.
  - simpl. repeat (constructor; [first [left; reflexivity | right; reflexivity]|]).
    constructor.
Defined.

(** X6. Parsing stops on an assertion when the string is longer than the
    width, and when it meets a character other than [0] and [1]. *)
Theorem ParseString_rejects T value_str init :
  in_range T init →
  (bits T < Z.of_nat (String.length value_str) →
   ParseString T value_str init = Fail AssertionFailed) ∧
  (∀ pre c post,
     Z.of_nat (String.length value_str) <= bits T →
     list_ascii_of_string value_str = pre ++ c :: post →
     Forall is_bit_char pre → ¬ is_bit_char c →
     ParseString T value_str init = Fail AssertionFailed).
Proof.
  intros Hinit. split.
  - intros Hlong. unfold ParseString, assert.
    destruct (Z.leb_spec (Z.of_nat (String.length value_str)) (bits T)); [lia|reflexivity].
  - intros pre c post Hlen Heq Hpre Hc.
    pose proof (length_list_ascii_of_string value_str) as Hl.
    rewrite Heq, length_app in Hl. simpl in Hl.
    set (k := Z.of_nat (length pre)).
    unfold ParseString.
    rewrite (proj2 (Z.leb_le _ _) Hlen). change (assert true) with (Ok ()).
    rewrite bind_Ok. unfold for_range. rewrite Z.sub_0_r.
    rewrite (seqZ_split _ k) by lia.
    rewrite for_each_app.
    pose proof (ParseString_prefix T value_str init Hinit k) as Hprefix.
    unfold for_range in Hprefix. rewrite Z.sub_0_r in Hprefix.
    rewrite Hprefix; [| lia | |rewrite Heq, length_app; lia].
    + rewrite bind_Ok. simpl.
      assert (list_ascii_of_string value_str !! Z.to_nat k = Some c) as Hk.
      { rewrite Heq. unfold k. rewrite Nat2Z.id. apply list_lookup_middle. reflexivity. }
      rewrite (vec_get_spec _ _ _ Hk), bind_Ok.
      assert (Ascii.eqb c "0" || Ascii.eqb c "1" = false) as ->.
      { apply orb_false_iff. split; apply Ascii.eqb_neq; intros ->; apply Hc;
          [left|right]; reflexivity. }
      reflexivity.
    + intros j c' Hj Hc'. rewrite Heq in Hc'.
      rewrite lookup_app_l in Hc' by lia.
      rewrite Forall_lookup in Hpre. apply (Hpre j c' Hc').
Qed.

Lemma ParseString_rejects_witness :
  ParseString uint32_t "000000000000000000000000000000000" 0 = Fail AssertionFailed ∧
  ParseString uint32_t "1x0" 0 = Fail AssertionFailed.
Proof.
  assert (in_range uint32_t 0) as Hr
    by (unfold in_range; vm_compute; split; [discriminate|reflexivity]).
  split.
  - apply (proj1 (ParseString_rejects uint32_t _ 0 Hr)). simpl. lia.
  - apply (proj2 (ParseString_rejects uint32_t "1x0" 0 Hr)
             ["1"%char] "x"%char ["0"%char]).
    + simpl. lia.
    + reflexivity.
    + constructor; [right; reflexivity|constructor].
    + intros [Hx|Hx]; discriminate Hx.
Defined.

Lemma ParseString_value T value_str init :
  in_range T init →
  Z.of_nat (String.length value_str) <= bits T →
  Forall is_bit_char (list_ascii_of_string value_str) →
  ParseString T value_str init =
  Ok (splice (binary_value (list_ascii_of_string value_str)) init
             (Z.of_nat (String.length value_str))).
Proof.
  intros Hinit Hlen Hbits. unfold ParseString.
  rewrite (proj2 (Z.leb_le _ _) Hlen). change (assert true) with (Ok ()).
  rewrite bind_Ok.
  apply ParseString_prefix; [exact Hinit|lia| |].
  - intros j c _ Hc. rewrite Forall_lookup in Hbits. apply (Hbits j c Hc).
  - rewrite length_list_ascii_of_string. lia.
Qed.

(** X7. Parsing a string of binary digits into any target and printing the
    result with as many digits as the string has gives the string back,
    behind the prefix [b]. *)
Theorem ToString_ParseString_roundtrip T value_str init :
  in_range T init →
  Z.of_nat (String.length value_str) <= bits T →
  Forall is_bit_char (list_ascii_of_string value_str) →
  (v ← ParseString T value_str init;
   ToString T v (Z.of_nat (String.length value_str))) =
  Ok (String "b" value_str).
Proof.
  intros Hinit Hlen Hbits.
  rewrite ParseString_value, bind_Ok by assumption.
  rewrite ToString_spec by lia. do 2 f_equal.
  transitivity (string_of_list_ascii (list_ascii_of_string value_str));
    [|apply string_of_list_ascii_of_string].
  f_equal. rewrite Nat2Z.id.
  apply list_eq. intros j.
  destruct (decide (j < String.length value_str)%nat) as [Hj|Hj].
  - rewrite lookup_bit_chars by exact Hj.
    destruct (list_ascii_of_string value_str !! j) as [c|] eqn:Hc;
      [|apply lookup_ge_None in Hc; rewrite length_list_ascii_of_string in Hc; lia].
    rewrite testbit_splice by lia.
    destruct (Z.ltb_spec (Z.of_nat j) (Z.of_nat (String.length value_str))); [|lia].
    rewrite testbit_binary_value, Nat2Z.id, Hc by lia.
    rewrite Forall_lookup in Hbits.
    destruct (Hbits j c Hc) as [-> | ->]; reflexivity.
  - rewrite !(proj2 (lookup_ge_None _ _)); [reflexivity| |].
    + rewrite length_list_ascii_of_string. lia.
    + rewrite length_bit_chars. lia.
Qed.

Lemma ToString_ParseString_roundtrip_witness :
  (v ← ParseString uint32_t "0110" 255;
   ToString uint32_t v (Z.of_nat (String.length "0110"))) =
  Ok (String "b" "0110").
Proof.
  apply (ToString_ParseString_roundtrip uint32_t "0110" 255).
  - unfold in_range. vm_compute. split; [discriminate|reflexivity].
  - simpl. lia.
  - simpl. repeat (constructor; [first [left; reflexivity | right; reflexivity]|]).
    constructor.
Defined.

Lemma string_of_list_ascii_inj l1 l2 :
  string_of_list_ascii l1 = string_of_list_ascii l2 → l1 = l2.
Proof.
  intros H. rewrite <- (list_ascii_of_string_of_list_ascii l1),
    <- (list_ascii_of_string_of_list_ascii l2), H. reflexivity.
Qed.

Lemma bit_char_inj b1 b2 : bit_char b1 = bit_char b2 → b1 = b2.
Proof. destruct b1, b2; simpl; intros H; first [reflexivity|discriminate H]. Qed.

(** X8. Printing with [ndim] digits tells two values apart exactly when
    they differ in one of their [ndim] low bits; asking for more digits than
    the width stops on the assertion. *)
Theorem ToString_low_bits T v w ndim :
  (0 <= ndim <= bits T →
   (ToString T v ndim = ToString T w ndim ↔ v mod 2 ^ ndim = w mod 2 ^ ndim)) ∧
  (bits T < ndim → ToString T v ndim = Fail AssertionFailed).
Proof.
  split.
  - intros Hn. rewrite !ToString_spec by exact Hn. split.
    + intros H. injection H as H. apply string_of_list_ascii_inj in H.
      apply Z.bits_inj'. intros j Hj. rewrite !testbit_mod_pow2 by lia.
      destruct (Z.ltb_spec j ndim) as [Hlt|Hge]; [simpl|reflexivity].
      assert (bit_chars v (Z.to_nat ndim) !! Z.to_nat j =
              bit_chars w (Z.to_nat ndim) !! Z.to_nat j) as Hj' by (rewrite H; reflexivity).
      rewrite !lookup_bit_chars in Hj' by lia.
      injection Hj' as Hj'. apply bit_char_inj in Hj'.
      rewrite Z2Nat.id in Hj' by lia. exact Hj'.
    + intros H. do 3 f_equal. apply list_eq. intros j.
      destruct (decide (j < Z.to_nat ndim)%nat) as [Hj|Hj].
      * rewrite !lookup_bit_chars by exact Hj. do 2 f_equal.
        assert (Z.testbit (v mod 2 ^ ndim) (Z.of_nat j) =
                Z.testbit (w mod 2 ^ ndim) (Z.of_nat j)) as Hb by (rewrite H; reflexivity).
        rewrite !testbit_mod_pow2 in Hb by lia.
        destruct (Z.ltb_spec (Z.of_nat j) ndim); [exact Hb|lia].
      * rewrite !(proj2 (lookup_ge_None _ _)); [reflexivity| |];
          rewrite length_bit_chars; lia.
  - intros Hn. unfold ToString, assert.
    destruct (Z.leb_spec ndim (bits T)); [lia|reflexivity].
Qed.

Lemma ToString_low_bits_witness :
  (ToString uint32_t 5 3 = ToString uint32_t 13 3 ↔ 5 mod 2 ^ 3 = 13 mod 2 ^ 3) ∧
  ToString uint32_t 5 33 = Fail AssertionFailed.
Proof.
  split.
  - apply (proj1 (ToString_low_bits uint32_t 5 13 3)). simpl. lia.
  - apply (proj2 (ToString_low_bits uint32_t 5 5 33)). simpl. lia.
Defined.

(** ** Counting bits: how the count moves, and the order built on it *)

Lemma popcnt_S w v :
  popcnt (S w) v = popcnt w v + Z.b2z (Z.testbit v (Z.of_nat w)).
Proof.
  replace (S w) with (w + 1)%nat by lia. rewrite popcnt_app. f_equal.
  unfold popcnt. simpl. rewrite <- Z.bit0_odd, Z.shiftr_spec, Z.add_0_l by lia. lia.
Qed.

Lemma popcnt_bounds w v : 0 <= popcnt w v <= Z.of_nat w.
Proof.
  induction w as [|w IH]; [unfold popcnt; simpl; lia|].
  rewrite popcnt_S. destruct (Z.testbit v (Z.of_nat w)); simpl; lia.
Qed.

Lemma popcnt_zero w v :
  popcnt w v = 0 ↔ ∀ j, 0 <= j < Z.of_nat w → Z.testbit v j = false.
Proof.
  induction w as [|w IH].
  - split; [intros _ j Hj; lia|intros _; reflexivity].
  - rewrite popcnt_S. pose proof (popcnt_bounds w v) as Hb. split.
    + intros H j Hj.
      destruct (Z.testbit v (Z.of_nat w)) eqn:Hw; simpl in H; [lia|].
      destruct (Z.eq_dec j (Z.of_nat w)) as [->|Hne]; [exact Hw|].
      apply IH; lia.
    + intros H. rewrite (H (Z.of_nat w)) by lia.
      rewrite (proj2 IH); [reflexivity|]. intros j Hj. apply H. lia.
Qed.

Lemma popcnt_set_bit w v i b :
  0 <= i →
  popcnt w (set_bit v i b) =
  popcnt w v + (if i <? Z.of_nat w
                then Z.b2z (Z.odd b) - Z.b2z (Z.testbit v i) else 0).
Proof.
  intros Hi. induction w as [|w IH].
  - destruct (Z.ltb_spec i (Z.of_nat 0)); [lia|]. unfold popcnt. simpl. lia.
  - rewrite !popcnt_S, IH, set_bit_testbit by lia.
    destruct (Z.ltb_spec i (Z.of_nat w)), (Z.ltb_spec i (Z.of_nat (S w))),
             (Z.eqb_spec (Z.of_nat w) i); subst; lia.
Qed.

Lemma PopCount_set_bit sse4_1 T v i b :
  in_range T v → 0 <= i < bits T →
  PopCount sse4_1 T (set_bit v i b) =
  PopCount sse4_1 T v + Z.b2z (Z.odd b) - Z.b2z (Z.testbit v i).
Proof.
  intros Hv Hi.
  rewrite !PopCount_popcnt by first [exact Hv|apply set_bit_in_range; assumption].
  rewrite popcnt_set_bit by lia.
  destruct (Z.ltb_spec i (Z.of_nat (Z.to_nat (bits T)))); lia.
Qed.

(** X9. Writing a bit moves the count of set bits by the difference between
    the bit written and the bit that was there, on either build and for
    either width. *)
Theorem PopCount_after_Set sse4_1 T v i b :
  in_range T v → 0 <= i < bits T →
  ∃ v', SetBit T v i b = Ok v' ∧
        PopCount sse4_1 T v' =
        PopCount sse4_1 T v + Z.b2z (Z.odd b) - Z.b2z (Z.testbit v i).
Proof.
  intros Hv Hi. exists (set_bit v i b). split.
  - apply SetBit_spec; assumption.
  - apply PopCount_set_bit; assumption.
Qed.

Lemma PopCount_after_Set_witness :
  ∃ v', SetBit uint64_t 5 1 1 = Ok v' ∧
        PopCount false uint64_t v' =
        PopCount false uint64_t 5 + Z.b2z (Z.odd 1) - Z.b2z (Z.testbit 5 1).
Proof.
  apply (PopCount_after_Set false uint64_t 5 1 1).
  - unfold in_range. vm_compute. split; [discriminate|reflexivity].
  - simpl. lia.
Defined.

(** X10. The count of set bits lies between zero and the width, and is
    zero for the number zero only. *)
Theorem PopCount_bounds sse4_1 T v :
  in_range T v →
  0 <= PopCount sse4_1 T v <= bits T ∧ (PopCount sse4_1 T v = 0 ↔ v = 0).
Proof.
  intros Hv. rewrite PopCount_popcnt by exact Hv.
  pose proof (popcnt_bounds (Z.to_nat (bits T)) v) as Hb.
  pose proof (bits_pos T) as Hp.
  split; [lia|]. rewrite popcnt_zero. split.
  - intros H. apply Z.bits_inj'. intros j Hj. rewrite Z.bits_0.
    destruct (Z.lt_ge_cases j (bits T)) as [Hlt|Hge].
    + apply H. lia.
    + eapply in_range_testbit_high; [exact Hv|lia].
  - intros -> j _. apply Z.bits_0.
Qed.

Lemma PopCount_bounds_witness :
  0 <= PopCount false uint32_t 4294967295 <= bits uint32_t ∧
  (PopCount false uint32_t 4294967295 = 0 ↔ 4294967295 = 0).
Proof.
  apply (PopCount_bounds false uint32_t 4294967295).
  unfold in_range. vm_compute. split; [discriminate|reflexivity].
Defined.

(** X11. The comparison of the generator is a strict total order: nothing
    is before itself, it is transitive, and of two different numbers one is
    before the other. *)
Theorem TopologicalCompare_strict_total_order sse4_1 T :
  (∀ a, TopologicalCompare sse4_1 T a a = false) ∧
  (∀ a b c, TopologicalCompare sse4_1 T a b = true →
            TopologicalCompare sse4_1 T b c = true →
            TopologicalCompare sse4_1 T a c = true) ∧
  (∀ a b, a ≠ b → TopologicalCompare sse4_1 T a b = true ∨
                  TopologicalCompare sse4_1 T b a = true).
Proof.
  unfold TopologicalCompare. split; [|split].
  - intros a. rewrite Z.eqb_refl. apply Z.ltb_irrefl.
  - intros a b c.
    destruct (Z.eqb_spec (PopCount sse4_1 T a) (PopCount sse4_1 T b)),
             (Z.eqb_spec (PopCount sse4_1 T b) (PopCount sse4_1 T c)),
             (Z.eqb_spec (PopCount sse4_1 T a) (PopCount sse4_1 T c));
      rewrite ?Z.ltb_lt; lia.
  - intros a b Hne.
    destruct (Z.eqb_spec (PopCount sse4_1 T a) (PopCount sse4_1 T b)),
             (Z.eqb_spec (PopCount sse4_1 T b) (PopCount sse4_1 T a));
      rewrite ?Z.ltb_lt; lia.
Qed.

Lemma TopologicalCompare_strict_total_order_witness :
  TopologicalCompare true uint32_t 2 3 = true ∧
  (TopologicalCompare true uint32_t 1 2 = true ∨
   TopologicalCompare true uint32_t 2 1 = true).
Proof.
  split.
  - apply (proj1 (proj2 (TopologicalCompare_strict_total_order true uint32_t)) 2 1 3);
      reflexivity.
  - apply (proj2 (proj2 (TopologicalCompare_strict_total_order true uint32_t)) 1 2).
    discriminate.
Defined.

(** X12. A state comes before every state obtained from it by setting one
    of its clear bits: in the order of the generator a vertex precedes the
    neighbours one level further from the corner 0. *)
Theorem TopologicalCompare_parent_first sse4_1 T v i :
  in_range T v → 0 <= i < bits T → Z.testbit v i = false →
  TopologicalCompare sse4_1 T v (set_bit v i 1) = true.
Proof.
  intros Hv Hi Hclear. unfold TopologicalCompare.
  rewrite (PopCount_set_bit sse4_1 T v i 1) by assumption.
  rewrite Hclear. simpl.
  destruct (Z.eqb_spec (PopCount sse4_1 T v) (PopCount sse4_1 T v + 1 - 0)); [lia|].
  apply Z.ltb_lt. lia.
Qed.

Lemma TopologicalCompare_parent_first_witness :
  TopologicalCompare true uint32_t 5 (set_bit 5 1 1) = true.
Proof.
  apply (TopologicalCompare_parent_first true uint32_t 5 1).
  - unfold in_range. vm_compute. split; [discriminate|reflexivity].
  - simpl. lia.
  - reflexivity.
Defined.

(** ** The mirror colouring: its pattern and its edges *)

Lemma double_le_pow2 n : 1 <= n → 2 * n <= 2 ^ n.
Proof.
  intros Hn. pose proof (Z.pow_gt_lin_r 2 (n - 1)) as H.
  replace n with (Z.succ (n - 1)) at 2 by lia.
  rewrite Z.pow_succ_r by lia. lia.
Qed.

(** X13. The mirror colouring is the identity on the states below [ndim],
    so it uses every colour; within the first cycle it is symmetric about
    the middle of the cycle; and it repeats with period [2 * ndim]. *)
Theorem MirrorAssignment_pattern T ndim state :
  1 <= ndim < bits T → 0 <= state < 2 ^ ndim →
  (state < ndim → color_at T {| ndim_ := ndim |} state = Ok state) ∧
  (state < 2 * ndim →
   color_at T {| ndim_ := ndim |} (2 * ndim - 1 - state) =
   color_at T {| ndim_ := ndim |} state) ∧
  (state + 2 * ndim < 2 ^ ndim →
   color_at T {| ndim_ := ndim |} (state + 2 * ndim) =
   color_at T {| ndim_ := ndim |} state).
Proof.
  intros Hn Hs. pose proof (double_le_pow2 ndim ltac:(lia)) as Hd.
  unfold color_at, mirror_coloring. split; [|split].
  - intros Hlt. rewrite MirrorAssignment_at_spec by assumption.
    unfold mirror_closed_form. cbv zeta. rewrite Z.mod_small by lia.
    destruct (Z.ltb_spec state ndim); [reflexivity|lia].
  - intros Hlt. rewrite !MirrorAssignment_at_spec by first [assumption|lia].
    unfold mirror_closed_form. cbv zeta. rewrite !Z.mod_small by lia.
    destruct (Z.ltb_spec state ndim), (Z.ltb_spec (2 * ndim - 1 - state) ndim);
      f_equal; lia.
  - intros Hlt. rewrite !MirrorAssignment_at_spec by first [assumption|lia].
    unfold mirror_closed_form. cbv zeta.
    replace (state + 2 * ndim) with (state + 1 * (2 * ndim)) by lia.
    rewrite Z.mod_add by lia. reflexivity.
Qed.

Lemma MirrorAssignment_pattern_witness :
  (1 < 3 → color_at uint64_t {| ndim_ := 3 |} 1 = Ok 1) ∧
  (1 < 2 * 3 →
   color_at uint64_t {| ndim_ := 3 |} (2 * 3 - 1 - 1) =
   color_at uint64_t {| ndim_ := 3 |} 1) ∧
  (1 + 2 * 3 < 2 ^ 3 →
   color_at uint64_t {| ndim_ := 3 |} (1 + 2 * 3) =
   color_at uint64_t {| ndim_ := 3 |} 1).
Proof. apply (MirrorAssignment_pattern uint64_t 3 1); simpl; lia. Defined.

(** X14. Where the mirror colouring gives no colour: a state outside the
    cube stops on the assertion; a dimension of the width or more is an
    undefined shift; and in dimension 0 the only state of the cube passes
    the assertion and is then divided by zero. *)
Theorem MirrorAssignment_no_colour T ndim state :
  (0 <= ndim < bits T → 2 ^ ndim <= state →
   color_at T {| ndim_ := ndim |} state = Fail AssertionFailed) ∧
  (bits T <= ndim →
   color_at T {| ndim_ := ndim |} state = Fail UndefinedBehaviour) ∧
  (ndim = 0 → state < 1 →
   color_at T {| ndim_ := ndim |} state = Fail UndefinedBehaviour).
Proof.
  pose proof (bits_pos T) as Hp.
  unfold color_at, mirror_coloring. split; [|split].
  - apply MirrorAssignment_at_outside.
  - intros Hn. unfold MirrorAssignment_at, shl. simpl ndim_.
    destruct (Z.ltb_spec ndim (bits T)); [lia|reflexivity].
  - intros -> Hs. unfold MirrorAssignment_at. simpl ndim_.
    rewrite shl_1_spec by lia. rewrite bind_Ok. unfold assert.
    change (2 ^ 0) with 1.
    destruct (Z.ltb_spec state 1); [|lia]. rewrite bind_Ok.
    unfold umul. rewrite wrap_small by (apply small_in_range; simpl; lia).
    reflexivity.
Qed.

Lemma MirrorAssignment_no_colour_witness :
  color_at uint32_t {| ndim_ := 2 |} 4 = Fail AssertionFailed ∧
  color_at uint32_t {| ndim_ := 32 |} 0 = Fail UndefinedBehaviour ∧
  color_at uint32_t {| ndim_ := 0 |} 0 = Fail UndefinedBehaviour.
Proof.
  split; [|split].
  - apply (proj1 (MirrorAssignment_no_colour uint32_t 2 4)); simpl; lia.
  - apply (proj1 (proj2 (MirrorAssignment_no_colour uint32_t 32 0))). simpl. lia.
  - apply (proj2 (proj2 (MirrorAssignment_no_colour uint32_t 0 0))); [reflexivity|lia].
Defined.

(** ** The validator: what its count means *)

Lemma popcnt_full w m :
  popcnt w m = Z.of_nat w ↔ ∀ j, 0 <= j < Z.of_nat w → Z.testbit m j = true.
Proof.
  induction w as [|w IH].
  - split; [intros _ j Hj; lia|intros _; reflexivity].
  - rewrite popcnt_S. pose proof (popcnt_bounds w m) as Hb. split.
    + intros Hfull j Hj.
      destruct (Z.testbit m (Z.of_nat w)) eqn:Hw; simpl in Hfull; [|lia].
      destruct (Z.eq_dec j (Z.of_nat w)) as [->|Hne]; [exact Hw|].
      apply IH; lia.
    + intros Hall. rewrite (Hall (Z.of_nat w)) by lia.
      rewrite (proj2 IH); [simpl; lia|]. intros j Hj. apply Hall. lia.
Qed.

Lemma popcnt_low w n m :
  (n <= w)%nat →
  (∀ j, Z.of_nat n <= j < Z.of_nat w → Z.testbit m j = false) →
  popcnt w m = popcnt n m.
Proof.
  intros Hnw Hhigh. replace w with (n + (w - n))%nat by lia.
  rewrite popcnt_app.
  rewrite (proj2 (popcnt_zero (w - n) (Z.shiftr m (Z.of_nat n)))); [lia|].
  intros j Hj. rewrite Z.shiftr_spec by lia. apply Hhigh. lia.
Qed.

Lemma testbit_seen_upto color v k c :
  0 <= k → 0 <= color v →
  (∀ i, 0 <= i < k → 0 <= color (neighbour v i)) →
  Z.testbit (seen_upto color v k) c = true ↔
  color v = c ∨ ∃ i, 0 <= i < k ∧ color (neighbour v i) = c.
Proof.
  intros Hk Hv. pattern k. apply natlike_ind; [| |exact Hk].
  - intros _. unfold seen_upto. simpl. rewrite Z.shiftl_1_l, Z.pow2_bits_eqb by lia.
    rewrite Z.eqb_eq. split; [intros ->; left; reflexivity|].
    intros [->|(i & Hi & _)]; [reflexivity|lia].
  - intros j Hj IH Hc. rewrite <- Z.add_1_r, seen_upto_succ by exact Hj.
    rewrite Z.lor_spec, orb_true_iff, IH by (intros i Hi; apply Hc; lia).
    rewrite Z.shiftl_1_l, Z.pow2_bits_eqb, Z.eqb_eq by (apply Hc; lia).
    split.
    + intros [[Hcv|(i & Hi & Hci)]|Hcj].
      * left. exact Hcv.
      * right. exists i. split; [lia|exact Hci].
      * right. exists j. split; [lia|exact Hcj].
    + intros [Hcv|(i & Hi & Hci)]; [left; left; exact Hcv|].
      destruct (Z.eq_dec i j) as [->|Hne]; [right; exact Hci|].
      left. right. exists i. split; [lia|exact Hci].
Qed.

(** X15. The meaning of the test of the validator.  When the colours on a
    state and its neighbours lie in [0 .. ndim-1], the bit vector built for
    the state has bit [c] set exactly when colour [c] occurs there, and the
    count of its bits is [ndim] exactly when every colour occurs on the state
    or on one of its neighbours. *)
Theorem colors_seen_complete {C : Type} `{ColorAssignment C}
  sse4_1 T (coloring : C) (color : Z → Z) ndim v :
  1 <= ndim < bits T → 0 <= v < 2 ^ ndim →
  describes T ndim coloring color v →
  ∃ mask,
    colors_seen_at T coloring ndim v = Ok mask ∧
    (∀ c, Z.testbit mask c = true ↔
          ∃ x, x ∈ closed_neighbourhood ndim v ∧ color x = c) ∧
    (PopCount sse4_1 T mask = ndim ↔
     ∀ c, 0 <= c < ndim → ∃ x, x ∈ closed_neighbourhood ndim v ∧ color x = c).
Proof.
  intros Hn Hv Hdesc. exists (seen_mask color ndim v).
  assert (0 <= color v < ndim) as Hcv
    by (apply Hdesc, elem_of_closed_neighbourhood; left; reflexivity).
  assert (∀ i, 0 <= i < ndim → 0 <= color (neighbour v i) < ndim) as Hnb.
  { intros i Hi. apply Hdesc, elem_of_closed_neighbourhood. right. exists i.
    split; [exact Hi|reflexivity]. }
  assert (∀ c, Z.testbit (seen_mask color ndim v) c = true ↔
               ∃ x, x ∈ closed_neighbourhood ndim v ∧ color x = c) as Hbits.
  { intros c. unfold seen_mask.
    rewrite testbit_seen_upto by first [lia|intros i Hi; apply Hnb; lia].
    split.
    - intros [Hc|(i & Hi & Hc)].
      + exists v. split; [apply elem_of_closed_neighbourhood; left; reflexivity|exact Hc].
      + exists (neighbour v i). split; [|exact Hc].
        apply elem_of_closed_neighbourhood. right. exists i. split; [exact Hi|reflexivity].
    - intros (x & Hx & Hc). apply elem_of_closed_neighbourhood in Hx.
      destruct Hx as [->|(i & Hi & ->)]; [left; exact Hc|].
      right. exists i. split; [exact Hi|exact Hc]. }
  split; [apply (colors_seen_at_spec T ndim Hn coloring color v Hv Hdesc)|].
  split; [exact Hbits|].
  rewrite PopCount_popcnt by (eapply (seen_mask_in_range T ndim Hn), Hdesc).
  assert (0 <= seen_mask color ndim v < 2 ^ ndim) as Hrange
    by (apply seen_upto_range; first [lia|exact Hnb]).
  rewrite (popcnt_low _ (Z.to_nat ndim)); [|lia|].
  - replace (popcnt (Z.to_nat ndim) (seen_mask color ndim v) = ndim)
      with (popcnt (Z.to_nat ndim) (seen_mask color ndim v) = Z.of_nat (Z.to_nat ndim))
      by (rewrite Z2Nat.id by lia; reflexivity).
    rewrite popcnt_full, Z2Nat.id by lia. split.
    + intros Hall c Hc. apply Hbits, Hall, Hc.
    + intros Hall c Hc. apply Hbits, Hall, Hc.
  - intros j Hj. apply (proj1 (lt_pow2_testbit ndim (seen_mask color ndim v)
                                    ltac:(lia) (proj1 Hrange)));
      [apply Hrange|lia].
Qed.

Lemma colors_seen_complete_witness :
  ∃ mask,
    colors_seen_at uint32_t [0; 1; 1; 0] 2 0 = Ok mask ∧
    (∀ c, Z.testbit mask c = true ↔
          ∃ x, x ∈ closed_neighbourhood 2 0 ∧ color_of [0; 1; 1; 0] x = c) ∧
    (PopCount true uint32_t mask = 2 ↔
     ∀ c, 0 <= c < 2 → ∃ x, x ∈ closed_neighbourhood 2 0 ∧ color_of [0; 1; 1; 0] x = c).
Proof.
  apply (colors_seen_complete true uint32_t [0; 1; 1; 0] (color_of [0; 1; 1; 0]) 2 0).
  - simpl. lia.
  - simpl. lia.
  - intros x Hx. vm_compute in Hx.
    repeat (apply elem_of_cons in Hx as [->|Hx]; [vm_compute; repeat split; congruence|]).
    apply elem_of_nil in Hx. destruct Hx.
Defined.

(** ** The validator: colours beyond the palette, builds and variants *)

Lemma bind_inv {A B : Type} (m : result A) (f : A → result B) y :
  m ≫= f = Ok y → ∃ x, m = Ok x ∧ f x = Ok y.
Proof. destruct m as [x|e]; [intros Hf; exists x; auto|discriminate]. Qed.

Lemma for_each_preserves {St : Type} (P : St → Prop) (l : list Z)
  (body : Z → St → result St) s s' :
  (∀ i t t', i ∈ l → P t → body i t = Ok t' → P t') →
  P s → for_each l body s = Ok s' → P s'.
Proof.
  revert s. induction l as [|i l IH]; intros s Hstep Hs Hrun.
  - injection Hrun as <-. exact Hs.
  - simpl in Hrun. apply bind_inv in Hrun as (t & Hi & Hrun).
    apply (IH t); [|eapply Hstep; [left|exact Hs|exact Hi]|exact Hrun].
    intros j u u' Hj. apply Hstep. right. exact Hj.
Qed.

Lemma wrap_in_range T z : in_range T (wrap T z).
Proof. apply Z.mod_pos_bound, modulus_pos. Qed.

Lemma SetBit_in_range T x idx b y :
  in_range T x → SetBit T x idx b = Ok y → in_range T y.
Proof.
  intros Hx. unfold SetBit, Set_, Setter_assign, assert, shl.
  destruct (idx <? bits T) eqn:Hidx; simpl; [|discriminate].
  rewrite Hidx. simpl. intros [= <-].
  pose proof (wrap_in_range T (Z.shiftl (Z.land b 1) idx)) as Hw.
  pose proof (wrap_in_range T (Z.shiftl 1 idx)) as Hm.
  apply testbit_in_range.
  - apply Z.lor_nonneg. split; [|apply Hw].
    apply Z.land_nonneg. left. apply Hx.
  - intros j Hj. rewrite Z.lor_spec, Z.land_spec.
    rewrite (in_range_testbit_high T x j Hx Hj).
    rewrite (in_range_testbit_high T _ j Hw Hj). reflexivity.
Qed.

(** The bit vector of the colours seen is a value of [NumberType]. *)
Lemma colors_seen_at_in_range {C : Type} `{ColorAssignment C} T (coloring : C)
  ndim v mask :
  colors_seen_at T coloring ndim v = Ok mask → in_range T mask.
Proof.
  unfold colors_seen_at. intros Hrun.
  apply bind_inv in Hrun as (c & _ & Hrun).
  apply bind_inv in Hrun as (m0 & Hm0 & Hrun).
  apply SetBit_in_range in Hm0; [|apply small_in_range; lia].
  revert Hrun. unfold for_range. apply for_each_preserves; [|exact Hm0].
  intros i t t' _ Ht Hbody.
  apply bind_inv in Hbody as (g & _ & Hbody).
  apply bind_inv in Hbody as (nb & _ & Hbody).
  apply bind_inv in Hbody as (c' & _ & Hbody).
  eapply SetBit_in_range; eassumption.
Qed.

Lemma Validate_states_step {C : Type} `{ColorAssignment C} sse4_1 T (coloring : C)
  ndim n_colors v states :
  Validate_states sse4_1 T coloring ndim n_colors (v :: states) =
  (colors_seen ← colors_seen_at T coloring ndim v;
   if negb (PopCount sse4_1 T colors_seen =? n_colors) then
     d ← diagnostic sse4_1 T ndim v colors_seen n_colors; Ok (false, d)
   else Validate_states sse4_1 T coloring ndim n_colors states).
Proof. reflexivity. Qed.

Lemma PopCount_build sse4_1 sse4_1' T value :
  in_range T value → PopCount sse4_1 T value = PopCount sse4_1' T value.
Proof. intros Hv. rewrite !PopCount_popcnt by exact Hv. reflexivity. Qed.

(** X16. The verdict and the text of the validator do not depend on how
    the program was built: with the SSE4.1 instruction or with the portable
    bit count, on every colouring and for every dimension, failures
    included. *)
Theorem ValidateColoring_build_independent {C : Type} `{ColorAssignment C}
  T (coloring : C) ndim :
  ValidateColoring true T coloring ndim = ValidateColoring false T coloring ndim.
Proof.
  unfold ValidateColoring.
  destruct (GetNumberOfStates T ndim) as [n_states|e]; [|reflexivity].
  rewrite !bind_Ok. generalize (seqZ 0 n_states). intros states.
  induction states as [|v states IH]; [reflexivity|].
  rewrite !Validate_states_step.
  destruct (colors_seen_at T coloring ndim v) as [mask|e] eqn:Hmask; [|reflexivity].
  rewrite !bind_Ok. apply colors_seen_at_in_range in Hmask.
  unfold diagnostic. rewrite (PopCount_build true false T mask Hmask), IH.
  reflexivity.
Qed.

Lemma cc_diagnostic_ok T colors_seen n_colors :
  ∃ d, devils_checkerboard.diagnostic T colors_seen n_colors = Ok d.
Proof.
  unfold devils_checkerboard.diagnostic.
  generalize (PopCount true T colors_seen). intros p.
  eexists. vm_compute. reflexivity.
Qed.

Lemma cc_Validate_states_step T coloring ndim n_colors v states :
  devils_checkerboard.Validate_states T coloring ndim n_colors (v :: states) =
  (colors_seen ← colors_seen_at T coloring ndim v;
   if negb (PopCount true T colors_seen =? n_colors) then
     d ← devils_checkerboard.diagnostic T colors_seen n_colors; Ok (false, d)
   else devils_checkerboard.Validate_states T coloring ndim n_colors states).
Proof. reflexivity. Qed.

(** X17. The validator of [devils_checkerboard.cc] and the generic one give
    the same verdict, or stop on the same failure, on every vector and for
    every dimension; they differ in the text of the diagnostic only. *)
Theorem ValidateColoring_variants_agree sse4_1 T (coloring : list Z) ndim :
  fst <$> devils_checkerboard.ValidateColoring T coloring ndim =
  fst <$> ValidateColoring sse4_1 T coloring ndim.
Proof.
  unfold devils_checkerboard.ValidateColoring, ValidateColoring, GetNumberOfColors.
  destruct (GetNumberOfStates T ndim) as [n_states|e]; [|reflexivity].
  rewrite !bind_Ok. generalize (seqZ 0 n_states). intros states.
  induction states as [|v states IH]; [reflexivity|].
  rewrite Validate_states_step, cc_Validate_states_step.
  destruct (colors_seen_at T coloring ndim v) as [mask|e] eqn:Hmask; [|reflexivity].
  rewrite !bind_Ok. apply colors_seen_at_in_range in Hmask.
  rewrite (PopCount_build sse4_1 true T mask Hmask).
  destruct (negb (PopCount true T mask =? ndim)); [|exact IH].
  destruct (cc_diagnostic_ok T mask ndim) as [d ->].
  destruct (diagnostic_ok sse4_1 T ndim v mask ndim) as [d' ->].
  reflexivity.
Qed.

Lemma PopCount_0 sse4_1 T : PopCount sse4_1 T 0 = 0.
Proof. destruct sse4_1, T; reflexivity. Qed.

(** X18. How the validator behaves at the first state when the colouring
    is not a colouring of the cube.  A colour that cannot be read stops the
    validator with the failure of the read; a colour of the width or more
    stops it on the assertion of [Set]; and in dimension 0 the validator
    rejects whatever the colour is, having seen one colour and expecting
    none. *)
Theorem ValidateColoring_first_state {C : Type} `{ColorAssignment C}
  sse4_1 T (coloring : C) ndim :
  0 <= ndim < bits T →
  (∀ e, color_at T coloring 0 = Fail e →
        ValidateColoring sse4_1 T coloring ndim = Fail e) ∧
  (∀ c, color_at T coloring 0 = Ok c → bits T <= c →
        ValidateColoring sse4_1 T coloring ndim = Fail AssertionFailed) ∧
  (∀ c, ndim = 0 → color_at T coloring 0 = Ok c → 0 <= c < bits T →
        ∃ d, ValidateColoring sse4_1 T coloring ndim = Ok (false, d)).
Proof.
  intros Hn.
  assert (0 < 2 ^ ndim) as Hpos by (apply Z.pow_pos_nonneg; lia).
  unfold ValidateColoring. rewrite GetNumberOfStates_spec, bind_Ok by exact Hn.
  rewrite seqZ_cons, Validate_states_step by exact Hpos.
  unfold colors_seen_at. split; [|split].
  - intros e ->. reflexivity.
  - intros c -> Hc. rewrite bind_Ok. unfold SetBit, Set_, assert.
    destruct (Z.ltb_spec c (bits T)); [lia|reflexivity].
  - intros c -> -> Hc. rewrite bind_Ok.
    rewrite SetBit_spec by first [apply small_in_range; lia|exact Hc].
    rewrite bind_Ok. change (for_range 0 0 _ ?s) with (Ok s). rewrite bind_Ok.
    rewrite PopCount_set_bit by first [apply small_in_range; lia|exact Hc].
    rewrite PopCount_0, Z.bits_0. simpl negb. cbv iota.
    destruct (diagnostic_ok sse4_1 T 0 0 (set_bit 0 c 1) 0) as [d ->].
    exists d. reflexivity.
Qed.

Lemma ValidateColoring_first_state_witness :
  (∀ e, color_at uint32_t ([] : list Z) 0 = Fail e →
        ValidateColoring true uint32_t ([] : list Z) 2 = Fail e) ∧
  (∀ c, color_at uint32_t ([] : list Z) 0 = Ok c → bits uint32_t <= c →
        ValidateColoring true uint32_t ([] : list Z) 2 = Fail AssertionFailed) ∧
  (∀ c, 2 = 0 → color_at uint32_t ([] : list Z) 0 = Ok c → 0 <= c < bits uint32_t →
        ∃ d, ValidateColoring true uint32_t ([] : list Z) 2 = Ok (false, d)).
Proof. apply (ValidateColoring_first_state true uint32_t ([] : list Z) 2). simpl. lia. Defined.

(** ** The validator: the count is the number of distinct colours *)

Lemma popcnt_filter w m :
  popcnt w m =
  Z.of_nat (length (filter (λ i : nat, Z.testbit m (Z.of_nat i) = true) (seq 0 w))).
Proof.
  induction w as [|w IH]; [reflexivity|].
  rewrite popcnt_S, IH, seq_S, filter_app, length_app, Nat2Z.inj_add.
  f_equal. change (0 + w)%nat with w. rewrite filter_cons, filter_nil.
  destruct (decide (Z.testbit m (Z.of_nat w) = true)) as [Hb|Hb].
  - rewrite Hb. reflexivity.
  - apply not_true_is_false in Hb. rewrite Hb. reflexivity.
Qed.

Lemma popcnt_distinct w m (colours : list Z) :
  (∀ c, c ∈ colours → 0 <= c < Z.of_nat w) →
  (∀ c, 0 <= c → (Z.testbit m c = true ↔ c ∈ colours)) →
  popcnt w m = Z.of_nat (length (remove_dups colours)).
Proof.
  intros Hrange Hbits. rewrite popcnt_filter. f_equal.
  rewrite <- (length_fmap Z.of_nat). apply Permutation_length.
  apply NoDup_Permutation.
  - apply (NoDup_fmap_2 Z.of_nat), NoDup_filter, NoDup_seq.
  - apply NoDup_remove_dups.
  - intros x. rewrite list_elem_of_fmap, elem_of_remove_dups. split.
    + intros (i & -> & Hi). apply list_elem_of_filter in Hi as [Hi _].
      apply Hbits; [lia|exact Hi].
    + intros Hx. exists (Z.to_nat x). pose proof (Hrange x Hx) as Hr.
      split; [lia|]. apply list_elem_of_filter. split.
      * rewrite Z2Nat.id by lia. apply Hbits; [lia|exact Hx].
      * apply elem_of_seq. lia.
Qed.

Section ValidateWide.
Context {C : Type} `{ColorAssignment C}.
Variable T : NumberType.
Variable ndim : Z.
Hypothesis ndim_range : 0 <= ndim < bits T.
Variable coloring : C.
Variable color : Z → Z.
Variable v : Z.
Hypothesis v_range : 0 <= v < 2 ^ ndim.
Hypothesis colours :
  ∀ x, x ∈ closed_neighbourhood ndim v →
       color_at T coloring x = Ok (color x) ∧ 0 <= color x < bits T.

Lemma colors_seen_at_wide :
  colors_seen_at T coloring ndim v = Ok (seen_mask color ndim v).
Proof.
  unfold colors_seen_at.
  assert (in_range T v) as Hvr by (eapply in_range_of_cube; [|exact v_range]; lia).
  destruct (colours v) as [-> Hcv]; [apply elem_of_closed_neighbourhood; left; reflexivity|].
  rewrite bind_Ok, SetBit_spec by first [apply small_in_range; lia|lia].
  rewrite bind_Ok, set_bit_1, Z.lor_0_l, <- Z.shiftl_1_l by lia.
  assert (∀ i, 0 <= i < ndim →
            color_at T coloring (neighbour v i) = Ok (color (neighbour v i)) ∧
            0 <= color (neighbour v i) < bits T) as Hnb.
  { intros i Hi. apply colours, elem_of_closed_neighbourhood. right. exists i.
    split; [exact Hi|reflexivity]. }
  change (Z.shiftl 1 (color v)) with (seen_upto color v 0).
  unfold seen_mask. apply (for_range_fun (seen_upto color v)); [lia|].
  intros k Hk. rewrite Get_spec, bind_Ok by lia.
  assert ((if negb (Z.b2z (Z.testbit v k) =? 0)
           then SetBit T v k 0 else SetBit T v k 1) = Ok (neighbour v k)) as ->.
  { unfold neighbour. rewrite Z.shiftl_1_l, <- set_bit_flip by lia.
    destruct (Z.testbit v k); simpl; apply SetBit_spec; (exact Hvr || lia). }
  rewrite bind_Ok. destruct (Hnb k Hk) as [-> Hck]. rewrite bind_Ok.
  rewrite SetBit_spec; [|apply (in_range_of_cube T (bits T)); [lia|]|lia].
  - rewrite set_bit_1, seen_upto_succ, Z.shiftl_1_l by lia. reflexivity.
  - apply seen_upto_range; try lia. intros i Hi. apply Hnb. lia.
Qed.

Lemma seen_mask_wide_range : in_range T (seen_mask color ndim v).
Proof.
  apply (in_range_of_cube T (bits T)); [lia|].
  apply seen_upto_range; try lia.
  - apply colours, elem_of_closed_neighbourhood. left. reflexivity.
  - intros i Hi. apply colours, elem_of_closed_neighbourhood. right. exists i.
    split; [lia|reflexivity].
Qed.

Lemma testbit_seen_mask c :
  Z.testbit (seen_mask color ndim v) c = true ↔
  c ∈ color <$> closed_neighbourhood ndim v.
Proof.
  unfold seen_mask. rewrite testbit_seen_upto; [|lia| |].
  - rewrite list_elem_of_fmap. split.
    + intros [Hc|(i & Hi & Hc)].
      * exists v. split; [symmetry; exact Hc|].
        apply elem_of_closed_neighbourhood. left. reflexivity.
      * exists (neighbour v i). split; [symmetry; exact Hc|].
        apply elem_of_closed_neighbourhood. right. exists i. split; [exact Hi|reflexivity].
    + intros (x & -> & Hx). apply elem_of_closed_neighbourhood in Hx.
      destruct Hx as [->|(i & Hi & ->)]; [left; reflexivity|].
      right. exists i. split; [exact Hi|reflexivity].
  - apply colours, elem_of_closed_neighbourhood. left. reflexivity.
  - intros i Hi. apply colours, elem_of_closed_neighbourhood. right. exists i.
    split; [lia|reflexivity].
Qed.
End ValidateWide.

(** X19. The count the validator compares with [ndim] is the number of
    distinct colours on the state and its neighbours.  This holds for
    colours anywhere below the width of the integer type, not only for
    those of the palette [0 .. ndim-1]: the validator does not check that the
    colours belong to the palette. *)
Theorem colors_seen_counts_distinct {C : Type} `{ColorAssignment C}
  sse4_1 T (coloring : C) (color : Z → Z) ndim v :
  0 <= ndim < bits T → 0 <= v < 2 ^ ndim →
  (∀ x, x ∈ closed_neighbourhood ndim v →
        color_at T coloring x = Ok (color x) ∧ 0 <= color x < bits T) →
  ∃ mask,
    colors_seen_at T coloring ndim v = Ok mask ∧
    PopCount sse4_1 T mask =
    Z.of_nat (length (remove_dups (color <$> closed_neighbourhood ndim v))).
Proof.
  intros Hn Hv Hcol. exists (seen_mask color ndim v).
  split; [apply colors_seen_at_wide; assumption|].
  rewrite PopCount_popcnt by (eapply seen_mask_wide_range; eassumption).
  apply popcnt_distinct.
  - intros c Hc. apply list_elem_of_fmap in Hc as (x & -> & Hx).
    pose proof (bits_pos T). rewrite Z2Nat.id by lia. apply Hcol, Hx.
  - intros c _. eapply testbit_seen_mask; eassumption.
Qed.

Lemma colors_seen_counts_distinct_witness :
  ∃ mask,
    colors_seen_at uint32_t [0; 7; 7; 0] 2 0 = Ok mask ∧
    PopCount false uint32_t mask =
    Z.of_nat (length (remove_dups (color_of [0; 7; 7; 0] <$> closed_neighbourhood 2 0))).
Proof.
  apply (colors_seen_counts_distinct false uint32_t [0; 7; 7; 0] (color_of [0; 7; 7; 0]) 2 0).
  - simpl. lia.
  - simpl. lia.
  - intros x Hx. vm_compute in Hx.
    repeat (apply elem_of_cons in Hx as [->|Hx]; [vm_compute; repeat split; congruence|]).
    apply elem_of_nil in Hx. destruct Hx.
Defined.

(** ** Colouring in topological order: the schedule *)

Lemma before_irrefl sse4_1 T a : ¬ before sse4_1 T a a.
Proof.
  unfold before, TopologicalCompare. rewrite Z.eqb_refl, Z.ltb_irrefl. discriminate.
Qed.

Lemma before_trans sse4_1 T a b c :
  before sse4_1 T a b → before sse4_1 T b c → before sse4_1 T a c.
Proof.
  unfold before, TopologicalCompare.
  destruct (Z.eqb_spec (PopCount sse4_1 T a) (PopCount sse4_1 T b)),
           (Z.eqb_spec (PopCount sse4_1 T b) (PopCount sse4_1 T c)),
           (Z.eqb_spec (PopCount sse4_1 T a) (PopCount sse4_1 T c));
    rewrite ?Z.ltb_lt; lia.
Qed.

Lemma before_asym sse4_1 T a b : before sse4_1 T a b → ¬ before sse4_1 T b a.
Proof. intros Hab Hba. apply (before_irrefl sse4_1 T a). eapply before_trans; eassumption. Qed.

Lemma before_child sse4_1 T v i :
  in_range T v → 0 <= i < bits T → Z.testbit v i = false →
  before sse4_1 T v (set_bit v i 1).
Proof.
  intros Hv Hi Hclear. unfold before, TopologicalCompare.
  rewrite (PopCount_set_bit sse4_1 T v i 1) by assumption.
  rewrite Hclear. simpl Z.b2z.
  destruct (Z.eqb_spec (PopCount sse4_1 T v) (PopCount sse4_1 T v + 1 - 0)); [lia|].
  apply Z.ltb_lt. lia.
Qed.

Lemma elem_of_set_insert (lt : Z → Z → bool) x s y :
  y ∈ set_insert lt x s → y = x ∨ y ∈ s.
Proof.
  induction s as [|z s IH]; simpl.
  - intros Hy. apply list_elem_of_singleton in Hy. left. exact Hy.
  - destruct (lt x z).
    + intros Hy. apply elem_of_cons in Hy as [->|Hy]; [left; reflexivity|right; exact Hy].
    + destruct (lt z x); [|intros Hy; right; exact Hy].
      intros Hy. apply elem_of_cons in Hy as [->|Hy]; [right; left|].
      destruct (IH Hy) as [->|Hin]; [left; reflexivity|right; right; exact Hin].
Qed.

Lemma set_insert_sorted (lt : Z → Z → bool) x s :
  (∀ a b c, lt a b = true → lt b c = true → lt a c = true) →
  StronglySorted (λ a b, lt a b = true) s →
  StronglySorted (λ a b, lt a b = true) (set_insert lt x s).
Proof.
  intros Htrans. induction 1 as [|z s Hs IH Hz]; simpl.
  - repeat constructor.
  - destruct (lt x z) eqn:Hxz.
    + constructor; [constructor; assumption|].
      constructor; [exact Hxz|].
      eapply list.Forall_impl; [exact Hz|]. intros c Hc. eapply Htrans; eassumption.
    + destruct (lt z x) eqn:Hzx; [|constructor; assumption].
      constructor; [exact IH|].
      apply Forall_forall. intros y Hy. apply elem_of_set_insert in Hy as [->|Hy];
        [exact Hzx|]. rewrite Forall_forall in Hz. apply Hz, Hy.
Qed.


Lemma filter_all {A : Type} (P : A → Prop) `{∀ x, Decision (P x)} (l : list A) :
  (∀ x, x ∈ l → P x) → filter P l = l.
Proof.
  induction l as [|a l IH]; intros Hall; [reflexivity|].
  rewrite filter_cons_True by (apply Hall; left).
  rewrite IH; [reflexivity|]. intros x Hx. apply Hall. right. exact Hx.
Qed.

Lemma filter_none {A : Type} (P : A → Prop) `{∀ x, Decision (P x)} (l : list A) :
  (∀ x, x ∈ l → ¬ P x) → filter P l = [].
Proof.
  induction l as [|a l IH]; intros Hnone; [reflexivity|].
  rewrite filter_cons_False by (apply Hnone; left).
  apply IH. intros x Hx. apply Hnone. right. exact Hx.
Qed.

(** In a list sorted by a strict order the position of an element is the
    number of elements before it in the order. *)
Lemma StronglySorted_rank {A : Type} (R : relation A) `{∀ x y, Decision (R x y)}
  l (i : nat) x :
  (∀ a, ¬ R a a) → (∀ a b, R a b → ¬ R b a) →
  StronglySorted R l → l !! i = Some x →
  length (filter (λ u, R u x) l) = i.
Proof.
  intros Hirr Hasym Hs Hi.
  assert (i < length l)%nat as Hlen by (eapply lookup_lt_Some, Hi).
  rewrite <- (take_drop_middle l i x Hi) in Hs |- *.
  apply StronglySorted_app in Hs as (Hcross & _ & Hright).
  apply StronglySorted_cons in Hright as [Hx _]. rewrite Forall_forall in Hx.
  rewrite filter_app, filter_all, (filter_none _ (x :: _)).
  - rewrite app_nil_r. apply length_take_le. lia.
  - intros y Hy. apply elem_of_cons in Hy as [->|Hy]; [apply Hirr|].
    apply Hasym, Hx, Hy.
  - intros y Hy. apply Hcross; [exact Hy|left].
Qed.

Section GenerateSchedule.
Variable sse4_1 : bool.
Variable T : NumberType.
Variable ndim : Z.
Hypothesis ndim_range : 1 <= ndim < bits T.

(** What one visit of a child can do: nothing, or insert the child. *)
Lemma visit_child_cases cs i g g' :
  visit_child sse4_1 T cs i g = Ok g' →
  g' = g ∨
  ∃ child open',
    Get T cs i = Ok 0 ∧ SetBit T cs i 1 = Ok child ∧
    g' = {| queue := set_insert (TopologicalCompare sse4_1 T) child (queue g);
            result_ := result_ g; open := open'; closed := closed g;
            next_color := next_color g;
            events := events g ++ [Inserted child] |}.
Proof.
  unfold visit_child. intros Hrun.
  apply bind_inv in Hrun as (b & Hb & Hrun).
  destruct (Z.eqb_spec b 0) as [->|Hne]; [|left; congruence].
  apply bind_inv in Hrun as (child & Hchild & Hrun).
  apply bind_inv in Hrun as (o & Ho & Hrun).
  destruct o; [left; simpl in Hrun; congruence|]. simpl negb in Hrun. cbv iota in Hrun.
  apply bind_inv in Hrun as (open' & Hopen & Hrun).
  right. exists child, open'. split; [exact Hb|]. split; [exact Hchild|congruence].
Qed.

Lemma visit_child_sched cs i g g' :
  0 <= cs < 2 ^ ndim → 0 <= i < ndim →
  Sched sse4_1 T ndim (Some cs) g →
  visit_child sse4_1 T cs i g = Ok g' →
  Sched sse4_1 T ndim (Some cs) g'.
Proof.
  intros Hcs Hi HS Hrun.
  apply visit_child_cases in Hrun as [->|(child & open' & Hget & Hset & ->)];
    [exact HS|].
  assert (in_range T cs) as Hcsr by (eapply in_range_of_cube; [|exact Hcs]; lia).
  rewrite Get_spec in Hget by lia.
  rewrite SetBit_spec in Hset by first [exact Hcsr|lia].
  injection Hset as <-.
  assert (Z.testbit cs i = false) as Hbit
    by (destruct (Z.testbit cs i); [discriminate Hget|reflexivity]).
  assert (before sse4_1 T cs (set_bit cs i 1)) as Hchild
    by (apply before_child; first [assumption|lia]).
  destruct HS as [Hsorted Hcolours Hnext Hcur].
  constructor; cbn [queue events next_color]; rewrite ?coloured_snoc_Inserted;
    try assumption.
  apply StronglySorted_app in Hsorted as (Hcross & Hcol & Hq).
  apply StronglySorted_app_2; [|exact Hcol|].
  - intros x y Hx Hy. apply elem_of_set_insert in Hy as [->|Hy];
      [|apply Hcross; assumption].
    apply last_Some in Hcur as [l' Hl']. rewrite Hl' in Hx, Hcol.
    apply elem_of_app in Hx as [Hx|Hx].
    + apply before_trans with cs; [|exact Hchild].
      eapply StronglySorted_app_1_elem_of; [exact Hcol|exact Hx|left].
    + apply list_elem_of_singleton in Hx as ->. exact Hchild.
  - apply (set_insert_sorted (TopologicalCompare sse4_1 T)); [|exact Hq].
    intros a b c. apply before_trans.
Qed.

Lemma visit_sched g cs queue' g' :
  Inv ndim None g → Sched sse4_1 T ndim None g → queue g = cs :: queue' →
  visit sse4_1 T ndim ndim cs (popped g queue') = Ok g' →
  Sched sse4_1 T ndim None g'.
Proof.
  intros HI HS Hq Hrun.
  assert (cs ∈ queue g) as Hcsq by (rewrite Hq; apply elem_of_cons; left; reflexivity).
  assert (0 <= cs < 2 ^ ndim) as Hcs
    by (apply (inv_ins_range _ _ _ HI), (inv_split _ _ _ HI); left; exact Hcsq).
  assert (cs ∉ (coloured (events g)).*1) as Hnc by (apply (inv_disj _ _ _ HI), Hcsq).
  pose proof (inv_next _ _ _ HI) as Hnext_range.
  pose proof (bits_le_64 T) as H64.
  unfold visit, popped in Hrun. cbn [result_ closed open next_color events queue] in Hrun.
  apply bind_inv in Hrun as (_ & _ & Hrun).
  apply bind_inv in Hrun as (c & Hc & Hrun).
  apply bind_inv in Hrun as (g1 & Hg1 & Hrun).
  assert (c = false) as ->.
  { destruct c; [|reflexivity]. exfalso. apply Hnc.
    apply (inv_closed _ _ _ HI); [exact Hcs|].
    unfold vec_get in Hc. destruct (closed g !! Z.to_nat cs); congruence. }
  simpl negb in Hg1. cbv iota in Hg1.
  apply bind_inv in Hg1 as (closed' & _ & Hg1).
  apply bind_inv in Hg1 as (result' & _ & Hg1).
  apply bind_inv in Hg1 as (next' & Hnext' & Hg1).
  injection Hg1 as <-.
  rewrite uadd_small in Hnext' by lia. unfold urem in Hnext'.
  destruct (Z.eqb_spec ndim 0) as [|_]; [lia|]. injection Hnext' as <-.
  destruct HS as [Hsorted Hcolours Hnext _].
  assert (Sched sse4_1 T ndim (Some cs)
            {| queue := queue'; result_ := result'; open := open g;
               closed := closed';
               next_color := (next_color g + 1) mod ndim;
               events := events g ++ [Coloured cs (next_color g)] |}) as HS1.
  { constructor; cbn [queue events next_color]; rewrite coloured_snoc_Coloured.
    - rewrite fmap_app, <- app_assoc. rewrite Hq in Hsorted. exact Hsorted.
    - rewrite fmap_app, Hcolours, length_app, Nat2Z.inj_add.
      rewrite seqZ_app, fmap_app by lia. f_equal.
      rewrite Z.add_0_l, Hnext. reflexivity.
    - rewrite Hnext, length_app, Nat2Z.inj_add, Z.add_mod_idemp_l by lia.
      reflexivity.
    - rewrite fmap_app. apply last_snoc. }
  assert (Sched sse4_1 T ndim (Some cs) g') as [Hs' Hc' Hn' _].
  { revert Hrun. unfold for_range. apply for_each_preserves; [|exact HS1].
    intros i t t' Hi Ht. apply elem_of_seqZ in Hi.
    apply visit_child_sched; [exact Hcs|lia|exact Ht]. }
  constructor; [assumption..|exact I].
Qed.

Lemma generate_loop_sched fuel g g' :
  Inv ndim None g → Sched sse4_1 T ndim None g →
  generate_loop sse4_1 T fuel ndim ndim g = Ok g' →
  Sched sse4_1 T ndim None g'.
Proof.
  revert g. induction fuel as [|fuel IH]; intros g HI HS Hrun.
  - simpl in Hrun. destruct (queue g); [congruence|discriminate].
  - simpl in Hrun. destruct (queue g) as [|cs queue'] eqn:Hq; [congruence|].
    destruct (visit_inv sse4_1 T ndim ndim_range g cs queue' HI Hq)
      as (g1 & Hvisit & HI1 & _).
    change (visit sse4_1 T ndim ndim cs _) with
      (visit sse4_1 T ndim ndim cs (popped g queue')) in Hrun.
    rewrite Hvisit, bind_Ok in Hrun.
    apply (IH g1); [exact HI1| |exact Hrun].
    apply (visit_sched g cs queue' g1 HI HS Hq Hvisit).
Qed.

Lemma generate_init_sched g :
  generate_init sse4_1 T (2 ^ ndim) = Ok g → Sched sse4_1 T ndim None g.
Proof.
  unfold generate_init. intros Hrun.
  apply bind_inv in Hrun as (open' & _ & Hrun). injection Hrun as <-.
  constructor; cbn [queue events next_color coloured omap]; try reflexivity.
  simpl. repeat constructor.
Qed.

(** The run of the generator, with what is known at its end. *)
Lemma generate_sched fuel :
  (Z.to_nat (2 ^ ndim) <= fuel)%nat →
  ∃ g, generate sse4_1 T fuel ndim = Ok g ∧ queue g = [] ∧
       Inv ndim None g ∧ Sched sse4_1 T ndim None g.
Proof.
  intros Hfuel.
  destruct (generate_init_inv sse4_1 T ndim ndim_range) as (g0 & Hinit & HI0 & Hm0).
  destruct (generate_loop_inv sse4_1 T ndim ndim_range fuel g0 HI0 ltac:(lia))
    as (g & Hrun & HI & Hq).
  exists g. split; [|split; [exact Hq|split; [exact HI|]]].
  - unfold generate. rewrite GetNumberOfStates_spec by lia.
    rewrite bind_Ok, Hinit, bind_Ok. exact Hrun.
  - eapply generate_loop_sched; [exact HI0| |exact Hrun].
    apply generate_init_sched, Hinit.
Qed.
End GenerateSchedule.

Section GenerateResult.
Variable sse4_1 : bool.
Variable T : NumberType.
Variable ndim : Z.
Hypothesis ndim_range : 1 <= ndim < bits T.
Variable g : generator.
Hypothesis g_inv : Inv ndim None g.
Hypothesis g_sched : Sched sse4_1 T ndim None g.
Hypothesis g_done : queue g = [].

Lemma coloured_cube : (coloured (events g)).*1 ≡ₚ seqZ 0 (2 ^ ndim).
Proof.
  apply NoDup_Permutation; [apply (inv_col_nodup _ _ _ g_inv)|apply NoDup_seqZ|].
  intros x. rewrite elem_of_seqZ. split.
  - intros Hx.
    assert (x ∈ inserted (events g)) as Hin
      by (apply (inv_split _ _ _ g_inv); right; exact Hx).
    apply (inv_ins_range _ _ _ g_inv) in Hin. lia.
  - intros Hx. apply (Inv_all_coloured T ndim ndim_range g x g_inv g_done). lia.
Qed.

Lemma coloured_sorted : StronglySorted (before sse4_1 T) (coloured (events g)).*1.
Proof.
  pose proof (sch_sorted _ _ _ _ _ g_sched) as Hs.
  rewrite g_done, app_nil_r in Hs. exact Hs.
Qed.

Lemma length_coloured : Z.of_nat (length (coloured (events g))) = 2 ^ ndim.
Proof.
  rewrite <- (length_fmap fst), (Permutation_length coloured_cube), length_seqZ.
  pose proof (pow2_ndim_pos T ndim ndim_range). lia.
Qed.

(** The position of a state in the order of colouring is its rank. *)
Lemma coloured_rank (i : nat) v :
  (coloured (events g)).*1 !! i = Some v → rank sse4_1 T ndim v = Z.of_nat i.
Proof.
  intros Hi. unfold rank. f_equal.
  rewrite <- coloured_cube.
  apply (StronglySorted_rank (before sse4_1 T)); [| |apply coloured_sorted|exact Hi].
  - apply before_irrefl.
  - apply before_asym.
Qed.

Lemma coloured_round_robin (i : nat) v c :
  coloured (events g) !! i = Some (v, c) → c = Z.of_nat i mod ndim.
Proof.
  intros Hi.
  assert ((coloured (events g)).*2 !! i = Some c) as Hc
    by (rewrite list_lookup_fmap, Hi; reflexivity).
  rewrite (sch_colours _ _ _ _ _ g_sched), list_lookup_fmap in Hc.
  apply lookup_lt_Some in Hi.
  rewrite lookup_seqZ_lt in Hc by lia. injection Hc as <-. reflexivity.
Qed.

Lemma result_by_rank :
  result_ g = (λ v, rank sse4_1 T ndim v mod ndim) <$> seqZ 0 (2 ^ ndim).
Proof.
  pose proof (pow2_ndim_pos T ndim ndim_range) as Hpos.
  apply list_eq. intros k. rewrite list_lookup_fmap.
  destruct (decide (Z.of_nat k < 2 ^ ndim)) as [Hk|Hk].
  - rewrite lookup_seqZ_lt by exact Hk. rewrite Z.add_0_l. simpl.
    assert (Z.of_nat k ∈ (coloured (events g)).*1) as Hin
      by (rewrite coloured_cube; apply elem_of_seqZ; lia).
    apply list_elem_of_lookup in Hin as [i Hi].
    rewrite (coloured_rank i _ Hi).
    rewrite list_lookup_fmap in Hi.
    destruct (coloured (events g) !! i) as [[v c]|] eqn:Hvc; [|discriminate].
    injection Hi as Hv. simpl in Hv. subst v.
    rewrite <- (coloured_round_robin i _ c Hvc).
    apply list_elem_of_lookup_2 in Hvc.
    apply (inv_col _ _ _ g_inv) in Hvc as [_ Hres].
    rewrite Nat2Z.id in Hres. exact Hres.
  - rewrite lookup_seqZ_ge by lia.
    apply lookup_ge_None. rewrite (inv_len_result _ _ _ g_inv). lia.
Qed.
End GenerateResult.

Lemma GenerateColoring_closed sse4_1 T ndim fuel :
  1 <= ndim < bits T → (Z.to_nat (2 ^ ndim) <= fuel)%nat →
  GenerateColoring sse4_1 T fuel ndim =
  Ok ((λ v, rank sse4_1 T ndim v mod ndim) <$> seqZ 0 (2 ^ ndim)).
Proof.
  intros Hn Hfuel.
  destruct (generate_sched sse4_1 T ndim Hn fuel Hfuel) as (g & Hgen & Hq & HI & HS).
  unfold GenerateColoring. rewrite Hgen.
  rewrite <- (result_by_rank sse4_1 T ndim Hn g HI HS Hq). reflexivity.
Qed.



(** X21. The generator cycles over the colours: the state coloured in
    position [k] (from 0) gets colour [k mod ndim], and that is the colour
    stored for it in the result. *)
Theorem GenerateColoring_round_robin sse4_1 T ndim fuel :
  1 <= ndim < bits T → (Z.to_nat (2 ^ ndim) <= fuel)%nat →
  ∃ g, generate sse4_1 T fuel ndim = Ok g ∧
       GenerateColoring sse4_1 T fuel ndim = Ok (result_ g) ∧
       (coloured (events g)).*2 = (λ k, k mod ndim) <$> seqZ 0 (2 ^ ndim) ∧
       ∀ (k : nat) v c,
         coloured (events g) !! k = Some (v, c) →
         c = Z.of_nat k mod ndim ∧ result_ g !! Z.to_nat v = Some c.
Proof.
  intros Hn Hfuel.
  destruct (generate_sched sse4_1 T ndim Hn fuel Hfuel) as (g & Hgen & Hq & HI & HS).
  exists g. split; [exact Hgen|]. split; [|split].
  - unfold GenerateColoring. rewrite Hgen. reflexivity.
  - rewrite (sch_colours _ _ _ _ _ HS).
    rewrite (length_coloured T ndim Hn g HI Hq). reflexivity.
  - intros k v c Hk. split.
    + apply (coloured_round_robin sse4_1 T ndim g HS k v c Hk).
    + apply list_elem_of_lookup_2 in Hk. apply (inv_col _ _ _ HI) in Hk as [_ Hres].
      exact Hres.
Qed.

Lemma GenerateColoring_round_robin_witness :
  ∃ g, generate false uint64_t 4 2 = Ok g ∧
       GenerateColoring false uint64_t 4 2 = Ok (result_ g) ∧
       (coloured (events g)).*2 = (λ k, k mod 2) <$> seqZ 0 (2 ^ 2) ∧
       ∀ (k : nat) v c,
         coloured (events g) !! k = Some (v, c) →
         c = Z.of_nat k mod 2 ∧ result_ g !! Z.to_nat v = Some c.
Proof. apply (GenerateColoring_round_robin false uint64_t 2 4); simpl; lia. Defined.

(** X22. The array the generator returns, in closed form: the colour of a
    state is its rank in the order of the comparison, that is the number of
    states of the cube that come before it, modulo [ndim]. *)
Theorem GenerateColoring_by_rank sse4_1 T ndim fuel :
  1 <= ndim < bits T → (Z.to_nat (2 ^ ndim) <= fuel)%nat →
  GenerateColoring sse4_1 T fuel ndim =
  Ok ((λ v, rank sse4_1 T ndim v mod ndim) <$> seqZ 0 (2 ^ ndim)).
Proof.
  intros Hn Hfuel.
  destruct (generate_sched sse4_1 T ndim Hn fuel Hfuel) as (g & Hgen & Hq & HI & HS).
  unfold GenerateColoring. rewrite Hgen. change (result_ <$> Ok g) with (Ok (result_ g)).
  f_equal. apply (result_by_rank sse4_1 T ndim Hn g HI HS Hq).
Qed.

Lemma GenerateColoring_by_rank_witness :
  GenerateColoring true uint32_t 8 3 =
  Ok ((λ v, rank true uint32_t 3 v mod 3) <$> seqZ 0 (2 ^ 3)).
Proof. apply (GenerateColoring_by_rank true uint32_t 3 8); simpl; lia. Defined.

Lemma filter_ext_in {A : Type} (P Q : A → Prop) `{∀ x, Decision (P x)}
  `{∀ x, Decision (Q x)} (l : list A) :
  (∀ x, x ∈ l → (P x ↔ Q x)) → filter P l = filter Q l.
Proof.
  induction l as [|a l IH]; intros Hext; [reflexivity|].
  rewrite !filter_cons.
  rewrite IH by (intros x Hx; apply Hext; right; exact Hx).
  destruct (decide (P a)) as [Hp|Hp], (decide (Q a)) as [Hq|Hq]; try reflexivity;
    exfalso; [apply Hq|apply Hp]; apply (Hext a); first [left|assumption].
Qed.

Lemma PopCount_low sse4_1 T v : 0 <= v < 2 ^ 32 → PopCount sse4_1 T v = popcnt 32 v.
Proof.
  intros Hv. rewrite PopCount_popcnt by (apply small_in_range; exact Hv).
  apply popcnt_low; [destruct T; simpl; lia|].
  intros j Hj. apply (proj1 (lt_pow2_testbit 32 v ltac:(lia) (proj1 Hv))); lia.
Qed.

(** X23. The array generated does not depend on the build nor on the
    integer type: for dimensions below 32, the SSE4.1 and the portable
    build, at 32 and at 64 bits, produce the same colouring. *)
Theorem GenerateColoring_build_independent sse4_1 sse4_1' T T' ndim fuel fuel' :
  1 <= ndim < 32 →
  (Z.to_nat (2 ^ ndim) <= fuel)%nat → (Z.to_nat (2 ^ ndim) <= fuel')%nat →
  GenerateColoring sse4_1 T fuel ndim = GenerateColoring sse4_1' T' fuel' ndim.
Proof.
  intros Hn Hfuel Hfuel'.
  rewrite !GenerateColoring_closed by first [assumption|destruct T, T'; simpl; lia].
  f_equal. apply list_fmap_ext. intros k v Hv.
  apply list_elem_of_lookup_2, elem_of_seqZ in Hv.
  assert (2 ^ ndim <= 2 ^ 32) as Hle by (apply Z.pow_le_mono_r; lia).
  unfold rank. do 3 f_equal. apply filter_ext_in. intros u Hu.
  apply elem_of_seqZ in Hu.
  unfold before, TopologicalCompare.
  rewrite !(PopCount_low sse4_1 T), !(PopCount_low sse4_1' T') by lia. reflexivity.
Qed.

Lemma GenerateColoring_build_independent_witness :
  GenerateColoring true uint32_t 8 3 = GenerateColoring false uint64_t 9 3.
Proof.
  apply (GenerateColoring_build_independent true false uint32_t uint64_t 3 8 9);
    simpl; lia.
Defined.

(** X24. Where the generator returns nothing: a dimension of the width or
    more is an undefined shift, and in dimension 0 the first update of the
    next colour is a remainder by zero. *)
Theorem GenerateColoring_undefined sse4_1 T ndim fuel :
  (bits T <= ndim → GenerateColoring sse4_1 T fuel ndim = Fail UndefinedBehaviour) ∧
  (ndim = 0 → (1 <= fuel)%nat →
   GenerateColoring sse4_1 T fuel ndim = Fail UndefinedBehaviour).
Proof.
  split.
  - intros Hn. unfold GenerateColoring, generate, GetNumberOfStates, shl.
    destruct (Z.ltb_spec ndim (bits T)); [lia|reflexivity].
  - intros -> Hfuel. destruct fuel as [|fuel]; [lia|].
    destruct sse4_1, T; reflexivity.
Qed.

Lemma GenerateColoring_undefined_witness :
  GenerateColoring true uint32_t 1 32 = Fail UndefinedBehaviour ∧
  GenerateColoring true uint32_t 1 0 = Fail UndefinedBehaviour.
Proof.
  split.
  - apply (proj1 (GenerateColoring_undefined true uint32_t 32 1)). simpl. lia.
  - apply (proj2 (GenerateColoring_undefined true uint32_t 0 1)); [reflexivity|lia].
Defined.

(** ** The reporter on a vector that is too short *)

(** X25. For the two dimensions that have a diagram, printing a vector
    with fewer entries than the cube has states reads the vector out of
    range. *)
Theorem PrintColoring_short_vector T (coloring : list Z) ndim :
  ndim = 2 ∨ ndim = 3 → Z.of_nat (length coloring) < 2 ^ ndim →
  PrintColoring T coloring ndim = Fail UndefinedBehaviour.
Proof.
  intros [-> | ->] Hlen.
  - do 4 (destruct coloring as [|? coloring]; [reflexivity|]).
    simpl in Hlen. lia.
  - do 8 (destruct coloring as [|? coloring]; [reflexivity|]).
    simpl in Hlen. lia.
Qed.

Lemma PrintColoring_short_vector_witness :
  PrintColoring uint32_t [0; 1; 1] 2 = Fail UndefinedBehaviour.
Proof.
  apply (PrintColoring_short_vector uint32_t [0; 1; 1] 2).
  - left. reflexivity.
  - simpl. lia.
Defined.

(** ** The driver of [devils_checkerboard.cc] *)

Lemma cc_main_body fuel ndim out coloring :
  GenerateColoring true uint32_t fuel ndim = Ok coloring →
  (header ← header_line uint32_t ndim;
   coloring ← GenerateColoring true uint32_t fuel ndim;
   '(is_valid, diag) ← devils_checkerboard.ValidateColoring uint32_t coloring ndim;
   line ← fmt_format ("Validated: {}" ++ nl)
             [ArgStr (if is_valid : bool then "yes" else "no")];
   diagram ← PrintColoring uint32_t coloring ndim;
   Ok (out ++ header ++ diag ++ line ++ diagram)%string) =
  (text ← cc_report coloring ndim; Ok (out ++ text)%string).
Proof.
  intros Hgen. unfold cc_report.
  destruct (header_line uint32_t ndim) as [h|e]; [|reflexivity].
  rewrite !bind_Ok, Hgen, bind_Ok.
  destruct (devils_checkerboard.ValidateColoring uint32_t coloring ndim)
    as [[is_valid diag]|e]; [|reflexivity].
  rewrite !bind_Ok.
  destruct (fmt_format _ _) as [line|e]; [|reflexivity].
  rewrite !bind_Ok.
  destruct (PrintColoring uint32_t coloring ndim) as [diagram|e]; reflexivity.
Qed.

(** X26. The driver of [devils_checkerboard.cc] goes through the
    dimensions 2, 3 and 4 and returns 0; what it writes is the text of the
    three passes, in order.  The colouring generated validates for
    dimension 2 and fails the validation for dimensions 3 and 4; the status
    is 0 all the same. *)
Theorem cc_main_exit_status (fuel : nat) :
  (16 <= fuel)%nat →
  ∃ c2 c3 c4 t2 t3 t4,
    GenerateColoring true uint32_t fuel 2 = Ok c2 ∧
    GenerateColoring true uint32_t fuel 3 = Ok c3 ∧
    GenerateColoring true uint32_t fuel 4 = Ok c4 ∧
    cc_report c2 2 = Ok t2 ∧ cc_report c3 3 = Ok t3 ∧ cc_report c4 4 = Ok t4 ∧
    devils_checkerboard.main fuel = Ok (0, (t2 ++ t3 ++ t4)%string) ∧
    fst <$> devils_checkerboard.ValidateColoring uint32_t c2 2 = Ok true ∧
    fst <$> devils_checkerboard.ValidateColoring uint32_t c3 3 = Ok false ∧
    fst <$> devils_checkerboard.ValidateColoring uint32_t c4 4 = Ok false.
Proof.
  intros Hfuel.
  destruct (GenerateColoring_small true uint32_t fuel Hfuel) as (H2 & H3 & H4).
  assert (∃ t, cc_report [0; 0; 1; 1] 2 = Ok t) as [t2 Ht2]
    by (eexists; vm_compute; reflexivity).
  assert (∃ t, cc_report [0; 0; 2; 0; 1; 2; 1; 1] 3 = Ok t) as [t3 Ht3]
    by (eexists; vm_compute; reflexivity).
  assert (∃ t, cc_report [0; 0; 3; 2; 2; 1; 0; 2; 1; 3; 2; 1; 1; 0; 3; 3] 4 = Ok t)
    as [t4 Ht4] by (eexists; vm_compute; reflexivity).
  eexists _, _, _, t2, t3, t4.
  split; [exact H2|]. split; [exact H3|]. split; [exact H4|].
  split; [exact Ht2|]. split; [exact Ht3|]. split; [exact Ht4|].
  split; [|split; [|split]]; [|vm_compute; reflexivity..].
  unfold devils_checkerboard.main, for_range.
  change (seqZ 2 (5 - 2)) with [2; 3; 4]. cbn [for_each].
  rewrite (cc_main_body fuel 2 _ _ H2), Ht2, !bind_Ok.
  rewrite (cc_main_body fuel 3 _ _ H3), Ht3, !bind_Ok.
  rewrite (cc_main_body fuel 4 _ _ H4), Ht4, !bind_Ok.
  rewrite !string_app_assoc. reflexivity.
Qed.

Lemma cc_main_exit_status_witness :
  ∃ c2 c3 c4 t2 t3 t4,
    GenerateColoring true uint32_t 16 2 = Ok c2 ∧
    GenerateColoring true uint32_t 16 3 = Ok c3 ∧
    GenerateColoring true uint32_t 16 4 = Ok c4 ∧
    cc_report c2 2 = Ok t2 ∧ cc_report c3 3 = Ok t3 ∧ cc_report c4 4 = Ok t4 ∧
    devils_checkerboard.main 16 = Ok (0, (t2 ++ t3 ++ t4)%string) ∧
    fst <$> devils_checkerboard.ValidateColoring uint32_t c2 2 = Ok true ∧
    fst <$> devils_checkerboard.ValidateColoring uint32_t c3 3 = Ok false ∧
    fst <$> devils_checkerboard.ValidateColoring uint32_t c4 4 = Ok false.
Proof. apply (cc_main_exit_status 16). lia. Defined.
